(** * Encoding-layer functions: [aggregate] and [scaled_l2]

    A shallow embedding of [encoding/functions/encoding.py].  The two
    autograd functions of that file are written against the tensor
    library: tensors are strided views of flat storages, out-of-place
    operators allocate a new storage, operators whose name ends in an
    underscore write through the view they are called on.  The embedding
    keeps that model: a heap of storages, tensor handles with sizes and
    strides, and a state-and-exception monad in which the Python code is
    transcribed statement by statement.  The order in which [Tensor.sum]
    adds the elements up is the library's choice: the reduction is a
    parameter of the embedding, and the statements hold for every
    reduction. *)

From Stdlib Require Import ZArith QArith Qcanon Ring SpecFloat.
From stdpp Require Import base tactics option list.

(** ** Scalars

    The element type of a tensor.  [of_int] is the conversion of a Python
    integer literal ([2], [-1]) to the element type. [fneg] is not used by
    the code; it only appears in statements. *)

Class Scalar (F : Type) := {
  fzero : F;
  fadd : F → F → F;
  fsub : F → F → F;
  fmul : F → F → F;
  fdiv : F → F → F;
  fneg : F → F;
  of_int : Z → F
}.

(** Multiplication is commutative: true of IEEE arithmetic and of exact
    arithmetic alike. *)
Class MulComm (F : Type) `{Scalar F} :=
  fmul_comm : ∀ x y : F, fmul x y = fmul y x.

(** Multiplying by the literal [-1] negates: true of IEEE arithmetic and
    of exact arithmetic alike. *)
Class MulNegOne (F : Type) `{Scalar F} :=
  fmul_neg_one : ∀ x : F, fmul x (of_int (-1)) = fneg x.

(** Exact arithmetic: the scalars form a commutative ring. *)
Class ExactArith (F : Type) `{Scalar F} := {
  exact_ring : ring_theory fzero (of_int 1) fadd fmul fsub fneg (@eq F);
  of_int_0 : of_int 0 = fzero;
  of_int_2 : of_int 2 = fadd (of_int 1) (of_int 1);
  of_int_m1 : of_int (-1) = fneg (of_int 1)
}.

(** Exact arithmetic with division: dividing a product by its non-zero
    factor gives the other factor back. *)
Class ExactField (F : Type) `{Scalar F} :=
  fdiv_fmul : ∀ x y : F, y ≠ fzero → fdiv (fmul x y) y = x.

(** ** Sums

    [fsum] adds a list up from left to right, starting from zero.  It is
    the sum of the statements; in exact arithmetic it is the sum in any
    order. *)
Definition fsum {F} `{Scalar F} (l : list F) : F := foldl fadd fzero l.

(** [sums_to l v]: adding up the elements of [l], in some order and some
    grouping, gives [v].  Accumulators that start at zero are sums of no
    element. *)
Inductive sums_to {F} `{Scalar F} : list F → F → Prop :=
  | sums_nil : sums_to [] fzero
  | sums_one x : sums_to [x] x
  | sums_app l1 l2 v1 v2 :
      sums_to l1 v1 → sums_to l2 v2 → sums_to (l1 ++ l2) (fadd v1 v2)
  | sums_perm l l' v : l ≡ₚ l' → sums_to l v → sums_to l' v.

(** The reduction behind [Tensor.sum].  The tensor library does not say in
    which order and grouping it adds the elements up (it adds them in
    several lanes and blocks, not from left to right), and in floating
    point the result depends on it.  So the reduction is a parameter, a
    function of the values to add, of which this much is known: it adds no
    element up to zero, and its result is a sum of the elements in some
    order and grouping. *)
Class Reduction (F : Type) `{Scalar F} := {
  reduce : list F → F;
  reduce_nil : reduce [] = fzero;
  reduce_sums : ∀ l, sums_to l (reduce l)
}.

(** A value that adding zero leaves as it is: whatever zero accumulators a
    sum starts from, they do not show. *)
Definition stable {F} `{Scalar F} (x : F) : Prop :=
  fadd fzero x = x ∧ fadd x fzero = x.

(** [x ** n] for a non-negative integer exponent; [fpow x 2] is [x * x]. *)
Fixpoint fpow {F} `{Scalar F} (x : F) (n : nat) : F :=
  match n with
  | 0 => of_int 1
  | 1 => x
  | S m => fmul (fpow x m) x
  end.

(** ** Shapes and multi-indices *)

Definition numel (sz : list nat) : nat := foldr Nat.mul 1 sz.

(** All multi-indices of a shape, in row-major order. *)
Fixpoint indices (sz : list nat) : list (list nat) :=
  match sz with
  | [] => [[]]
  | n :: sz' => i ← seq 0 n; (cons i) <$> indices sz'
  end.

(** Strides of a freshly allocated (contiguous) tensor: the stride of a
    dimension is the product of the later sizes, a size 0 counting as 1. *)
Fixpoint contiguous_strides (sz : list nat) : list nat :=
  match sz with
  | [] => []
  | _ :: sz' => foldr (λ n acc, Nat.max n 1 * acc) 1 sz' :: contiguous_strides sz'
  end.

Fixpoint dot (idx st : list nat) : nat :=
  match idx, st with
  | i :: idx', s :: st' => i * s + dot idx' st'
  | _, _ => 0
  end.

Definition insert_at {A} (d : nat) (x : A) (l : list A) : list A :=
  take d l ++ x :: drop d l.

(** ** Tensors, exceptions, the monad *)

Record tensor := Tensor {
  sid : nat;              (* the storage the tensor views *)
  base : nat;             (* storage offset *)
  sizes : list nat;
  strides : list nat;
  is_cuda : bool
}.

(** The contiguous tensor that views the whole of storage [s]. *)
Definition fresh (s : nat) (sz : list nat) (dev : bool) : tensor :=
  {| sid := s; base := 0; sizes := sz; strides := contiguous_strides sz;
     is_cuda := dev |}.

Definition dim (t : tensor) : nat := length (sizes t).
Definition addr (t : tensor) (idx : list nat) : nat := base t + dot idx (strides t).

Inductive torch_op :=
  | OpSize | OpUnsqueeze | OpExpand | OpView | OpSub | OpPow_ | OpSum
  | OpMul_ | OpRmul | OpDiv | OpAggregate.

Inductive exn :=
  | IndexError (o : torch_op)     (* dimension out of range *)
  | ShapeError (o : torch_op)     (* sizes do not match / cannot broadcast *)
  | OverlapError (o : torch_op)   (* in-place write to a self-overlapping view *)
  | DeviceError (o : torch_op)    (* operands on different devices *)
  | ValueError.                   (* tuple unpacking of the wrong length *)

Inductive outcome (A : Type) :=
  | Ok (a : A)
  | Raise (e : exn).
Arguments Ok {A} a.
Arguments Raise {A} e.

Module torch.
Section ops.
Context {F : Type} `{Scalar F} {Red : Reduction F}.

(** The heap: storage number [s] is the list at position [s]. *)
Local Abbreviation heap := (list (list F)).
Definition M (A : Type) : Type := heap → outcome A * heap.

Definition ret {A} (a : A) : M A := λ h, (Ok a, h).
Definition raise {A} (e : exn) : M A := λ h, (Raise e, h).
Definition bind {A B} (m : M A) (k : A → M B) : M B :=
  λ h, match m h with
       | (Ok a, h') => k a h'
       | (Raise e, h') => (Raise e, h')
       end.
Definition get_heap : M heap := λ h, (Ok h, h).

Definition storage (h : heap) (s : nat) : list F := nth s h [].
Definition getv (h : heap) (t : tensor) (idx : list nat) : F :=
  nth (addr t idx) (storage h (sid t)) fzero.

(** A handle is valid in a heap when its storage exists, it has one
    stride per dimension, and every element it can address exists. *)
Definition valid_b (h : heap) (t : tensor) : bool :=
  (sid t <? length h) && (length (strides t) =? length (sizes t))
  && forallb (λ idx, addr t idx <? length (storage h (sid t))) (indices (sizes t)).

Definition valid (h : heap) (t : tensor) : Prop := valid_b h t = true.

(** [t.size(d)] *)
Definition size (t : tensor) (d : nat) : M nat :=
  match sizes t !! d with
  | Some n => ret n
  | None => raise (IndexError OpSize)
  end.

(** [t.unsqueeze(d)]: a view with a dimension of size 1 inserted. *)
Definition unsqueeze (t : tensor) (d : nat) : M tensor :=
  if decide (d ≤ dim t) then
    let s := match sizes t !! d, strides t !! d with
             | Some n, Some s => n * s
             | _, _ => 1
             end in
    ret {| sid := sid t; base := base t; sizes := insert_at d 1 (sizes t);
           strides := insert_at d s (strides t); is_cuda := is_cuda t |}
  else raise (IndexError OpUnsqueeze).

(** Expanded geometry, computed from the last dimension to the first on
    reversed lists of (size, stride): a dimension keeps its size, or has
    size 1 and is repeated with stride 0; missing leading dimensions
    count as size 1. *)
Fixpoint expand_rev (ts : list (nat * nat)) (target : list nat) (prev : nat * nat)
    : option (list (nat * nat)) :=
  match target with
  | [] => match ts with [] => Some [] | _ => None end
  | n :: target' =>
      let '(size, stride) :=
        match ts with p :: _ => p | [] => (1, prev.1 * prev.2) end in
      if decide (size = n) then
        cons (n, stride) <$> expand_rev (tail ts) target' (n, stride)
      else if decide (size = 1) then
        cons (n, 0) <$> expand_rev (tail ts) target' (n, 0)
      else None
  end.

(** [t.expand(sz)]: a view, no data is copied. *)
Definition expand (t : tensor) (sz : list nat) : M tensor :=
  match expand_rev (rev (zip (sizes t) (strides t))) (rev sz) (1, 0) with
  | Some l =>
      ret {| sid := sid t; base := base t; sizes := rev l.*1;
             strides := rev l.*2; is_cuda := is_cuda t |}
  | None => raise (ShapeError OpExpand)
  end.

(** Strides of a view with a new shape, or [None] when the new shape
    cuts across the memory layout.  Dimensions are consumed from the
    last to the first; a chunk is a run of dimensions of the tensor that
    are contiguous with one another. *)
Fixpoint view_chunk (vs : list nat) (view_numel tensor_numel chunk_base : nat)
    (acc : list nat) : list nat * nat * list nat :=
  match vs with
  | [] => ([], view_numel, acc)
  | v :: vs' =>
      if bool_decide (view_numel < tensor_numel) || bool_decide (v = 1) then
        view_chunk vs' (view_numel * v) tensor_numel chunk_base
          (view_numel * chunk_base :: acc)
      else (vs, view_numel, acc)
  end.

Fixpoint view_strides (ts : list (nat * nat)) (tensor_numel chunk_base : nat)
    (vs : list nat) (acc : list nat) : option (list nat) :=
  match ts with
  | [] => match vs with [] => Some acc | _ => None end
  | (n, _) :: ts' =>
      let tensor_numel := tensor_numel * n in
      let chunk_end :=
        match ts' with
        | [] => true
        | (n', s') :: _ =>
            bool_decide (n' ≠ 1) && bool_decide (s' ≠ tensor_numel * chunk_base)
        end in
      if chunk_end then
        let '(vs', view_numel, acc') := view_chunk vs 1 tensor_numel chunk_base acc in
        if decide (view_numel = tensor_numel) then
          view_strides ts' 1 (match ts' with (_, s') :: _ => s' | [] => chunk_base end)
            vs' acc'
        else None
      else view_strides ts' tensor_numel chunk_base vs acc
  end.

Definition compute_stride (oldshape oldstride newshape : list nat) : option (list nat) :=
  match oldshape with
  | [] => Some (replicate (length newshape) 1)
  | _ =>
      if decide (numel oldshape = 0) then
        if decide (oldshape = newshape) then Some oldstride
        else Some (contiguous_strides newshape)
      else
        view_strides (rev (zip oldshape oldstride)) 1 (default 1 (last oldstride))
          (rev newshape) []
  end.

(** [t.view(sz)] *)
Definition view (t : tensor) (sz : list nat) : M tensor :=
  if decide (numel sz = numel (sizes t)) then
    match compute_stride (sizes t) (strides t) sz with
    | Some st =>
        ret {| sid := sid t; base := base t; sizes := sz; strides := st;
               is_cuda := is_cuda t |}
    | None => raise (ShapeError OpView)
    end
  else raise (ShapeError OpView).

(** *** Operators that touch storages *)

(** A new storage holding [f idx] for every index, row-major. *)
Definition alloc (sz : list nat) (dev : bool) (f : list nat → F) : M tensor :=
  λ h, (Ok (fresh (length h) sz dev), h ++ [f <$> indices sz]).

(** Replace, element by element in index order, the value [x] that [t]
    addresses at [idx] by [g idx x]; the storage of [t] is updated in
    place, so every other view of that storage sees the new values. *)
Definition write_through (t : tensor) (g : list nat → F → F) : M () :=
  λ h, (Ok (),
        <[sid t := foldl (λ d idx, <[addr t idx := g idx (nth (addr t idx) d fzero)]> d)
                     (storage h (sid t)) (indices (sizes t))]> h).

Definition has_internal_overlap (t : tensor) : bool :=
  existsb (λ p, bool_decide (1 < p.1) && bool_decide (p.2 = 0))
          (zip (sizes t) (strides t)).

Definition same_device (o : torch_op) (a b : tensor) : M () :=
  if decide (is_cuda a = is_cuda b) then ret () else raise (DeviceError o).

(** Broadcast shape of two shapes, on reversed lists. *)
Fixpoint infer_size_rev (a b : list nat) : option (list nat) :=
  match a, b with
  | [], _ => Some b
  | _, [] => Some a
  | x :: a', y :: b' =>
      if decide (x = y ∨ x = 1 ∨ y = 1) then
        cons (if decide (x = 1) then y else x) <$> infer_size_rev a' b'
      else None
  end.

Definition infer_size (o : torch_op) (a b : list nat) : M (list nat) :=
  match infer_size_rev (rev a) (rev b) with
  | Some l => ret (rev l)
  | None => raise (ShapeError o)
  end.

(** Out-of-place element-wise operator with broadcasting. *)
Definition binary (o : torch_op) (op : F → F → F) (a b : tensor) : M tensor :=
  bind (same_device o a b) (λ _,
  bind (infer_size o (sizes a) (sizes b)) (λ sz,
  bind (expand a sz) (λ a',
  bind (expand b sz) (λ b',
  bind get_heap (λ h,
  alloc sz (is_cuda a) (λ idx, op (getv h a' idx) (getv h b' idx))))))).

(** In-place element-wise operator: the broadcast shape must be the
    shape of [self], and [self] must not overlap itself. *)
Definition binary_ (o : torch_op) (op : F → F → F) (self other : tensor) : M tensor :=
  bind (same_device o self other) (λ _,
  bind (infer_size o (sizes self) (sizes other)) (λ sz,
  if decide (sz = sizes self) then
    if has_internal_overlap self then raise (OverlapError o)
    else
      bind (expand other sz) (λ other',
      bind get_heap (λ h,
      bind (write_through self (λ idx x, op x (getv h other' idx))) (λ _,
      ret self)))
  else raise (ShapeError o))).

(** In-place operator with a Python number. *)
Definition unary_ (o : torch_op) (op : F → F) (self : tensor) : M tensor :=
  if has_internal_overlap self then raise (OverlapError o)
  else bind (write_through self (λ _ x, op x)) (λ _, ret self).

(** The argument of [mul_]: a tensor or a Python number. *)
Inductive arg := Tens (t : tensor) | Num (z : Z).

(** [a - b] *)
Definition sub (a b : tensor) : M tensor := binary OpSub fsub a b.

(** [a.div(b)] *)
Definition div (a b : tensor) : M tensor := binary OpDiv fdiv a b.

(** [self.mul_(other)] *)
Definition mul_ (self : tensor) (other : arg) : M tensor :=
  match other with
  | Tens t => binary_ OpMul_ fmul self t
  | Num z => unary_ OpMul_ (λ x, fmul x (of_int z)) self
  end.

(** [self.pow_(n)] *)
Definition pow_ (self : tensor) (n : nat) : M tensor :=
  unary_ OpPow_ (λ x, fpow x n) self.

(** [z * t] with a Python number on the left: [t.__rmul__(z)], that is
    [torch.mul(t, z)]. *)
Definition rmul (z : Z) (t : tensor) : M tensor :=
  bind get_heap (λ h,
  alloc (sizes t) (is_cuda t) (λ idx, fmul (getv h t idx) (of_int z))).

(** The entries of [l] at the positions where [mask] is [b]. *)
Fixpoint pick (b : bool) (mask : list bool) (l : list nat) : list nat :=
  match mask, l with
  | m :: mask', x :: l' =>
      if Bool.eqb m b then x :: pick b mask' l' else pick b mask' l'
  | _, _ => []
  end.

(** The full index whose reduced positions are [r] and kept ones [o]. *)
Fixpoint weave (mask : list bool) (r o : list nat) : list nat :=
  match mask with
  | [] => []
  | true :: mask' =>
      match r with x :: r' => x :: weave mask' r' o | [] => [] end
  | false :: mask' =>
      match o with x :: o' => x :: weave mask' r o' | [] => [] end
  end.

(** [t.sum(dims)]: the listed dimensions are summed away, each output
    element by the library's reduction of the elements it covers. *)
Definition sum (t : tensor) (dims : list nat) : M tensor :=
  if decide (Forall (λ d, d < dim t) dims ∧ NoDup dims) then
    let mask := (λ p, bool_decide (p ∈ dims)) <$> seq 0 (dim t) in
    bind get_heap (λ h,
    alloc (pick false mask (sizes t)) (is_cuda t)
      (λ o, reduce ((λ r, getv h t (weave mask r o))
                    <$> indices (pick true mask (sizes t)))))
  else raise (IndexError OpSum).

(** *** The autograd context *)

Record ctx := Ctx {
  saved_tensors : list tensor;
  needs_input_grad : list bool
}.

Definition save_for_backward (c : ctx) (ts : list tensor) : ctx :=
  {| saved_tensors := ts; needs_input_grad := needs_input_grad c |}.

Definition saved_variables (c : ctx) : list tensor := saved_tensors c.
End ops.
Arguments M : clear implicits.
Abbreviation heap F := (list (list F)).
End torch.

Notation "x <- m ;; k" := (torch.bind m (λ x, k))
  (at level 100, m at next level, right associativity, only parsing).

(** ** [class ScaledL2(Function)] *)

Module ScaledL2.
Section defs.
Context {F : Type} `{Scalar F} {Red : Reduction F}.
Import torch.

Definition forward (c : ctx) (X C S : tensor) : M F (ctx * tensor) :=
  X1 <- unsqueeze X 2 ;;
  b <- size X 0 ;; n <- size X 1 ;; k <- size C 0 ;; d <- size C 1 ;;
  X2 <- expand X1 [b; n; k; d] ;;
  C1 <- unsqueeze C 0 ;;
  C2 <- unsqueeze C1 0 ;;
  R <- sub X2 C2 ;;
  R <- pow_ R 2 ;;
  SL <- sum R [3] ;;
  k <- size C 0 ;;
  S1 <- view S [1; 1; k] ;;
  SL <- mul_ SL (Tens S1) ;;
  let c := save_for_backward c [X; C; S; SL] in
  ret (c, SL).

Definition backward (c : ctx) (GSL : tensor) : M F (tensor * tensor * tensor) :=
  match saved_variables c with
  | [X; C; S'; SL] =>
      let S := S' in
      X1 <- unsqueeze X 2 ;;
      b <- size X 0 ;; n <- size X 1 ;; k <- size C 0 ;; d <- size C 1 ;;
      X2 <- expand X1 [b; n; k; d] ;;
      C1 <- unsqueeze C 0 ;;
      C2 <- unsqueeze C1 0 ;;
      R <- sub X2 C2 ;;
      G <- rmul 2 GSL ;;
      k <- size C 0 ;;
      S1 <- view S [1; 1; k] ;;
      G <- mul_ G (Tens S1) ;;
      G <- unsqueeze G 3 ;;
      tmp <- mul_ R (Tens G) ;;
      GX <- sum tmp [2] ;;
      GC <- sum tmp [0; 1] ;;
      GC <- mul_ GC (Num (-1)) ;;
      k <- size C 0 ;;
      S1 <- view S [1; 1; k] ;;
      Q <- div SL S1 ;;
      Q <- mul_ Q (Tens GSL) ;;
      GS <- sum Q [0; 1] ;;
      ret (GX, GC, GS)
  | _ => raise ValueError
  end.
End defs.
End ScaledL2.

(** [def scaled_l2(X, C, S)]: [ScaledL2.apply] runs [forward] on a new
    context and hands back its output. *)
Definition scaled_l2 {F} `{Scalar F} {Red : Reduction F} (X C S : tensor)
    : torch.M F tensor :=
  r <- ScaledL2.forward (torch.Ctx [] []) X C S ;;
  torch.ret r.2.

(** ** [class _aggregate(Function)]

    The numeric kernels live in the compiled extension [encoding.lib],
    with one set of entry points per device. *)

Record backend {F : Type} `{Scalar F} := Backend {
  aggregate_forward : tensor → tensor → tensor → torch.M F tensor;
  aggregate_backward :
    tensor → tensor → tensor → tensor → torch.M F (tensor * tensor * tensor)
}.
Arguments backend F {_}.

Record library {F : Type} `{Scalar F} := Library {
  cpu : backend F;
  gpu : backend F
}.
Arguments library F {_}.

Module _aggregate.
Section defs.
Context {F : Type} `{Scalar F} (lib : library F).
Import torch.

Definition forward (c : ctx) (A X C : tensor) : M F (ctx * tensor) :=
  let c := save_for_backward c [A; X; C] in
  E <- (if is_cuda A then aggregate_forward (gpu lib) A X C
        else aggregate_forward (cpu lib) A X C) ;;
  ret (c, E).

Definition backward (c : ctx) (gradE : tensor) : M F (tensor * tensor * tensor) :=
  match saved_variables c with
  | [A; X; C] =>
      g <- (if is_cuda A then aggregate_backward (gpu lib) gradE A X C
            else aggregate_backward (cpu lib) gradE A X C) ;;
      let '(gradA, gradX, gradC) := g in
      ret (gradA, gradX, gradC)
  | _ => raise ValueError
  end.
End defs.
End _aggregate.

(** [def aggregate(A, X, C)] *)
Definition aggregate {F} `{Scalar F} (lib : library F) (A X C : tensor)
    : torch.M F tensor :=
  r <- _aggregate.forward lib (torch.Ctx [] []) A X C ;;
  torch.ret r.2.

(** ** The kernels of [encoding.lib] *)

Section spec_lib.
Context {F : Type} `{Scalar F}.
Import torch.

(** Modelled from the spec: [lib.cpu.aggregate_forward] and
    [lib.gpu.aggregate_forward], the compiled kernels behind
    [_aggregate.forward].  The shapes are checked before any element is
    computed; then [E[b,k,:] = sum over i of A[b,i,k] * (X[b,i,:] - C[k,:])]. *)
Definition spec_aggregate_forward (A X C : tensor) : M F tensor :=
  match sizes A, sizes X, sizes C with
  | [B; N; K], [B'; N'; D], [K'; D'] =>
      if decide (B = B' ∧ N = N' ∧ K = K' ∧ D = D') then
        h <- get_heap ;;
        alloc [B; K; D] (is_cuda A)
          (λ idx, match idx with
                  | [b; k; d] =>
                      fsum ((λ i, fmul (getv h A [b; i; k])
                                       (fsub (getv h X [b; i; d]) (getv h C [k; d])))
                            <$> seq 0 N)
                  | _ => fzero
                  end)
      else raise (ShapeError OpAggregate)
  | _, _, _ => raise (ShapeError OpAggregate)
  end.

(** Modelled from the spec: [lib.cpu.aggregate_backward] and
    [lib.gpu.aggregate_backward]:
    [gradA[b,i,k] = sum over d of gradE[b,k,d] * (X[b,i,d] - C[k,d])],
    [gradX[b,i,d] = sum over k of gradE[b,k,d] * A[b,i,k]],
    [gradC[k,d] = - sum over b, i of gradE[b,k,d] * A[b,i,k]]. *)
Definition spec_aggregate_backward (gradE A X C : tensor)
    : M F (tensor * tensor * tensor) :=
  match sizes gradE, sizes A, sizes X, sizes C with
  | [B0; K0; D0], [B; N; K], [B'; N'; D], [K'; D'] =>
      if decide (B = B' ∧ N = N' ∧ K = K' ∧ D = D' ∧ B0 = B ∧ K0 = K ∧ D0 = D) then
        h <- get_heap ;;
        gradA <- alloc [B; N; K] (is_cuda A)
          (λ idx, match idx with
                  | [b; i; k] =>
                      fsum ((λ d, fmul (getv h gradE [b; k; d])
                                       (fsub (getv h X [b; i; d]) (getv h C [k; d])))
                            <$> seq 0 D)
                  | _ => fzero
                  end) ;;
        gradX <- alloc [B; N; D] (is_cuda A)
          (λ idx, match idx with
                  | [b; i; d] =>
                      fsum ((λ k, fmul (getv h gradE [b; k; d]) (getv h A [b; i; k]))
                            <$> seq 0 K)
                  | _ => fzero
                  end) ;;
        gradC <- alloc [K; D] (is_cuda A)
          (λ idx, match idx with
                  | [k; d] =>
                      fneg (fsum ((λ bi, match bi with
                                         | [b; i] => fmul (getv h gradE [b; k; d])
                                                          (getv h A [b; i; k])
                                         | _ => fzero
                                         end)
                                  <$> indices [B; N]))
                  | _ => fzero
                  end) ;;
        ret (gradA, gradX, gradC)
      else raise (ShapeError OpAggregate)
  | _, _, _, _ => raise (ShapeError OpAggregate)
  end.

Definition spec_backend : backend F :=
  {| aggregate_forward := spec_aggregate_forward;
     aggregate_backward := spec_aggregate_backward |}.

(** Both devices compute the same function. *)
Definition spec_lib : library F := {| cpu := spec_backend; gpu := spec_backend |}.
End spec_lib.

(** The backend whose entry points a call with first input [A] uses. *)
Definition selected {F} `{Scalar F} (lib : library F) (A : tensor) : backend F :=
  if is_cuda A then gpu lib else cpu lib.

(** ** Two scalar types: exact rationals and IEEE binary64 *)

#[export] Instance Qc_scalar : Scalar Qc := {|
  fzero := 0%Qc; fadd := Qcplus; fsub := Qcminus; fmul := Qcmult;
  fdiv := Qcdiv; fneg := Qcopp; of_int z := Q2Qc (inject_Z z)
|}.

Definition binary64 := spec_float.

(** The binary64 number [m * 2^e]. *)
Definition b64 (m e : Z) : binary64 := binary_normalize 53 1024 m e false.

#[export] Instance binary64_scalar : Scalar binary64 := {|
  fzero := S754_zero false;
  fadd := SFadd 53 1024; fsub := SFsub 53 1024; fmul := SFmul 53 1024;
  fdiv := SFdiv 53 1024; fneg := SFopp; of_int z := b64 z 0
|}.

(** A stride after [expand]: kept where the size is kept, 0 where a
    dimension of size 1 is repeated. *)
Definition kept (s n st : nat) : nat := if decide (s = n) then st else 0.

(** ** Vocabulary of the statements *)

Section statements.
Context {F : Type} `{Scalar F} {Red : Reduction F}.

(** The sum of [f k] over [k < n], added up from left to right: the sum
    of the statements in exact arithmetic, where the order does not
    show. *)
Definition sum_over (n : nat) (f : nat → F) : F := fsum (f <$> seq 0 n).

(** The sum of [f b i] over [b < B] and [i < N], added up in row-major
    order. *)
Definition sum_over2 (B N : nat) (f : nat → nat → F) : F :=
  fsum ((λ bi, match bi with [b; i] => f b i | _ => fzero end) <$> indices [B; N]).

(** The [f k], [k < n], added up by the library's reduction, in the order
    and grouping it chooses. *)
Definition reduce_over (n : nat) (f : nat → F) : F := reduce (f <$> seq 0 n).

(** The [f b i], [b < B] and [i < N], added up by the library's
    reduction. *)
Definition reduce_over2 (B N : nat) (f : nat → nat → F) : F :=
  reduce ((λ bi, match bi with [b; i] => f b i | _ => fzero end) <$> indices [B; N]).

(** The elements of a tensor, row-major. *)
Definition to_list (h : torch.heap F) (t : tensor) : list F :=
  torch.getv h t <$> indices (sizes t).

(** A tensor of shape [sz] that is valid in [h]. *)
Definition input (h : torch.heap F) (t : tensor) (sz : list nat) : Prop :=
  torch.valid h t ∧ sizes t = sz.

(** A list of tensors all on one device. *)
Definition one_device (ts : list tensor) : Prop :=
  match ts with
  | [] => True
  | t :: ts' => forallb (λ t', Bool.eqb (is_cuda t') (is_cuda t)) ts' = true
  end.
End statements.

(** ** Frames

    What a step, and what a whole call, can do to the heap. *)

Section frames.
Context {F : Type} `{Scalar F}.

(** A step that allocates and writes nothing, and does not fail on an
    overlapping view. *)
Definition keeps {A} (m : torch.M F A) : Prop :=
  ∀ h, (∃ a, m h = (Ok a, h))
       ∨ (∃ e, m h = (Raise e, h) ∧ ∀ o, e ≠ OverlapError o).

(** The outcome of a call from [h0]: the heap has only grown, by at most
    [n] storages, and no in-place operator met an overlapping view. *)
Definition framed {A} (h0 : torch.heap F) (n : nat)
    (r : outcome A * torch.heap F) : Prop :=
  ∃ new, r.2 = h0 ++ new ∧ length new ≤ n ∧ ∀ o, r.1 ≠ Raise (OverlapError o).
End frames.

Definition is_finite (x : binary64) : bool :=
  match x with
  | S754_zero _ | S754_finite _ _ _ => true
  | S754_infinity _ | S754_nan => false
  end.

(** ** What the storages hold after a call

    Closed forms of the storages that [ScaledL2.forward] and
    [ScaledL2.backward] allocate, in terms of what the inputs hold in the
    heap [h] in which the call starts. *)

Section closed_forms.
Context {F : Type} `{Scalar F} {Red : Reduction F}.
Import torch.
Implicit Types (h : heap F) (A X C S SL GSL : tensor).

(** The squared distance between sample [i] of batch [b] and codeword [k]. *)
Definition sqdist h X C (D b i k : nat) : F :=
  reduce ((λ d, fpow (fsub (getv h X [b; i; d]) (getv h C [k; d])) 2) <$> seq 0 D).

Definition sq_data h X C (B N K D : nat) : list F :=
  (λ idx, match idx with
          | [b; i; k; d] => fpow (fsub (getv h X [b; i; d]) (getv h C [k; d])) 2
          | _ => fzero
          end) <$> indices [B; N; K; D].

Definition SL_data h X C S (B N K D : nat) : list F :=
  (λ idx, match idx with
          | [b; i; k] => fmul (sqdist h X C D b i k) (getv h S [k])
          | _ => fzero
          end) <$> indices [B; N; K].

(** [2 * GSL * S], the factor of the residual in [tmp]. *)
Definition G_val h S GSL (b i k : nat) : F :=
  fmul (fmul (getv h GSL [b; i; k]) (of_int 2)) (getv h S [k]).

Definition tmp_val h X C S GSL (b i k d : nat) : F :=
  fmul (fsub (getv h X [b; i; d]) (getv h C [k; d])) (G_val h S GSL b i k).

Definition Q_val h S SL GSL (b i k : nat) : F :=
  fmul (fdiv (getv h SL [b; i; k]) (getv h S [k])) (getv h GSL [b; i; k]).

Definition tmp_data h X C S GSL (B N K D : nat) : list F :=
  (λ idx, match idx with
          | [b; i; k; d] => tmp_val h X C S GSL b i k d
          | _ => fzero
          end) <$> indices [B; N; K; D].

Definition G_data h S GSL (B N K : nat) : list F :=
  (λ idx, match idx with
          | [b; i; k] => G_val h S GSL b i k
          | _ => fzero
          end) <$> indices [B; N; K].

Definition GX_data h X C S GSL (B N K D : nat) : list F :=
  (λ idx, match idx with
          | [b; i; d] => reduce ((λ k, tmp_val h X C S GSL b i k d) <$> seq 0 K)
          | _ => fzero
          end) <$> indices [B; N; D].

Definition GC_data h X C S GSL (B N K D : nat) : list F :=
  (λ idx, match idx with
          | [k; d] =>
              fmul (reduce ((λ bi, match bi with
                                 | [b; i] => tmp_val h X C S GSL b i k d
                                 | _ => fzero
                                 end) <$> indices [B; N]))
                   (of_int (-1))
          | _ => fzero
          end) <$> indices [K; D].

Definition Q_data h S SL GSL (B N K : nat) : list F :=
  (λ idx, match idx with
          | [b; i; k] => Q_val h S SL GSL b i k
          | _ => fzero
          end) <$> indices [B; N; K].

Definition GS_data h S SL GSL (B N K : nat) : list F :=
  (λ idx, match idx with
          | [k] =>
              reduce ((λ bi, match bi with
                           | [b; i] => Q_val h S SL GSL b i k
                           | _ => fzero
                           end) <$> indices [B; N])
          | _ => fzero
          end) <$> indices [K].

Definition E_data h A X C (B N K D : nat) : list F :=
  (λ idx, match idx with
          | [b; k; d] =>
              fsum ((λ i, fmul (getv h A [b; i; k])
                               (fsub (getv h X [b; i; d]) (getv h C [k; d])))
                    <$> seq 0 N)
          | _ => fzero
          end) <$> indices [B; K; D].
End closed_forms.

(** ** Example data *)

(** binary64 literals *)
Definition f0_0 : binary64 := b64 0 0.
Definition f0_5 : binary64 := b64 1 (-1).
Definition f1_0 : binary64 := b64 1 0.
Definition f2_0 : binary64 := b64 2 0.
Definition f3_0 : binary64 := b64 3 0.
Definition f8_0 : binary64 := b64 8 0.

(** A heap of exact rationals: [X] of shape (1,2,3) in storage 0, [C] of
    shape (2,3) in storage 1, [S] of shape (2) in storage 2 and an output
    gradient of shape (1,2,2) in storage 3. *)
Definition qs (l : list Z) : list Qc := (λ z, Q2Qc (inject_Z z)) <$> l.

Definition hq : torch.heap Qc :=
  [ qs [1; 2; 3; 4; 5; 6]; qs [1; 0; 1; 1; 2; 0]; qs [2; 3]; qs [1; 1; 1; 2] ]%Z.

Definition Xq : tensor := fresh 0 [1; 2; 3] false.
Definition Cq : tensor := fresh 1 [2; 3] false.
Definition Sq : tensor := fresh 2 [2] false.
Definition GSLq : tensor := fresh 3 [1; 2; 2] false.

(** The same heap after [scaled_l2(X, C, S)]: the squared residuals in
    storage 4, the output [SL] in storage 5; and the context of that call. *)
Definition hq1 : torch.heap Qc :=
  hq ++ [ qs [0; 4; 4; 0; 0; 9; 9; 25; 25; 9; 9; 36]; qs [16; 27; 118; 162] ]%Z.

Definition SLq : tensor := fresh 5 [1; 2; 2] false.
Definition cq : torch.ctx := torch.Ctx [Xq; Cq; Sq; SLq] [].

(** The heap [hq1] with one more storage in front, and the tensors moved
    accordingly. *)
Definition hq2 : torch.heap Qc := [] :: hq1.
Definition Xq2 : tensor := fresh 1 [1; 2; 3] false.
Definition Cq2 : tensor := fresh 2 [2; 3] false.
Definition Sq2 : tensor := fresh 3 [2] false.
Definition GSLq2 : tensor := fresh 4 [1; 2; 2] false.
Definition SLq2 : tensor := fresh 6 [1; 2; 2] false.
Definition cq2 : torch.ctx := torch.Ctx [Xq2; Cq2; Sq2; SLq2] [].

(** The heap [hq1] with the storage of the squared residuals emptied. *)
Definition hq3 : torch.heap Qc := <[4 := []]> hq1.

(** A binary64 heap on which rounding shows: [X = [[1],[1]]], [C = [[0],[0]]],
    [S = [1,1]] and the output gradient [[2^59, 0.5], [-2^59, 0.5]]. *)
Definition hf : torch.heap binary64 :=
  [ [f1_0; f1_0]; [f0_0; f0_0]; [f1_0; f1_0];
    [b64 1 59; f0_5; b64 (-1) 59; f0_5] ].

Definition Xf : tensor := fresh 0 [1; 2; 1] false.
Definition Cf : tensor := fresh 1 [2; 1] false.
Definition Sf : tensor := fresh 2 [2] false.
Definition GSLf : tensor := fresh 3 [1; 2; 2] false.

(** The heap [hf] after [scaled_l2(X, C, S)], and the context of that call. *)
Definition hf1 : torch.heap binary64 :=
  hf ++ [ [f1_0; f1_0; f1_0; f1_0]; [f1_0; f1_0; f1_0; f1_0] ].

Definition SLf : tensor := fresh 5 [1; 2; 2] false.
Definition cf : torch.ctx := torch.Ctx [Xf; Cf; Sf; SLf] [].

(** The heap [hq1] followed by a perturbation of each input with the input
    moved by it either way ([X] in storages 6 to 8, [C] in 9 to 11, [S] in
    12 to 14), a second output gradient (storage 15) and the sum of the two
    output gradients (storage 16). *)
Definition hq4 : torch.heap Qc :=
  hq1 ++ [ qs [1; 0; 2; 0; 1; 1]; qs [2; 2; 5; 4; 6; 7]; qs [0; 2; 1; 4; 4; 5];
           qs [1; 1; 0; 0; 2; 1]; qs [2; 1; 1; 1; 4; 1]; qs [0; -1; 1; 1; 0; -1];
           qs [1; 2]; qs [3; 5]; qs [1; 1];
           qs [0; 1; 2; 1]; qs [1; 2; 3; 3] ]%Z.

Definition TXq : tensor := fresh 6 [1; 2; 3] false.
Definition Xpq : tensor := fresh 7 [1; 2; 3] false.
Definition Xmq : tensor := fresh 8 [1; 2; 3] false.
Definition TCq : tensor := fresh 9 [2; 3] false.
Definition Cpq : tensor := fresh 10 [2; 3] false.
Definition Cmq : tensor := fresh 11 [2; 3] false.
Definition TSq : tensor := fresh 12 [2] false.
Definition Spq : tensor := fresh 13 [2] false.
Definition Smq : tensor := fresh 14 [2] false.
Definition G2q : tensor := fresh 15 [1; 2; 2] false.
Definition G3q : tensor := fresh 16 [1; 2; 2] false.

(** [X] of shape (1,2,1): the first two entries of storage 0; and the
    context that retains it. *)
Definition Xbq : tensor := fresh 0 [1; 2; 1] false.
Definition cbq : torch.ctx := torch.Ctx [Xbq; Cq; Sq; SLq] [].

(** An empty batch: [X] of shape (0,2,3), with output and output gradient
    of shape (0,2,2). *)
Definition X0q : tensor := fresh 0 [0; 2; 3] false.
Definition SL0q : tensor := fresh 5 [0; 2; 2] false.
Definition GSL0q : tensor := fresh 3 [0; 2; 2] false.
Definition c0q : torch.ctx := torch.Ctx [X0q; Cq; Sq; SL0q] [].

(** A binary64 heap with a NaN: [X = [[[NaN, 1.0]]]], [C = [[0.0, 0.0]]],
    [S = [1.0]]. *)
Definition hfn : torch.heap binary64 :=
  [ [S754_nan; f1_0]; [f0_0; f0_0]; [f1_0] ].
Definition Xfn : tensor := fresh 0 [1; 1; 2] false.
Definition Cfn : tensor := fresh 1 [1; 2] false.
Definition Sfn : tensor := fresh 2 [1] false.

(** * Properties *)

Import torch.

(** ** Row-major indexing *)

Section row_major.
Implicit Types sz idx : list nat.

Lemma length_indices sz : length (indices sz) = numel sz.
Proof.
  induction sz as [|n sz IH]; [done|]. simpl.
  induction n as [|n IHn]; [done|].
  rewrite seq_S, bind_app, length_app, IHn. simpl.
  rewrite app_nil_r, length_fmap, IH. lia.
Qed.

Lemma elem_of_indices sz idx : idx ∈ indices sz ↔ Forall2 lt idx sz.
Proof.
  revert idx. induction sz as [|n sz IH]; intros idx; simpl.
  - rewrite list_elem_of_singleton. split; [intros ->; constructor|].
    by inversion 1.
  - rewrite list_elem_of_bind. split.
    + intros (i & Hin & Hi). apply list_elem_of_fmap in Hin as (idx' & -> & Hin).
      apply elem_of_seq in Hi. constructor; [lia|]. by apply IH.
    + inversion 1 as [|i ? idx' ? Hi Hrest]; subst. exists i. split.
      * apply list_elem_of_fmap. exists idx'. split; [done|]. by apply IH.
      * apply elem_of_seq. lia.
Qed.

Lemma contiguous_numel sz :
  numel sz ≠ 0 → foldr (λ n acc, Nat.max n 1 * acc) 1 sz = numel sz.
Proof.
  induction sz as [|n sz IH]; simpl; [done|]. intros Hne.
  rewrite IH by (intros E; rewrite E in Hne; lia).
  destruct n; simpl in *; lia.
Qed.

Lemma bind_seq_blocks n m :
  (seq 0 n ≫= λ i, seq (i * m) m) = seq 0 (n * m).
Proof.
  induction n as [|n IH]; [done|].
  rewrite seq_S, bind_app, IH. simpl. rewrite app_nil_r.
  replace (m + n * m) with (n * m + m) by lia. by rewrite seq_app.
Qed.

Lemma fmap_list_bind {A B C} (f : B → C) (g : A → list B) (l : list A) :
  f <$> (l ≫= g) = l ≫= (λ x, f <$> g x).
Proof.
  induction l as [|x l IH]; [done|]. rewrite !bind_cons, fmap_app. by f_equal.
Qed.

(** The addresses of a contiguous tensor enumerate its storage in order. *)
Lemma dot_contiguous_indices sz :
  (λ idx, dot idx (contiguous_strides sz)) <$> indices sz = seq 0 (numel sz).
Proof.
  induction sz as [|n sz IH]; [done|]. simpl.
  rewrite fmap_list_bind.
  destruct (decide (numel sz = 0)) as [E0|Hne].
  - rewrite E0, Nat.mul_0_r.
    assert (indices sz = []) as ->.
    { apply length_zero_iff_nil. by rewrite length_indices. }
    transitivity (seq 0 n ≫= (λ _, @nil nat)); [by apply list_bind_ext|].
    by induction (seq 0 n).
  - rewrite contiguous_numel by done. rewrite <- bind_seq_blocks.
    apply list_bind_ext; [|done]. intros i.
    rewrite <- list_fmap_compose.
    replace (seq (i * numel sz) (numel sz))
      with (Nat.add (i * numel sz) <$> seq 0 (numel sz))
      by (rewrite fmap_add_seq; f_equal; lia).
    rewrite <- IH, <- list_fmap_compose. by apply list_fmap_ext.
Qed.

Lemma dot_contiguous_lookup sz j idx :
  indices sz !! j = Some idx → dot idx (contiguous_strides sz) = j.
Proof.
  intros Hj.
  assert (((λ idx, dot idx (contiguous_strides sz)) <$> indices sz) !! j
          = Some (dot idx (contiguous_strides sz))) as Hd.
  { by rewrite list_lookup_fmap, Hj. }
  rewrite dot_contiguous_indices in Hd.
  apply lookup_seq in Hd. lia.
Qed.

(** Reading a tabulated storage through contiguous strides. *)
Lemma nth_tabulate {A} (f : list nat → A) (z : A) sz idx :
  idx ∈ indices sz →
  nth (dot idx (contiguous_strides sz)) (f <$> indices sz) z = f idx.
Proof.
  intros Hin. apply list_elem_of_lookup in Hin as [j Hj].
  rewrite (dot_contiguous_lookup _ _ _ Hj).
  apply nth_lookup_Some. by rewrite list_lookup_fmap, Hj.
Qed.

(** A pass of in-place updates over addresses that enumerate the list. *)
Lemma foldl_insert_enum {A B} (a : B → nat) (g : B → A → A) (z : A)
    (pre suf : list A) (l : list B) :
  a <$> l = seq (length pre) (length suf) →
  foldl (λ d x, <[a x := g x (nth (a x) d z)]> d) (pre ++ suf) l
  = pre ++ zip_with g l suf.
Proof.
  revert pre suf. induction l as [|x l IH]; intros pre suf Hl.
  - destruct suf; [|done]. done.
  - destruct suf as [|y suf]; [done|]. simpl in Hl.
    injection Hl as Hx Hl. simpl. rewrite Hx.
    rewrite app_nth2, Nat.sub_diag by lia. simpl.
    rewrite insert_app_r_alt, Nat.sub_diag by lia. simpl.
    rewrite (cons_middle (g x y)), app_assoc. rewrite IH.
    + by rewrite <- app_assoc.
    + rewrite length_app. simpl.
      replace (length pre + 1) with (S (length pre)) by lia. exact Hl.
Qed.

Lemma foldl_insert_tabulate {A} (f : list nat → A) (g : list nat → A → A) (z : A) sz :
  foldl (λ d idx, <[dot idx (contiguous_strides sz)
                      := g idx (nth (dot idx (contiguous_strides sz)) d z)]> d)
        (f <$> indices sz) (indices sz)
  = (λ idx, g idx (f idx)) <$> indices sz.
Proof.
  pose proof (foldl_insert_enum (λ idx, dot idx (contiguous_strides sz)) g z
                [] (f <$> indices sz) (indices sz)) as Hf.
  simpl in Hf. rewrite Hf.
  - generalize (indices sz). intros l. induction l; simpl; [done|]. by f_equal.
  - by rewrite dot_contiguous_indices, length_fmap, length_indices.
Qed.

Lemma contiguous_strides_nonzero sz :
  Forall (λ s, s ≠ 0) (contiguous_strides sz).
Proof.
  induction sz as [|n sz IH]; simpl; constructor; [|done].
  clear. induction sz as [|m sz IH]; simpl; [done|]. destruct m; simpl; lia.
Qed.
End row_major.

(** ** The tensor operators *)

Section operators.
Context {F : Type} `{Scalar F} {Red : Reduction F}.
Import torch.
Implicit Types (h : heap F) (t : tensor).

Lemma bind_ok {A B} (m : M F A) (k : A → M F B) h a h' :
  m h = (Ok a, h') → bind m k h = k a h'.
Proof. unfold bind. by intros ->. Qed.

Lemma bind_raise {A B} (m : M F A) (k : A → M F B) h e h' :
  m h = (Raise e, h') → bind m k h = (Raise e, h').
Proof. unfold bind. by intros ->. Qed.

Lemma storage_app_l h l s : s < length h → storage (h ++ l) s = storage h s.
Proof. intros Hs. unfold storage. by rewrite app_nth1. Qed.

Lemma storage_app_r h l j : storage (h ++ l) (length h + j) = nth j l [].
Proof.
  unfold storage. rewrite app_nth2 by lia. f_equal. lia.
Qed.

Lemma storage_middle h d l : storage (h ++ d :: l) (length h) = d.
Proof. unfold storage. by rewrite nth_middle. Qed.

Lemma insert_middle {A} (l1 : list A) x y l2 :
  <[length l1 := x]> (l1 ++ y :: l2) = l1 ++ x :: l2.
Proof. rewrite insert_app_r_alt, Nat.sub_diag by lia. done. Qed.

(** Allocation does not disturb what older handles read. *)
Lemma getv_app_l h l t idx :
  sid t < length h → getv (h ++ l) t idx = getv h t idx.
Proof. intros Hs. unfold getv. by rewrite storage_app_l. Qed.

Lemma getv_fresh h n sz dev (f : list nat → F) idx :
  storage h n = f <$> indices sz → idx ∈ indices sz →
  getv h (fresh n sz dev) idx = f idx.
Proof.
  intros Hst Hin. unfold getv, addr. simpl. rewrite Hst.
  by apply nth_tabulate.
Qed.

Lemma size_run t d n h : sizes t !! d = Some n → size t d h = (Ok n, h).
Proof. unfold size. by intros ->. Qed.

Lemma unsqueeze_run t d h :
  d ≤ dim t →
  unsqueeze t d h =
    (Ok {| sid := sid t; base := base t; sizes := insert_at d 1 (sizes t);
           strides := insert_at d (match sizes t !! d, strides t !! d with
                                   | Some n, Some s => n * s
                                   | _, _ => 1
                                   end) (strides t);
           is_cuda := is_cuda t |}, h).
Proof. intros Hd. unfold unsqueeze. by rewrite decide_True. Qed.

Lemma kept_same n st : kept n n st = st.
Proof. unfold kept. by rewrite decide_True. Qed.

Lemma kept_one n st i : i < n → i * kept 1 n st = 0.
Proof. intros Hi. unfold kept. case_decide; [|lia]. subst. by destruct i; [|lia]. Qed.

Lemma expand_run3 t a b c sa sb sc ta tb tc h :
  sizes t = [sa; sb; sc] → strides t = [ta; tb; tc] →
  (sa = a ∨ sa = 1) → (sb = b ∨ sb = 1) → (sc = c ∨ sc = 1) →
  expand t [a; b; c] h =
    (Ok {| sid := sid t; base := base t; sizes := [a; b; c];
           strides := [kept sa a ta; kept sb b tb; kept sc c tc];
           is_cuda := is_cuda t |}, h).
Proof.
  intros Hsz Hst Ha Hb Hc. unfold expand, kept. rewrite Hsz, Hst. simpl.
  destruct (decide (sc = c)); [|rewrite decide_True by tauto];
  (destruct (decide (sb = b)); [|rewrite decide_True by tauto]);
  (destruct (decide (sa = a)); [|rewrite decide_True by tauto]); done.
Qed.

Lemma expand_run4 t a b c d sa sb sc sd ta tb tc td h :
  sizes t = [sa; sb; sc; sd] → strides t = [ta; tb; tc; td] →
  (sa = a ∨ sa = 1) → (sb = b ∨ sb = 1) → (sc = c ∨ sc = 1) → (sd = d ∨ sd = 1) →
  expand t [a; b; c; d] h =
    (Ok {| sid := sid t; base := base t; sizes := [a; b; c; d];
           strides := [kept sa a ta; kept sb b tb; kept sc c tc; kept sd d td];
           is_cuda := is_cuda t |}, h).
Proof.
  intros Hsz Hst Ha Hb Hc Hd. unfold expand, kept. rewrite Hsz, Hst. simpl.
  destruct (decide (sd = d)); [|rewrite decide_True by tauto];
  (destruct (decide (sc = c)); [|rewrite decide_True by tauto]);
  (destruct (decide (sb = b)); [|rewrite decide_True by tauto]);
  (destruct (decide (sa = a)); [|rewrite decide_True by tauto]); done.
Qed.

Lemma infer_size_rev_bcast (a b : list nat) :
  Forall2 (λ x y, y = x ∨ y = 1) a b → infer_size_rev a b = Some a.
Proof.
  induction 1 as [|x y a b Hxy _ IH]; simpl; [done|].
  rewrite decide_True by (destruct Hxy as [->| ->]; auto). rewrite IH. simpl.
  case_decide; [|done]. destruct Hxy; by subst.
Qed.

Lemma infer_size_run o (a b : list nat) h :
  Forall2 (λ x y, y = x ∨ y = 1) a b → infer_size o a b h = (Ok a, h).
Proof.
  intros Hab. unfold infer_size.
  rewrite infer_size_rev_bcast.
  - by rewrite rev_involutive.
  - rewrite !rev_alt. by apply Forall2_reverse.
Qed.

Lemma has_internal_overlap_fresh n sz dev :
  has_internal_overlap (fresh n sz dev) = false.
Proof.
  unfold has_internal_overlap. simpl.
  pose proof (contiguous_strides_nonzero sz) as Hnz.
  revert Hnz. generalize (contiguous_strides sz). intros st.
  revert st. induction sz as [|n' sz IH]; intros [|s st] Hnz; simpl; try done.
  inversion Hnz; subst. rewrite (bool_decide_eq_false_2 (s = 0)) by done.
  rewrite andb_false_r. simpl. by apply IH.
Qed.

Lemma write_through_fresh h n sz dev (f : list nat → F) g :
  storage h n = f <$> indices sz →
  write_through (fresh n sz dev) g h
  = (Ok (), <[n := (λ idx, g idx (f idx)) <$> indices sz]> h).
Proof.
  intros Hst. unfold write_through, addr. simpl. rewrite Hst.
  by rewrite foldl_insert_tabulate.
Qed.

Lemma unary__fresh o op h n sz dev (f : list nat → F) :
  storage h n = f <$> indices sz →
  unary_ o op (fresh n sz dev) h
  = (Ok (fresh n sz dev), <[n := (λ idx, op (f idx)) <$> indices sz]> h).
Proof.
  intros Hst. unfold unary_. rewrite has_internal_overlap_fresh.
  by rewrite (bind_ok _ _ _ _ _ (write_through_fresh _ _ _ _ _ _ Hst)).
Qed.

Lemma binary__fresh o op h n sz dev (f : list nat → F) other other' :
  storage h n = f <$> indices sz →
  is_cuda other = dev →
  Forall2 (λ x y, y = x ∨ y = 1) sz (sizes other) →
  expand other sz h = (Ok other', h) →
  binary_ o op (fresh n sz dev) other h
  = (Ok (fresh n sz dev),
     <[n := (λ idx, op (f idx) (getv h other' idx)) <$> indices sz]> h).
Proof.
  intros Hst Hdev Hsz Hex. unfold binary_, same_device. simpl.
  rewrite decide_True by done.
  rewrite (bind_ok _ _ _ _ _ (eq_refl : ret () h = (Ok (), h))).
  rewrite (bind_ok _ _ _ _ _ (infer_size_run _ _ _ _ Hsz)).
  rewrite decide_True by done. rewrite has_internal_overlap_fresh.
  rewrite (bind_ok _ _ _ _ _ Hex).
  rewrite (bind_ok _ _ _ _ _ (eq_refl : get_heap h = (Ok h, h))).
  by rewrite (bind_ok _ _ _ _ _ (write_through_fresh _ _ _ _ _ _ Hst)).
Qed.

Lemma binary_run o op h a b sz a' b' :
  is_cuda a = is_cuda b →
  sizes a = sz →
  Forall2 (λ x y, y = x ∨ y = 1) sz (sizes b) →
  expand a sz h = (Ok a', h) →
  expand b sz h = (Ok b', h) →
  binary o op a b h
  = (Ok (fresh (length h) sz (is_cuda a)),
     h ++ [(λ idx, op (getv h a' idx) (getv h b' idx)) <$> indices sz]).
Proof.
  intros Hdev Hsa Hsz Ha Hb. unfold binary, same_device.
  rewrite decide_True by done.
  rewrite (bind_ok _ _ _ _ _ (eq_refl : ret () h = (Ok (), h))).
  rewrite Hsa.
  rewrite (bind_ok _ _ _ _ _ (infer_size_run _ _ _ _ Hsz)).
  rewrite (bind_ok _ _ _ _ _ Ha), (bind_ok _ _ _ _ _ Hb).
  by rewrite (bind_ok _ _ _ _ _ (eq_refl : get_heap h = (Ok h, h))).
Qed.

Lemma sum_run t dims sz mask h :
  sizes t = sz →
  (λ p, bool_decide (p ∈ dims)) <$> seq 0 (length sz) = mask →
  Forall (λ d, d < length sz) dims → NoDup dims →
  sum t dims h =
    (Ok (fresh (length h) (pick false mask sz) (is_cuda t)),
     h ++ [(λ o, reduce ((λ r, getv h t (weave mask r o)) <$> indices (pick true mask sz)))
           <$> indices (pick false mask sz)]).
Proof.
  intros <- <- Hd Hnd. unfold sum, dim. by rewrite decide_True.
Qed.

Lemma view_run_1d t K s :
  sizes t = [K] → strides t = [s] →
  ∃ q0 q1 q2,
    (∀ h, view t [1; 1; K] h =
      (Ok {| sid := sid t; base := base t; sizes := [1; 1; K];
             strides := [q0; q1; q2]; is_cuda := is_cuda t |}, h))
    ∧ (K ≠ 0 → q2 = s).
Proof.
  intros Hsz Hst. unfold view, compute_stride. rewrite Hsz, Hst.
  rewrite decide_True by (simpl; lia).
  destruct (decide (numel [K] = 0)) as [E|E]; simpl in E.
  - assert (K = 0) as -> by lia. rewrite decide_False by done.
    simpl. eexists _, _, _. split; [done|]. done.
  - simpl.
    assert (bool_decide (1 < K + 0) || bool_decide (K = 1) = true) as ->.
    { destruct (decide (K = 1)) as [->|]; [done|].
      rewrite bool_decide_eq_true_2 by lia. done. }
    rewrite !orb_true_r.
    rewrite decide_True by lia.
    eexists _, _, _. split; [done|]. intros _. lia.
Qed.
End operators.

(** ** Tabulated storages, index by index *)

Arguments indices : simpl never.
Arguments fpow : simpl never.
Arguments contiguous_strides : simpl never.

Section pointwise.
Context {A : Type}.
Implicit Types f g : list nat → A.

Lemma fmap_indices_ext sz f g :
  (∀ idx, Forall2 lt idx sz → f idx = g idx) → f <$> indices sz = g <$> indices sz.
Proof.
  intros Hfg. apply list_fmap_ext. intros j idx Hj. apply Hfg.
  apply elem_of_indices, list_elem_of_lookup. by exists j.
Qed.

Lemma fmap_indices_ext1 a f g :
  (∀ i, i < a → f [i] = g [i]) → f <$> indices [a] = g <$> indices [a].
Proof.
  intros Hfg. apply fmap_indices_ext. intros idx Hidx.
  inversion Hidx as [|? ? ? ? ? Hr]; subst. inversion Hr; subst. by apply Hfg.
Qed.

Lemma fmap_indices_ext2 a b f g :
  (∀ i j, i < a → j < b → f [i; j] = g [i; j]) →
  f <$> indices [a; b] = g <$> indices [a; b].
Proof.
  intros Hfg. apply fmap_indices_ext. intros idx Hidx.
  inversion Hidx as [|? ? ? ? ? Hr]; subst.
  inversion Hr as [|? ? ? ? ? Hr']; subst. inversion Hr'; subst. by apply Hfg.
Qed.

Lemma fmap_indices_ext3 a b c f g :
  (∀ i j k, i < a → j < b → k < c → f [i; j; k] = g [i; j; k]) →
  f <$> indices [a; b; c] = g <$> indices [a; b; c].
Proof.
  intros Hfg. apply fmap_indices_ext. intros idx Hidx.
  inversion Hidx as [|? ? ? ? ? Hr]; subst.
  inversion Hr as [|? ? ? ? ? Hr']; subst.
  inversion Hr' as [|? ? ? ? ? Hr'']; subst. inversion Hr''; subst. by apply Hfg.
Qed.

Lemma fmap_indices_ext4 a b c d f g :
  (∀ i j k l, i < a → j < b → k < c → l < d → f [i; j; k; l] = g [i; j; k; l]) →
  f <$> indices [a; b; c; d] = g <$> indices [a; b; c; d].
Proof.
  intros Hfg. apply fmap_indices_ext. intros idx Hidx.
  inversion Hidx as [|? ? ? ? ? Hr]; subst.
  inversion Hr as [|? ? ? ? ? Hr']; subst.
  inversion Hr' as [|? ? ? ? ? Hr'']; subst.
  inversion Hr'' as [|? ? ? ? ? Hr''']; subst. inversion Hr'''; subst. by apply Hfg.
Qed.

Lemma fmap_indices_1 a f : f <$> indices [a] = (λ i, f [i]) <$> seq 0 a.
Proof.
  unfold indices. induction (seq 0 a) as [|i l IH]; [done|]. simpl. by f_equal.
Qed.

Lemma fmap_seq_ext (f g : nat → A) n :
  (∀ i, i < n → f i = g i) → f <$> seq 0 n = g <$> seq 0 n.
Proof.
  intros Hfg. apply list_fmap_ext. intros j i Hj.
  apply lookup_seq in Hj. apply Hfg. lia.
Qed.
End pointwise.

(** ** [ScaledL2.forward], run *)

Section forward.
Context {F : Type} `{Scalar F} {Red : Reduction F}.
Import torch.
Implicit Types (h : heap F).

Lemma getv_X2 h n bs x0 x1 x2 dv sz B N K D e b i k d :
  k < K →
  getv h {| sid := n; base := bs; sizes := sz;
            strides := [kept B B (kept B B x0); kept N N (kept N N x1);
                        kept K K (kept 1 K e); kept D D (kept D D x2)];
            is_cuda := dv |} [b; i; k; d]
  = getv h {| sid := n; base := bs; sizes := [B; N; D]; strides := [x0; x1; x2];
              is_cuda := dv |} [b; i; d].
Proof.
  intros Hk. unfold getv, addr. simpl. rewrite !kept_same, kept_one by done.
  f_equal; lia.
Qed.

Lemma getv_C2 h n bs c0 c1 dv sz B N K D e0 e1 b i k d :
  b < B → i < N →
  getv h {| sid := n; base := bs; sizes := sz;
            strides := [kept 1 B e0; kept 1 N e1; kept K K c0; kept D D c1];
            is_cuda := dv |} [b; i; k; d]
  = getv h {| sid := n; base := bs; sizes := [K; D]; strides := [c0; c1];
              is_cuda := dv |} [k; d].
Proof.
  intros Hb Hi. unfold getv, addr. simpl. rewrite !kept_same, !kept_one by done.
  f_equal.
Qed.

Lemma getv_S1 h n bs s0 dv sz B N K q0 q1 q2 b i k :
  b < B → i < N → k < K → (K ≠ 0 → q2 = s0) →
  getv h {| sid := n; base := bs; sizes := sz;
            strides := [kept 1 B q0; kept 1 N q1; kept K K q2];
            is_cuda := dv |} [b; i; k]
  = getv h {| sid := n; base := bs; sizes := [K]; strides := [s0];
              is_cuda := dv |} [k].
Proof.
  intros Hb Hi Hk Hq. unfold getv, addr. simpl.
  rewrite !kept_same, !kept_one by done. rewrite Hq by lia. f_equal; lia.
Qed.

Import ScaledL2.
Lemma forward_run c X C S h B N K D :
  sizes X = [B; N; D] → length (strides X) = 3 →
  sizes C = [K; D] → length (strides C) = 2 →
  sizes S = [K] → length (strides S) = 1 →
  is_cuda C = is_cuda X → is_cuda S = is_cuda X →
  sid X < length h → sid C < length h → sid S < length h →
  forward c X C S h =
    (Ok (save_for_backward c [X; C; S; fresh (length h + 1) [B; N; K] (is_cuda X)],
         fresh (length h + 1) [B; N; K] (is_cuda X)),
     h ++ [sq_data h X C B N K D; SL_data h X C S B N K D]).
Proof.
  intros HX HXs HC HCs HS HSs HdC HdS HiX HiC HiS.
  destruct X as [nx bx szx stx dx], C as [nc bc szc stc dc], S as [ns bs szs sts ds].
  simpl in *. subst.
  destruct stx as [|x0 [|x1 [|x2 [|]]]]; try discriminate.
  destruct stc as [|c0 [|c1 [|]]]; try discriminate.
  destruct sts as [|s0 [|]]; try discriminate.
  destruct (view_run_1d (F:=F) (Tensor ns bs [K] [s0] dx) K s0 eq_refl eq_refl)
    as (q0 & q1 & q2 & Hview & Hq).
  unfold forward.
  erewrite bind_ok; [|by apply unsqueeze_run; unfold dim; simpl; lia].
  do 4 (erewrite bind_ok; [|by apply size_run]).
  cbn [sid base sizes strides is_cuda insert_at take drop app lookup list_lookup].
  erewrite bind_ok; [|by eapply expand_run4; eauto].
  erewrite bind_ok; [|by apply unsqueeze_run; unfold dim; simpl; lia].
  erewrite bind_ok; [|by apply unsqueeze_run; unfold dim; simpl; lia].
  cbn [sid base sizes strides is_cuda insert_at take drop app lookup list_lookup].
  unfold sub.
  erewrite bind_ok; cycle 1.
  { eapply binary_run; [done|done| |by eapply expand_run4; eauto|by eapply expand_run4; eauto].
    simpl. repeat (constructor; try lia). }
  cbn [sid base sizes strides is_cuda].
  unfold pow_.
  erewrite bind_ok; cycle 1.
  { apply unary__fresh. by rewrite storage_middle. }
  rewrite insert_middle.
  erewrite bind_ok; cycle 1.
  { eapply (sum_run _ [3] [B; N; K; D] [false; false; false; true]); try done.
    repeat constructor; simpl; lia. apply NoDup_singleton. }
  rewrite length_app, <- app_assoc.
  cbn [sid base sizes strides is_cuda length app pick Bool.eqb fresh].
  erewrite bind_ok; [|by apply size_run].
  erewrite bind_ok; [|by apply Hview].
  unfold mul_.
  erewrite bind_ok; cycle 1.
  { eapply (binary__fresh _ _ _ (length h + 1)).
    - rewrite (storage_app_r h _ 1). cbn [nth]. reflexivity.
    - done.
    - simpl. repeat (constructor; try lia).
    - by eapply expand_run3; eauto. }
  rewrite (insert_app_r h _ 1). cbn [insert list_insert].
  cbn [sid base sizes strides is_cuda length app].
  unfold ret. f_equal. f_equal. f_equal; [|f_equal].
  - apply fmap_indices_ext4. intros b i k d Hb Hi Hk Hd.
    by rewrite getv_X2, getv_C2.
  - apply fmap_indices_ext3. intros b i k Hb Hi Hk. f_equal.
    + unfold sqdist. f_equal. rewrite fmap_indices_1. cbn [weave].
      apply fmap_seq_ext. intros d Hd.
      rewrite (getv_fresh _ _ _ _ _ _ (storage_middle _ _ _)).
      * by rewrite getv_X2, getv_C2.
      * apply elem_of_indices. repeat (constructor; try lia).
    + rewrite getv_app_l by done. by apply getv_S1.
Qed.
End forward.

(** ** [ScaledL2.backward], run *)

Section backward.
Context {F : Type} `{Scalar F} {Red : Reduction F}.
Import torch.
Implicit Types (h : heap F).

Lemma rmul_run z t h :
  rmul z t h =
    (Ok (fresh (length h) (sizes t) (is_cuda t)),
     h ++ [(λ idx, fmul (getv h t idx) (of_int z)) <$> indices (sizes t)]).
Proof. done. Qed.

Lemma getv_unsq3 h n dv sz B N K D e0 e1 e2 e b i k d :
  contiguous_strides [B; N; K] = [e0; e1; e2] → d < D →
  getv h {| sid := n; base := 0; sizes := sz;
            strides := [kept B B e0; kept N N e1; kept K K e2; kept 1 D e];
            is_cuda := dv |} [b; i; k; d]
  = getv h (fresh n [B; N; K] dv) [b; i; k].
Proof.
  intros He Hd. unfold getv, addr, fresh. rewrite He. simpl.
  rewrite !kept_same, !kept_one by done. f_equal; lia.
Qed.

Lemma getv_same3 h n bs x0 x1 x2 dv sz B N K b i k :
  getv h {| sid := n; base := bs; sizes := sz;
            strides := [kept B B x0; kept N N x1; kept K K x2];
            is_cuda := dv |} [b; i; k]
  = getv h {| sid := n; base := bs; sizes := [B; N; K]; strides := [x0; x1; x2];
              is_cuda := dv |} [b; i; k].
Proof. unfold getv, addr. simpl. by rewrite !kept_same. Qed.

Lemma getv_fresh_app h l j sz dev (f : list nat → F) idx :
  nth j l [] = f <$> indices sz → idx ∈ indices sz →
  getv (h ++ l) (fresh (length h + j) sz dev) idx = f idx.
Proof. intros Hl. apply getv_fresh. by rewrite storage_app_r. Qed.

Lemma getv_fresh_app0 h l sz dev (f : list nat → F) idx :
  nth 0 l [] = f <$> indices sz → idx ∈ indices sz →
  getv (h ++ l) (fresh (length h) sz dev) idx = f idx.
Proof.
  intros Hl. apply getv_fresh. rewrite <- (Nat.add_0_r (length h)).
  by rewrite storage_app_r.
Qed.

Import ScaledL2.
Lemma backward_run c X C S SL GSL h B N K D :
  saved_variables c = [X; C; S; SL] →
  sizes X = [B; N; D] → length (strides X) = 3 →
  sizes C = [K; D] → length (strides C) = 2 →
  sizes S = [K] → length (strides S) = 1 →
  sizes SL = [B; N; K] → length (strides SL) = 3 →
  sizes GSL = [B; N; K] → length (strides GSL) = 3 →
  is_cuda C = is_cuda X → is_cuda S = is_cuda X →
  is_cuda SL = is_cuda X → is_cuda GSL = is_cuda X →
  sid X < length h → sid C < length h → sid S < length h →
  sid SL < length h → sid GSL < length h →
  backward c GSL h =
    (Ok (fresh (length h + 2) [B; N; D] (is_cuda X),
         fresh (length h + 3) [K; D] (is_cuda X),
         fresh (length h + 5) [K] (is_cuda X)),
     h ++ [tmp_data h X C S GSL B N K D; G_data h S GSL B N K;
           GX_data h X C S GSL B N K D; GC_data h X C S GSL B N K D;
           Q_data h S SL GSL B N K; GS_data h S SL GSL B N K]).
Proof.
  intros Hc HX HXs HC HCs HS HSs HSL HSLs HG HGs HdC HdS HdSL HdG HiX HiC HiS HiSL HiG.
  destruct X as [nx bx szx stx dx], C as [nc bc szc stc dc], S as [ns bs szs sts ds],
    SL as [nl bl szl stl dl], GSL as [ng bg szg stg dg].
  simpl in *. subst.
  destruct stx as [|x0 [|x1 [|x2 [|]]]]; try discriminate.
  destruct stc as [|c0 [|c1 [|]]]; try discriminate.
  destruct sts as [|s0 [|]]; try discriminate.
  destruct stl as [|l0 [|l1 [|l2 [|]]]]; try discriminate.
  destruct stg as [|g0 [|g1 [|g2 [|]]]]; try discriminate.
  destruct (view_run_1d (F:=F) (Tensor ns bs [K] [s0] dx) K s0 eq_refl eq_refl)
    as (q0 & q1 & q2 & Hview & Hq).
  unfold backward. rewrite Hc.
  erewrite bind_ok; [|by apply unsqueeze_run; unfold dim; simpl; lia].
  do 4 (erewrite bind_ok; [|by apply size_run]).
  cbn [sid base sizes strides is_cuda insert_at take drop app lookup list_lookup].
  erewrite bind_ok; [|by eapply expand_run4; eauto].
  erewrite bind_ok; [|by apply unsqueeze_run; unfold dim; simpl; lia].
  erewrite bind_ok; [|by apply unsqueeze_run; unfold dim; simpl; lia].
  cbn [sid base sizes strides is_cuda insert_at take drop app lookup list_lookup].
  unfold sub.
  erewrite bind_ok; cycle 1.
  { eapply binary_run; [done|done| |by eapply expand_run4; eauto|by eapply expand_run4; eauto].
    simpl. repeat (constructor; try lia). }
  cbn [sid base sizes strides is_cuda].
  (* G = 2 * GSL *)
  erewrite bind_ok; [|by apply rmul_run].
  rewrite length_app, <- app_assoc.
  cbn [sid base sizes strides is_cuda length app].
  erewrite bind_ok; [|by apply size_run].
  erewrite bind_ok; [|by apply Hview].
  unfold mul_ at 1.
  erewrite bind_ok; cycle 1.
  { eapply (binary__fresh _ _ _ (length h + 1)).
    - rewrite (storage_app_r h _ 1). cbn [nth]. reflexivity.
    - done.
    - simpl. repeat (constructor; try lia).
    - by eapply expand_run3; eauto. }
  rewrite (insert_app_r h _ 1). cbn [insert list_insert].
  cbn [sid base sizes strides is_cuda length app].
  erewrite bind_ok; [|by apply unsqueeze_run; unfold dim; simpl; lia].
  cbn [fresh sid base sizes strides is_cuda insert_at lookup list_lookup].
  destruct (contiguous_strides [B; N; K]) as [|e0 [|e1 [|e2 [|]]]] eqn:He;
    try discriminate.
  cbn [take drop app].
  (* tmp = R.mul_(G) *)
  unfold mul_ at 1.
  erewrite bind_ok; cycle 1.
  { eapply (binary__fresh _ _ _ (length h)).
    - by rewrite storage_middle.
    - done.
    - simpl. repeat (constructor; try lia).
    - by eapply expand_run4; eauto. }
  rewrite insert_middle.
  (* GX, GC *)
  erewrite bind_ok; cycle 1.
  { eapply (sum_run _ [2] [B; N; K; D] [false; false; true; false]); try done.
    repeat constructor; simpl; lia. apply NoDup_singleton. }
  rewrite length_app, <- app_assoc.
  cbn [sid base sizes strides is_cuda length app pick Bool.eqb fresh].
  erewrite bind_ok; cycle 1.
  { eapply (sum_run _ [0; 1] [B; N; K; D] [true; true; false; false]); try done.
    repeat constructor; simpl; lia.
    apply NoDup_cons; split; [|apply NoDup_singleton].
    rewrite list_elem_of_singleton. done. }
  rewrite length_app, <- app_assoc.
  cbn [sid base sizes strides is_cuda length app pick Bool.eqb fresh].
  unfold mul_ at 1.
  erewrite bind_ok; cycle 1.
  { eapply (unary__fresh _ _ _ (length h + 3)).
    rewrite (storage_app_r h _ 3). cbn [nth]. reflexivity. }
  rewrite (insert_app_r h _ 3). cbn [insert list_insert].
  (* GS *)
  erewrite bind_ok; [|by apply size_run].
  erewrite bind_ok; [|by apply Hview].
  unfold div.
  erewrite bind_ok; cycle 1.
  { eapply binary_run; [done|done| |by eapply expand_run3; eauto|by eapply expand_run3; eauto].
    simpl. repeat (constructor; try lia). }
  rewrite length_app, <- app_assoc.
  cbn [sid base sizes strides is_cuda length app].
  unfold mul_ at 1.
  erewrite bind_ok; cycle 1.
  { eapply (binary__fresh _ _ _ (length h + 4)).
    - rewrite (storage_app_r h _ 4). cbn [nth]. reflexivity.
    - done.
    - simpl. repeat (constructor; try lia).
    - by eapply expand_run3; eauto. }
  rewrite (insert_app_r h _ 4). cbn [insert list_insert].
  erewrite bind_ok; cycle 1.
  { eapply (sum_run _ [0; 1] [B; N; K] [true; true; false]); try done.
    repeat constructor; simpl; lia.
    apply NoDup_cons; split; [|apply NoDup_singleton].
    rewrite list_elem_of_singleton. done. }
  rewrite length_app, <- app_assoc.
  cbn [sid base sizes strides is_cuda length app pick Bool.eqb fresh].
  unfold ret. f_equal. f_equal.
  match goal with |- [_; ?r; _; _; _; _] = _ =>
    assert (r = G_data h (Tensor ns bs [K] [s0] dx) (Tensor ng bg [B; N; K] [g0; g1; g2] dx) B N K) as ->
  end.
  { apply fmap_indices_ext3. intros b i k Hb Hi Hk. unfold G_val.
    rewrite !getv_app_l by done. f_equal. by apply getv_S1. }
  match goal with |- [?r; _; _; _; _; _] = _ =>
    assert (r = tmp_data h (Tensor nx bx [B; N; D] [x0; x1; x2] dx)
                  (Tensor nc bc [K; D] [c0; c1] dx)
                  (Tensor ns bs [K] [s0] dx) (Tensor ng bg [B; N; K] [g0; g1; g2] dx) B N K D) as ->
  end.
  { apply fmap_indices_ext4. intros b i k d Hb Hi Hk Hd. unfold tmp_val.
    rewrite getv_X2, getv_C2 by done. f_equal.
    rewrite (getv_unsq3 _ _ _ _ B N K D e0 e1 e2) by done.
    erewrite getv_fresh_app; cycle 1.
    - unfold G_data. reflexivity.
    - apply elem_of_indices. repeat (constructor; try lia).
    - done. }
  match goal with |- [_; _; ?r; _; _; _] = _ =>
    assert (r = GX_data h (Tensor nx bx [B; N; D] [x0; x1; x2] dx)
                  (Tensor nc bc [K; D] [c0; c1] dx)
                  (Tensor ns bs [K] [s0] dx) (Tensor ng bg [B; N; K] [g0; g1; g2] dx) B N K D) as ->
  end.
  { apply fmap_indices_ext3. intros b i d Hb Hi Hd. f_equal.
    rewrite fmap_indices_1. cbn [weave].
    apply fmap_seq_ext. intros k Hk.
    erewrite getv_fresh_app0; cycle 1.
    - unfold tmp_data. reflexivity.
    - apply elem_of_indices. repeat (constructor; try lia).
    - done. }
  match goal with |- [_; _; _; ?r; _; _] = _ =>
    assert (r = GC_data h (Tensor nx bx [B; N; D] [x0; x1; x2] dx)
                  (Tensor nc bc [K; D] [c0; c1] dx)
                  (Tensor ns bs [K] [s0] dx) (Tensor ng bg [B; N; K] [g0; g1; g2] dx) B N K D) as ->
  end.
  { apply fmap_indices_ext2. intros k d Hk Hd. f_equal. f_equal.
    apply fmap_indices_ext2. intros b i Hb Hi. cbn [weave].
    erewrite getv_fresh_app0; cycle 1.
    - unfold tmp_data. reflexivity.
    - apply elem_of_indices. repeat (constructor; try lia).
    - done. }
  match goal with |- [_; _; _; _; ?r; _] = _ =>
    assert (r = Q_data h (Tensor ns bs [K] [s0] dx) (Tensor nl bl [B; N; K] [l0; l1; l2] dx)
                  (Tensor ng bg [B; N; K] [g0; g1; g2] dx) B N K) as ->
  end.
  { apply fmap_indices_ext3. intros b i k Hb Hi Hk. unfold Q_val.
    rewrite !getv_app_l by done. rewrite !getv_same3.
    f_equal. f_equal. by apply getv_S1. }
  match goal with |- [_; _; _; _; _; ?r] = _ =>
    assert (r = GS_data h (Tensor ns bs [K] [s0] dx) (Tensor nl bl [B; N; K] [l0; l1; l2] dx)
                  (Tensor ng bg [B; N; K] [g0; g1; g2] dx) B N K) as ->
  end.
  { apply fmap_indices_ext1. intros k Hk. f_equal.
    apply fmap_indices_ext2. intros b i Hb Hi. cbn [weave].
    erewrite (getv_fresh_app _ _ 4); cycle 1.
    - unfold Q_data. reflexivity.
    - apply elem_of_indices. repeat (constructor; try lia).
    - done. }
  done.
Qed.
End backward.

(** ** Inputs *)

Section inputs.
Context {F : Type} `{Scalar F} {Red : Reduction F}.
Import torch.
Implicit Types (h : heap F) (t : tensor).

Lemma input_sid h t sz : input h t sz → sid t < length h.
Proof.
  intros [Hv _]. unfold valid, valid_b in Hv.
  apply andb_prop in Hv as [Hv _]. apply andb_prop in Hv as [Hv _].
  by apply Nat.ltb_lt.
Qed.

Lemma input_strides h t sz : input h t sz → length (strides t) = length sz.
Proof.
  intros [Hv <-]. unfold valid, valid_b in Hv.
  apply andb_prop in Hv as [Hv _]. apply andb_prop in Hv as [_ Hv].
  by apply Nat.eqb_eq.
Qed.

Lemma input_sizes h t sz : input h t sz → sizes t = sz.
Proof. by intros [_ ?]. Qed.

Lemma one_device_3 t1 t2 t3 :
  one_device [t1; t2; t3] → is_cuda t2 = is_cuda t1 ∧ is_cuda t3 = is_cuda t1.
Proof.
  unfold one_device. simpl. rewrite !andb_true_iff.
  intros (H1 & H2 & _). split; by apply Bool.eqb_prop.
Qed.

Lemma one_device_5 t1 t2 t3 t4 t5 :
  one_device [t1; t2; t3; t4; t5] →
  is_cuda t2 = is_cuda t1 ∧ is_cuda t3 = is_cuda t1 ∧
  is_cuda t4 = is_cuda t1 ∧ is_cuda t5 = is_cuda t1.
Proof.
  unfold one_device. simpl. rewrite !andb_true_iff.
  intros (H1 & H2 & H3 & H4 & _). repeat split; by apply Bool.eqb_prop.
Qed.
End inputs.

(** ** The reduction

    Adding up from left to right is one of the reductions; sums of one or
    two elements do not depend on the reduction. *)

Section reduction.
Context {F : Type} `{Scalar F}.

Lemma foldl_sums_to (l pre : list F) (a : F) :
  sums_to pre a → sums_to (pre ++ l) (foldl fadd a l).
Proof.
  revert pre a. induction l as [|x l IH]; intros pre a Ha; simpl.
  - by rewrite app_nil_r.
  - rewrite (cons_middle x pre l), app_assoc. apply IH.
    apply sums_app; [done|]. apply sums_one.
Qed.

Lemma fsum_sums_to (l : list F) : sums_to l (fsum l).
Proof. apply (foldl_sums_to l [] fzero). apply sums_nil. Qed.

(** Adding up from left to right, starting from zero: one of the
    reductions. *)
Definition left_to_right : Reduction F :=
  {| reduce := fsum; reduce_nil := eq_refl; reduce_sums := fsum_sums_to |}.

(** The sums of at most two stable values. *)
Lemma sums_to_small (a b : F) :
  fadd fzero fzero = fzero → stable a → stable b → stable (fadd a b) →
  fadd b a = fadd a b →
  ∀ l v, sums_to l v →
    (l = [] → v = fzero) ∧ (l = [a] → v = a) ∧ (l = [b] → v = b)
    ∧ (l ≡ₚ [a; b] → v = fadd a b).
Proof.
  intros H0 [Ha1 Ha2] [Hb1 Hb2] [Hab1 Hab2] Hcomm l v Hs.
  induction Hs as [|x|l1 l2 v1 v2 _ (I1 & I1a & I1b & I1ab) _ (I2 & I2a & I2b & I2ab)
                  |l l' v Hp _ (I & Ia & Ib & Iab)].
  - repeat split; try done. intros Hp. by apply Permutation_nil_cons in Hp.
  - repeat split; try done; try congruence.
    intros Hp. apply Permutation_length in Hp. done.
  - repeat split.
    + intros E. apply app_eq_nil in E as [-> ->]. by rewrite I1, I2.
    + intros E. apply app_eq_unit in E as [[-> ->]|[-> ->]].
      * by rewrite I1, I2a.
      * by rewrite I1a, I2.
    + intros E. apply app_eq_unit in E as [[-> ->]|[-> ->]].
      * by rewrite I1, I2b.
      * by rewrite I1b, I2.
    + intros Hp. pose proof (Permutation_length Hp) as Hlen.
      rewrite length_app in Hlen. simpl in Hlen.
      destruct l1 as [|x1 [|y1 [|]]], l2 as [|x2 [|y2 [|]]]; simpl in Hlen; try lia.
      * rewrite I1, I2ab by done. done.
      * simpl in Hp. apply Permutation_length_2 in Hp as [[-> ->]|[-> ->]].
        -- by rewrite I1a, I2b.
        -- by rewrite I1b, I2a.
      * rewrite app_nil_r in Hp. rewrite I1ab, I2 by done. done.
  - repeat split.
    + intros ->. apply I. by apply Permutation_nil_r.
    + intros ->. apply Ia. by apply Permutation_singleton_r.
    + intros ->. apply Ib. by apply Permutation_singleton_r.
    + intros Hp'. apply Iab. by rewrite Hp.
Qed.

(** The sums of one stable value. *)
Lemma sums_to_one (a : F) :
  fadd fzero fzero = fzero → stable a →
  ∀ l v, sums_to l v → (l = [] → v = fzero) ∧ (l = [a] → v = a).
Proof.
  intros H0 [Ha1 Ha2] l v Hs.
  induction Hs as [|x|l1 l2 v1 v2 _ [I1 I1a] _ [I2 I2a]|l l' v Hp _ [I Ia]].
  - done.
  - split; [done|congruence].
  - split.
    + intros E. apply app_eq_nil in E as [-> ->]. by rewrite I1, I2.
    + intros E. apply app_eq_unit in E as [[-> ->]|[-> ->]].
      * by rewrite I1, I2a.
      * by rewrite I1a, I2.
  - split.
    + intros ->. apply I. by apply Permutation_nil_r.
    + intros ->. apply Ia. by apply Permutation_singleton_r.
Qed.

Lemma sums_to_single (a v : F) :
  fadd fzero fzero = fzero → stable a → sums_to [a] v → v = a.
Proof. intros H0 Ha Hs. by apply (sums_to_one a H0 Ha [a] v Hs). Qed.

Lemma sums_to_pair (a b v : F) :
  fadd fzero fzero = fzero → stable a → stable b → stable (fadd a b) →
  fadd b a = fadd a b → sums_to [a; b] v → v = fadd a b.
Proof.
  intros H0 Ha Hb Hab Hc Hs.
  by apply (sums_to_small a b H0 Ha Hb Hab Hc [a; b] v Hs).
Qed.

Lemma reduce_one {Red : Reduction F} (a : F) :
  fadd fzero fzero = fzero → stable a → reduce [a] = a.
Proof. intros H0 Ha. apply sums_to_single; [done|done|apply reduce_sums]. Qed.

Lemma reduce_two {Red : Reduction F} (a b : F) :
  fadd fzero fzero = fzero → stable a → stable b → stable (fadd a b) →
  fadd b a = fadd a b → reduce [a; b] = fadd a b.
Proof.
  intros H0 Ha Hb Hab Hc. apply sums_to_pair; [done..|apply reduce_sums].
Qed.
End reduction.

#[export] Instance Qc_reduction : Reduction Qc := left_to_right.

(** In a goal computed on binary64 data, with [red] the reduction:
    replaces every sum of one or two values by the value, or by the sum of
    the two, when these are stable and the sum commutes. *)
Ltac settle_sums red Hsums :=
  repeat match goal with
  | |- context [red ?l] =>
      let Hl := fresh "Hl" in
      pose proof (Hsums l) as Hl;
      first [ apply sums_to_pair in Hl;
              [ rewrite Hl; clear Hl | reflexivity | split; vm_compute; reflexivity
              | split; vm_compute; reflexivity | split; vm_compute; reflexivity
              | vm_compute; reflexivity ]
            | apply sums_to_single in Hl;
              [ rewrite Hl; clear Hl | reflexivity | split; vm_compute; reflexivity ] ]
  end.

(** In a goal stated with the closed forms on concrete data: spells the
    index lists out. *)
Ltac spell_out :=
  repeat match goal with
  | |- context [indices ?sz] =>
      let v := eval vm_compute in (indices sz) in change (indices sz) with v
  end;
  cbn [fmap list_fmap seq].

(** After [spell_out], on binary64 data: evaluates the values that a
    reduction adds up and replaces the reduction of one or two values by
    the value, or by the sum of the two. *)
Ltac settle_reductions :=
  repeat match goal with
  | |- context [reduce ?l] =>
      let l' := eval vm_compute in l in
      let Hl := fresh "Hl" in
      assert (reduce l = reduce l') as Hl by (apply f_equal; vm_compute; reflexivity);
      rewrite Hl; clear Hl;
      first [ rewrite reduce_two;
              [ | reflexivity | split; vm_compute; reflexivity
                | split; vm_compute; reflexivity | split; vm_compute; reflexivity
                | vm_compute; reflexivity ]
            | rewrite reduce_one;
              [ | reflexivity | split; vm_compute; reflexivity ] ]
  end.

(** ** The two scalar types satisfy the laws *)

Lemma SFmul_comm x y : SFmul 53 1024 x y = SFmul 53 1024 y x.
Proof.
  destruct x as [sx|sx| |sx mx ex], y as [sy|sy| |sy my ey]; simpl;
    rewrite ?(xorb_comm sx sy); try reflexivity.
  by rewrite (Pos.mul_comm mx my), (Z.add_comm ex ey).
Qed.

#[export] Instance binary64_mul_comm : MulComm binary64 := SFmul_comm.
#[export] Instance Qc_mul_comm : MulComm Qc := Qcmult_comm.

Lemma Qc_of_int_2 : Q2Qc (inject_Z 2) = Qcplus (Q2Qc (inject_Z 1)) (Q2Qc (inject_Z 1)).
Proof. by apply Qc_is_canon. Qed.

Lemma Qc_of_int_m1 : Q2Qc (inject_Z (-1)) = Qcopp (Q2Qc (inject_Z 1)).
Proof. by apply Qc_is_canon. Qed.

Lemma Qc_exact_ring :
  ring_theory (fzero (F:=Qc)) (of_int 1) fadd fmul fsub fneg eq.
Proof. exact Qcrt. Qed.

#[export] Instance Qc_exact : ExactArith Qc := {|
  exact_ring := Qc_exact_ring;
  of_int_0 := eq_refl;
  of_int_2 := Qc_of_int_2;
  of_int_m1 := Qc_of_int_m1
|}.

(** ** Sums in exact arithmetic *)

Section exact.
Context {F : Type} `{ExactArith F} {Red : Reduction F}.

Add Ring F_ring : exact_ring.

Lemma fmul_neg1 (x : F) : fmul x (of_int (-1)) = fneg x.
Proof. rewrite of_int_m1. ring. Qed.

Lemma fsum_foldl (a : F) l : foldl fadd a l = fadd a (fsum l).
Proof.
  unfold fsum. revert a. induction l as [|x l IH]; intros a; simpl.
  - ring.
  - rewrite (IH (fadd a x)), (IH (fadd fzero x)). ring.
Qed.

Lemma fsum_nil : fsum (F:=F) [] = fzero.
Proof. done. Qed.

Lemma fsum_cons (x : F) l : fsum (x :: l) = fadd x (fsum l).
Proof. unfold fsum at 1. simpl. rewrite fsum_foldl. ring. Qed.

Lemma fsum_add {A} (f g : A → F) l :
  fsum ((λ x, fadd (f x) (g x)) <$> l) = fadd (fsum (f <$> l)) (fsum (g <$> l)).
Proof.
  induction l as [|x l IH].
  - rewrite !fmap_nil, !fsum_nil. ring.
  - rewrite !fmap_cons, !fsum_cons, IH. ring.
Qed.

Lemma fsum_zero {A} (l : list A) : fsum ((λ _, fzero) <$> l) = (fzero : F).
Proof.
  induction l as [|x l IH]; [done|]. rewrite fmap_cons, fsum_cons, IH. ring.
Qed.

Lemma fsum_mul_r {A} (f : A → F) (c : F) l :
  fsum ((λ x, fmul (f x) c) <$> l) = fmul (fsum (f <$> l)) c.
Proof.
  induction l as [|x l IH].
  - rewrite !fmap_nil, !fsum_nil. ring.
  - rewrite !fmap_cons, !fsum_cons, IH. ring.
Qed.

Lemma fsum_exchange {A B} (f : A → B → F) la lb :
  fsum ((λ x, fsum ((λ y, f x y) <$> lb)) <$> la)
  = fsum ((λ y, fsum ((λ x, f x y) <$> la)) <$> lb).
Proof.
  induction la as [|x la IH].
  - rewrite fmap_nil, fsum_nil. symmetry. apply fsum_zero.
  - rewrite fmap_cons, fsum_cons, IH.
    rewrite <- fsum_add. f_equal. apply list_fmap_ext. intros _ y _.
    by rewrite fmap_cons, fsum_cons.
Qed.

Lemma fsum_app (l1 l2 : list F) : fsum (l1 ++ l2) = fadd (fsum l1) (fsum l2).
Proof.
  induction l1 as [|x l1 IH]; simpl.
  - rewrite fsum_nil. ring.
  - rewrite !fsum_cons, IH. ring.
Qed.

Lemma fsum_perm (l l' : list F) : l ≡ₚ l' → fsum l = fsum l'.
Proof.
  induction 1 as [|x l l' _ IH|x y l|l l' l'' _ IH1 _ IH2].
  - done.
  - by rewrite !fsum_cons, IH.
  - rewrite !fsum_cons. ring.
  - by rewrite IH1.
Qed.

(** In exact arithmetic every order and grouping gives the same sum. *)
Lemma sums_to_fsum (l : list F) v : sums_to l v → v = fsum l.
Proof.
  induction 1 as [|x|l1 l2 v1 v2 _ I1 _ I2|l l' v Hp _ I].
  - done.
  - rewrite fsum_cons, fsum_nil. ring.
  - by rewrite fsum_app, I1, I2.
  - by rewrite I, (fsum_perm _ _ Hp).
Qed.

Lemma reduce_fsum (l : list F) : reduce l = fsum l.
Proof. apply sums_to_fsum, reduce_sums. Qed.

Lemma reduce_over_exact n (f : nat → F) : reduce_over n f = sum_over n f.
Proof. apply reduce_fsum. Qed.

Lemma reduce_over2_exact B N (f : nat → nat → F) :
  reduce_over2 B N f = sum_over2 B N f.
Proof. apply reduce_fsum. Qed.

#[export] Instance exact_mul_comm : MulComm F.
Proof. intros x y. ring. Qed.

#[export] Instance exact_mul_neg_one : MulNegOne F.
Proof. exact fmul_neg1. Qed.
End exact.

(** ** What [ScaledL2.backward] returns *)

Section backward_values.
Context {F : Type} `{Scalar F} {Red : Reduction F}.
Import torch ScaledL2.

(** What [backward] returns, element by element. *)
Lemma backward_values c X C S SL GSL (h : heap F) B N K D :
  saved_variables c = [X; C; S; SL] →
  input h X [B; N; D] → input h C [K; D] → input h S [K] →
  input h SL [B; N; K] → input h GSL [B; N; K] →
  one_device [X; C; S; SL; GSL] →
  ∃ GX GC GS h',
    backward c GSL h = (Ok (GX, GC, GS), h') ∧
    sizes GX = [B; N; D] ∧ sizes GC = [K; D] ∧ sizes GS = [K] ∧
    (∀ b i d, b < B → i < N → d < D →
       getv h' GX [b; i; d] = reduce_over K (λ k, tmp_val h X C S GSL b i k d)) ∧
    (∀ k d, k < K → d < D →
       getv h' GC [k; d]
       = fmul (reduce_over2 B N (λ b i, tmp_val h X C S GSL b i k d)) (of_int (-1))) ∧
    (∀ k, k < K →
       getv h' GS [k] = reduce_over2 B N (λ b i, Q_val h S SL GSL b i k)).
Proof.
  intros Hc HX HC HS HSL HG Hdev.
  apply one_device_5 in Hdev as (HdC & HdS & HdSL & HdG).
  pose proof (backward_run c X C S SL GSL h B N K D Hc
    (input_sizes _ _ _ HX) (input_strides _ _ _ HX)
    (input_sizes _ _ _ HC) (input_strides _ _ _ HC)
    (input_sizes _ _ _ HS) (input_strides _ _ _ HS)
    (input_sizes _ _ _ HSL) (input_strides _ _ _ HSL)
    (input_sizes _ _ _ HG) (input_strides _ _ _ HG)
    HdC HdS HdSL HdG
    (input_sid _ _ _ HX) (input_sid _ _ _ HC) (input_sid _ _ _ HS)
    (input_sid _ _ _ HSL) (input_sid _ _ _ HG)) as Hrun.
  eexists _, _, _, _. split; [exact Hrun|]. repeat split.
  - intros b i d Hb Hi Hd.
    erewrite (getv_fresh_app _ _ 2); cycle 1.
    + unfold GX_data. reflexivity.
    + apply elem_of_indices. repeat (constructor; try lia).
    + done.
  - intros k d Hk Hd.
    erewrite (getv_fresh_app _ _ 3); cycle 1.
    + unfold GC_data. reflexivity.
    + apply elem_of_indices. repeat (constructor; try lia).
    + done.
  - intros k Hk.
    erewrite (getv_fresh_app _ _ 5); cycle 1.
    + unfold GS_data. reflexivity.
    + apply elem_of_indices. repeat (constructor; try lia).
    + done.
Qed.
End backward_values.

Section backward_values_exact.
Context {F : Type} `{ExactArith F} {Red : Reduction F}.
Import torch ScaledL2.

(** In exact arithmetic the reductions are the sums. *)
Lemma backward_values_exact c X C S SL GSL (h : heap F) B N K D :
  saved_variables c = [X; C; S; SL] →
  input h X [B; N; D] → input h C [K; D] → input h S [K] →
  input h SL [B; N; K] → input h GSL [B; N; K] →
  one_device [X; C; S; SL; GSL] →
  ∃ GX GC GS h',
    backward c GSL h = (Ok (GX, GC, GS), h') ∧
    sizes GX = [B; N; D] ∧ sizes GC = [K; D] ∧ sizes GS = [K] ∧
    (∀ b i d, b < B → i < N → d < D →
       getv h' GX [b; i; d] = sum_over K (λ k, tmp_val h X C S GSL b i k d)) ∧
    (∀ k d, k < K → d < D →
       getv h' GC [k; d]
       = fmul (sum_over2 B N (λ b i, tmp_val h X C S GSL b i k d)) (of_int (-1))) ∧
    (∀ k, k < K →
       getv h' GS [k] = sum_over2 B N (λ b i, Q_val h S SL GSL b i k)).
Proof.
  intros Hc HX HC HS HSL HG Hdev.
  destruct (backward_values c X C S SL GSL h B N K D Hc HX HC HS HSL HG Hdev)
    as (GX & GC & GS & h' & Hrun & HsX & HsC & HsS & HGX & HGC & HGS).
  exists GX, GC, GS, h'. repeat (split; [done|]). split; [|split].
  - intros b i d Hb Hi Hd. by rewrite HGX, reduce_over_exact.
  - intros k d Hk Hd. by rewrite HGC, reduce_over2_exact.
  - intros k Hk. by rewrite HGS, reduce_over2_exact.
Qed.
End backward_values_exact.

(** ** Values in, values out *)

Section determinacy.
Context {F : Type} `{Scalar F} {Red : Reduction F}.
Implicit Types (h : heap F) (t : tensor).

Lemma to_list_getv h1 h2 t1 t2 idx :
  sizes t1 = sizes t2 → to_list h1 t1 = to_list h2 t2 →
  idx ∈ indices (sizes t1) → getv h1 t1 idx = getv h2 t2 idx.
Proof.
  intros Hsz Hl Hin. apply list_elem_of_lookup in Hin as [j Hj].
  apply (f_equal (λ l, l !! j)) in Hl. unfold to_list in Hl.
  rewrite !list_lookup_fmap, <- Hsz, Hj in Hl. simpl in Hl. by injection Hl.
Qed.

Lemma to_list_fresh_app h l j sz dev (f : list nat → F) :
  nth j l [] = f <$> indices sz →
  to_list (h ++ l) (fresh (length h + j) sz dev) = f <$> indices sz.
Proof.
  intros Hl. unfold to_list. simpl. apply fmap_indices_ext. intros idx Hidx.
  apply getv_fresh_app; [done|]. by apply elem_of_indices.
Qed.

(** Same values in, same closed forms out. *)
Lemma SL_data_ext h1 h2 X1 C1 S1 X2 C2 S2 B N K D :
  (∀ b i d, b < B → i < N → d < D → getv h1 X1 [b; i; d] = getv h2 X2 [b; i; d]) →
  (∀ k d, k < K → d < D → getv h1 C1 [k; d] = getv h2 C2 [k; d]) →
  (∀ k, k < K → getv h1 S1 [k] = getv h2 S2 [k]) →
  SL_data h1 X1 C1 S1 B N K D = SL_data h2 X2 C2 S2 B N K D.
Proof.
  intros HX HC HS. apply fmap_indices_ext3. intros b i k Hb Hi Hk.
  rewrite HS by done. f_equal. unfold sqdist. f_equal.
  apply fmap_seq_ext. intros d Hd. by rewrite HX, HC.
Qed.

Section grads.
Variables (h1 h2 : heap F) (X1 C1 S1 SL1 G1 X2 C2 S2 SL2 G2 : tensor).
Variables (B N K D : nat).
Hypothesis HX : ∀ b i d, b < B → i < N → d < D →
  getv h1 X1 [b; i; d] = getv h2 X2 [b; i; d].
Hypothesis HC : ∀ k d, k < K → d < D → getv h1 C1 [k; d] = getv h2 C2 [k; d].
Hypothesis HS : ∀ k, k < K → getv h1 S1 [k] = getv h2 S2 [k].
Hypothesis HSL : ∀ b i k, b < B → i < N → k < K →
  getv h1 SL1 [b; i; k] = getv h2 SL2 [b; i; k].
Hypothesis HG : ∀ b i k, b < B → i < N → k < K →
  getv h1 G1 [b; i; k] = getv h2 G2 [b; i; k].

Lemma tmp_val_ext b i k d :
  b < B → i < N → k < K → d < D →
  tmp_val h1 X1 C1 S1 G1 b i k d = tmp_val h2 X2 C2 S2 G2 b i k d.
Proof.
  intros Hb Hi Hk Hd. unfold tmp_val, G_val. by rewrite HX, HC, HS, HG.
Qed.

Lemma Q_val_ext b i k :
  b < B → i < N → k < K →
  Q_val h1 S1 SL1 G1 b i k = Q_val h2 S2 SL2 G2 b i k.
Proof. intros Hb Hi Hk. unfold Q_val. by rewrite HSL, HS, HG. Qed.

Lemma tmp_data_ext :
  tmp_data h1 X1 C1 S1 G1 B N K D = tmp_data h2 X2 C2 S2 G2 B N K D.
Proof.
  apply fmap_indices_ext4. intros b i k d ????. by apply tmp_val_ext.
Qed.

Lemma G_data_ext : G_data h1 S1 G1 B N K = G_data h2 S2 G2 B N K.
Proof.
  apply fmap_indices_ext3. intros b i k ???. unfold G_val. by rewrite HS, HG.
Qed.

Lemma GX_data_ext :
  GX_data h1 X1 C1 S1 G1 B N K D = GX_data h2 X2 C2 S2 G2 B N K D.
Proof.
  apply fmap_indices_ext3. intros b i d ???. f_equal.
  apply fmap_seq_ext. intros k ?. by apply tmp_val_ext.
Qed.

Lemma GC_data_ext :
  GC_data h1 X1 C1 S1 G1 B N K D = GC_data h2 X2 C2 S2 G2 B N K D.
Proof.
  apply fmap_indices_ext2. intros k d ??. f_equal. f_equal.
  apply fmap_indices_ext2. intros b i ??. by apply tmp_val_ext.
Qed.

Lemma Q_data_ext : Q_data h1 S1 SL1 G1 B N K = Q_data h2 S2 SL2 G2 B N K.
Proof. apply fmap_indices_ext3. intros b i k ???. by apply Q_val_ext. Qed.

Lemma GS_data_ext : GS_data h1 S1 SL1 G1 B N K = GS_data h2 S2 SL2 G2 B N K.
Proof.
  apply fmap_indices_ext1. intros k ?. f_equal.
  apply fmap_indices_ext2. intros b i ??. by apply Q_val_ext.
Qed.
End grads.

(** Reading through a handle only looks at the storage of the handle. *)
Lemma getv_storage h1 h2 t idx :
  storage h1 (sid t) = storage h2 (sid t) → getv h1 t idx = getv h2 t idx.
Proof. unfold getv. by intros ->. Qed.
End determinacy.

Section runs.
Context {F : Type} `{Scalar F} {Red : Reduction F}.
Implicit Types (h : heap F) (t : tensor).

Lemma forward_ok c X C S h B N K D :
  input h X [B; N; D] → input h C [K; D] → input h S [K] →
  one_device [X; C; S] →
  ScaledL2.forward c X C S h =
    (Ok (save_for_backward c [X; C; S; fresh (length h + 1) [B; N; K] (is_cuda X)],
         fresh (length h + 1) [B; N; K] (is_cuda X)),
     h ++ [sq_data h X C B N K D; SL_data h X C S B N K D]).
Proof.
  intros HX HC HS Hdev. apply one_device_3 in Hdev as [HdC HdS].
  apply forward_run;
    [exact (input_sizes _ _ _ HX) | exact (input_strides _ _ _ HX)
    |exact (input_sizes _ _ _ HC) | exact (input_strides _ _ _ HC)
    |exact (input_sizes _ _ _ HS) | exact (input_strides _ _ _ HS)
    |done|done
    |exact (input_sid _ _ _ HX) | exact (input_sid _ _ _ HC)
    |exact (input_sid _ _ _ HS)].
Qed.

Lemma backward_ok c X C S SL GSL h B N K D :
  saved_variables c = [X; C; S; SL] →
  input h X [B; N; D] → input h C [K; D] → input h S [K] →
  input h SL [B; N; K] → input h GSL [B; N; K] →
  one_device [X; C; S; SL; GSL] →
  ScaledL2.backward c GSL h =
    (Ok (fresh (length h + 2) [B; N; D] (is_cuda X),
         fresh (length h + 3) [K; D] (is_cuda X),
         fresh (length h + 5) [K] (is_cuda X)),
     h ++ [tmp_data h X C S GSL B N K D; G_data h S GSL B N K;
           GX_data h X C S GSL B N K D; GC_data h X C S GSL B N K D;
           Q_data h S SL GSL B N K; GS_data h S SL GSL B N K]).
Proof.
  intros Hc HX HC HS HSL HG Hdev.
  apply one_device_5 in Hdev as (HdC & HdS & HdSL & HdG).
  apply backward_run;
    [done
    |exact (input_sizes _ _ _ HX) | exact (input_strides _ _ _ HX)
    |exact (input_sizes _ _ _ HC) | exact (input_strides _ _ _ HC)
    |exact (input_sizes _ _ _ HS) | exact (input_strides _ _ _ HS)
    |exact (input_sizes _ _ _ HSL) | exact (input_strides _ _ _ HSL)
    |exact (input_sizes _ _ _ HG) | exact (input_strides _ _ _ HG)
    |done|done|done|done
    |exact (input_sid _ _ _ HX) | exact (input_sid _ _ _ HC)
    |exact (input_sid _ _ _ HS) | exact (input_sid _ _ _ HSL)
    |exact (input_sid _ _ _ HG)].
Qed.

Lemma same_values1 h1 h2 t1 t2 a :
  sizes t1 = [a] → sizes t2 = [a] → to_list h1 t1 = to_list h2 t2 →
  ∀ i, i < a → getv h1 t1 [i] = getv h2 t2 [i].
Proof.
  intros H1 H2 Hl i Hi. apply to_list_getv; [congruence|done|].
  rewrite H1. apply elem_of_indices. repeat (constructor; try lia).
Qed.

Lemma same_values2 h1 h2 t1 t2 a b :
  sizes t1 = [a; b] → sizes t2 = [a; b] → to_list h1 t1 = to_list h2 t2 →
  ∀ i j, i < a → j < b → getv h1 t1 [i; j] = getv h2 t2 [i; j].
Proof.
  intros H1 H2 Hl i j Hi Hj. apply to_list_getv; [congruence|done|].
  rewrite H1. apply elem_of_indices. repeat (constructor; try lia).
Qed.

Lemma same_values3 h1 h2 t1 t2 a b c :
  sizes t1 = [a; b; c] → sizes t2 = [a; b; c] → to_list h1 t1 = to_list h2 t2 →
  ∀ i j k, i < a → j < b → k < c → getv h1 t1 [i; j; k] = getv h2 t2 [i; j; k].
Proof.
  intros H1 H2 Hl i j k Hi Hj Hk. apply to_list_getv; [congruence|done|].
  rewrite H1. apply elem_of_indices. repeat (constructor; try lia).
Qed.
End runs.

(** ** The dispatch of [_aggregate] *)

Section aggregate_facts.
Context {F : Type} `{Scalar F} {Red : Reduction F}.
Implicit Types (h : heap F) (lib : library F).

Lemma aggregate_forward_selected lib c A X C h :
  _aggregate.forward lib c A X C h
  = bind (aggregate_forward (selected lib A) A X C)
      (λ E, ret (save_for_backward c [A; X; C], E)) h.
Proof. unfold _aggregate.forward, selected. by destruct (is_cuda A). Qed.

Lemma aggregate_backward_selected lib c A X C gradE h :
  saved_variables c = [A; X; C] →
  _aggregate.backward lib c gradE h
  = aggregate_backward (selected lib A) gradE A X C h.
Proof.
  intros Hc. unfold _aggregate.backward, selected. rewrite Hc. unfold bind.
  destruct (is_cuda A).
  - by destruct (aggregate_backward (gpu lib) gradE A X C h) as [[[[??]?]|?] ?].
  - by destruct (aggregate_backward (cpu lib) gradE A X C h) as [[[[??]?]|?] ?].
Qed.

Lemma spec_aggregate_forward_mismatch A X C h B N K B' N' D K' D' :
  sizes A = [B; N; K] → sizes X = [B'; N'; D] → sizes C = [K'; D'] →
  ¬ (B = B' ∧ N = N' ∧ K = K' ∧ D = D') →
  aggregate_forward (selected spec_lib A) A X C h
  = (Raise (ShapeError OpAggregate), h).
Proof.
  intros HA HX HC Hne.
  assert (aggregate_forward (selected spec_lib A) = spec_aggregate_forward) as ->.
  { unfold selected. by destruct (is_cuda A). }
  unfold spec_aggregate_forward. rewrite HA, HX, HC. by rewrite decide_False.
Qed.

Lemma spec_aggregate_forward_run A X C h B N K D :
  sizes A = [B; N; K] → sizes X = [B; N; D] → sizes C = [K; D] →
  spec_aggregate_forward A X C h
  = (Ok (fresh (length h) [B; K; D] (is_cuda A)),
     h ++ [E_data h A X C B N K D]).
Proof.
  intros HA HX HC. unfold spec_aggregate_forward. rewrite HA, HX, HC.
  by rewrite decide_True.
Qed.
End aggregate_facts.

(** ** Shapes that do not match *)

Section shape_errors.
Context {F : Type} `{Scalar F} {Red : Reduction F}.
Implicit Types (h : heap F) (t : tensor).
Import ScaledL2.

Lemma expand_raise4 t a b c d sa sb sc sd ta tb tc td h :
  sizes t = [sa; sb; sc; sd] → strides t = [ta; tb; tc; td] →
  sd ≠ d → sd ≠ 1 →
  expand t [a; b; c; d] h = (Raise (ShapeError OpExpand), h).
Proof.
  intros Hsz Hst Hd H1. unfold expand. rewrite Hsz, Hst. simpl.
  by rewrite !decide_False.
Qed.

(** The trailing dimension of [X] is neither that of [C] nor 1:
    [expand] refuses, nothing has been computed yet. *)
Lemma forward_expand_mismatch c X C S h B N Dx K D :
  sizes X = [B; N; Dx] → length (strides X) = 3 → sizes C = [K; D] →
  Dx ≠ D → Dx ≠ 1 →
  forward c X C S h = (Raise (ShapeError OpExpand), h).
Proof.
  intros HX HXs HC Hne H1.
  destruct X as [nx bx szx stx dx], C as [nc bc szc stc dc].
  simpl in *. subst.
  destruct stx as [|x0 [|x1 [|x2 [|]]]]; try discriminate.
  unfold forward.
  erewrite bind_ok; [|by apply unsqueeze_run; unfold dim; simpl; lia].
  do 4 (erewrite bind_ok; [|by apply size_run]).
  cbn [sid base sizes strides is_cuda insert_at take drop app lookup list_lookup].
  erewrite bind_raise; [done|]. by eapply expand_raise4.
Qed.

(** [S] does not hold one scale per codeword: [view] refuses, after the
    squared distances and their sums have been stored. *)
Lemma forward_view_mismatch c X C S h B N Dx K D :
  sizes X = [B; N; Dx] → length (strides X) = 3 →
  sizes C = [K; D] → length (strides C) = 2 →
  Dx = D ∨ Dx = 1 → is_cuda C = is_cuda X →
  numel (sizes S) ≠ K →
  ∃ new, length new = 2 ∧
    forward c X C S h = (Raise (ShapeError OpView), h ++ new).
Proof.
  intros HX HXs HC HCs HD HdC HS.
  destruct X as [nx bx szx stx dx], C as [nc bc szc stc dc].
  simpl in *. subst.
  destruct stx as [|x0 [|x1 [|x2 [|]]]]; try discriminate.
  destruct stc as [|c0 [|c1 [|]]]; try discriminate.
  unfold forward.
  erewrite bind_ok; [|by apply unsqueeze_run; unfold dim; simpl; lia].
  do 4 (erewrite bind_ok; [|by apply size_run]).
  cbn [sid base sizes strides is_cuda insert_at take drop app lookup list_lookup].
  erewrite bind_ok; [|by eapply expand_run4; eauto].
  erewrite bind_ok; [|by apply unsqueeze_run; unfold dim; simpl; lia].
  erewrite bind_ok; [|by apply unsqueeze_run; unfold dim; simpl; lia].
  cbn [sid base sizes strides is_cuda insert_at take drop app lookup list_lookup].
  unfold sub.
  erewrite bind_ok; cycle 1.
  { eapply binary_run; [done|done| |by eapply expand_run4; eauto|by eapply expand_run4; eauto].
    simpl. repeat (constructor; try lia). }
  cbn [sid base sizes strides is_cuda].
  unfold pow_.
  erewrite bind_ok; cycle 1.
  { apply unary__fresh. by rewrite storage_middle. }
  rewrite insert_middle.
  erewrite bind_ok; cycle 1.
  { eapply (sum_run _ [3] [B; N; K; D] [false; false; false; true]); try done.
    repeat constructor; simpl; lia. apply NoDup_singleton. }
  rewrite length_app, <- app_assoc.
  cbn [sid base sizes strides is_cuda length app pick Bool.eqb fresh].
  erewrite bind_ok; [|by apply size_run].
  erewrite bind_raise; cycle 1.
  { unfold view. rewrite decide_False; [done|]. simpl. lia. }
  eexists. split; [|done]. done.
Qed.

(** Otherwise the call returns: a trailing dimension 1 of [X] is
    repeated along the features of [C]. *)
Lemma forward_broadcast_ok c X C S h B N Dx K D :
  sizes X = [B; N; Dx] → length (strides X) = 3 →
  sizes C = [K; D] → length (strides C) = 2 →
  sizes S = [K] → length (strides S) = 1 →
  Dx = D ∨ Dx = 1 → is_cuda C = is_cuda X → is_cuda S = is_cuda X →
  ∃ new,
    forward c X C S h =
      (Ok (save_for_backward c [X; C; S; fresh (length h + 1) [B; N; K] (is_cuda X)],
           fresh (length h + 1) [B; N; K] (is_cuda X)), h ++ new).
Proof.
  intros HX HXs HC HCs HS HSs HD HdC HdS.
  destruct X as [nx bx szx stx dx], C as [nc bc szc stc dc], S as [ns bs szs sts ds].
  simpl in *. subst.
  destruct stx as [|x0 [|x1 [|x2 [|]]]]; try discriminate.
  destruct stc as [|c0 [|c1 [|]]]; try discriminate.
  destruct sts as [|s0 [|]]; try discriminate.
  destruct (view_run_1d (F:=F) (Tensor ns bs [K] [s0] dx) K s0 eq_refl eq_refl)
    as (q0 & q1 & q2 & Hview & Hq).
  unfold forward.
  erewrite bind_ok; [|by apply unsqueeze_run; unfold dim; simpl; lia].
  do 4 (erewrite bind_ok; [|by apply size_run]).
  cbn [sid base sizes strides is_cuda insert_at take drop app lookup list_lookup].
  erewrite bind_ok; [|by eapply expand_run4; eauto].
  erewrite bind_ok; [|by apply unsqueeze_run; unfold dim; simpl; lia].
  erewrite bind_ok; [|by apply unsqueeze_run; unfold dim; simpl; lia].
  cbn [sid base sizes strides is_cuda insert_at take drop app lookup list_lookup].
  unfold sub.
  erewrite bind_ok; cycle 1.
  { eapply binary_run; [done|done| |by eapply expand_run4; eauto|by eapply expand_run4; eauto].
    simpl. repeat (constructor; try lia). }
  cbn [sid base sizes strides is_cuda].
  unfold pow_.
  erewrite bind_ok; cycle 1.
  { apply unary__fresh. by rewrite storage_middle. }
  rewrite insert_middle.
  erewrite bind_ok; cycle 1.
  { eapply (sum_run _ [3] [B; N; K; D] [false; false; false; true]); try done.
    repeat constructor; simpl; lia. apply NoDup_singleton. }
  rewrite length_app, <- app_assoc.
  cbn [sid base sizes strides is_cuda length app pick Bool.eqb fresh].
  erewrite bind_ok; [|by apply size_run].
  erewrite bind_ok; [|by apply Hview].
  unfold mul_.
  erewrite bind_ok; cycle 1.
  { eapply (binary__fresh _ _ _ (length h + 1)).
    - rewrite (storage_app_r h _ 1). cbn [nth]. reflexivity.
    - done.
    - simpl. repeat (constructor; try lia).
    - by eapply expand_run3; eauto. }
  rewrite (insert_app_r h _ 1). cbn [insert list_insert].
  eexists. reflexivity.
Qed.

Lemma aggregate_is_kernel (lib : library F) A X C h :
  aggregate lib A X C h = aggregate_forward (selected lib A) A X C h.
Proof.
  unfold aggregate, bind. rewrite aggregate_forward_selected. unfold bind.
  by destruct (aggregate_forward (selected lib A) A X C h) as [[?|?] ?].
Qed.
End shape_errors.

Section wrappers.
Context {F : Type} `{Scalar F} {Red : Reduction F}.
Implicit Types (h : heap F).

Lemma scaled_l2_raise X C S h e h' :
  ScaledL2.forward (Ctx [] []) X C S h = (Raise e, h') →
  scaled_l2 X C S h = (Raise e, h').
Proof. intros Hf. unfold scaled_l2. by rewrite (bind_raise _ _ _ _ _ Hf). Qed.

Lemma scaled_l2_ok X C S h c SL h' :
  ScaledL2.forward (Ctx [] []) X C S h = (Ok (c, SL), h') →
  scaled_l2 X C S h = (Ok SL, h').
Proof. intros Hf. unfold scaled_l2. by rewrite (bind_ok _ _ _ _ _ Hf). Qed.
End wrappers.

(** ** Heaps that grow *)

Section later_heaps.
Context {F : Type} `{Scalar F} {Red : Reduction F}.
Implicit Types (h : heap F) (t : tensor).

Lemma length_contiguous_strides sz : length (contiguous_strides sz) = length sz.
Proof.
  induction sz as [|n sz IH]; [done|].
  change (contiguous_strides (n :: sz))
    with (foldr (λ n acc, Nat.max n 1 * acc) 1 sz :: contiguous_strides sz).
  cbn [length]. by rewrite IH.
Qed.

(** Inputs stay inputs when the heap grows. *)
Lemma input_app h l t sz : input h t sz → input (h ++ l) t sz.
Proof.
  intros Hin. pose proof (input_sid _ _ _ Hin) as Hs.
  destruct Hin as [Hv Hsz]. split; [|done].
  unfold valid, valid_b in *. rewrite storage_app_l by done.
  apply andb_prop in Hv as [Hv H3]. apply andb_prop in Hv as [H1 H2].
  rewrite H2, H3, !andb_true_r. apply Nat.ltb_lt. rewrite length_app. lia.
Qed.

(** A tensor that was allocated is an input of the heap it lives in. *)
Lemma input_fresh_app h l j sz dev (f : list nat → F) :
  nth j l [] = f <$> indices sz → j < length l →
  input (h ++ l) (fresh (length h + j) sz dev) sz.
Proof.
  intros Hl Hj. split; [|done]. unfold valid, valid_b. cbn [sid sizes strides fresh].
  rewrite storage_app_r, Hl, length_contiguous_strides, Nat.eqb_refl.
  rewrite (proj2 (Nat.ltb_lt _ _)) by (rewrite length_app; lia).
  cbn [andb]. apply forallb_forall. intros idx Hin. apply Nat.ltb_lt.
  apply list_elem_of_In, list_elem_of_lookup in Hin as [p Hp].
  unfold addr. cbn [base strides fresh]. rewrite (dot_contiguous_lookup _ _ _ Hp).
  rewrite length_fmap. simpl. by apply lookup_lt_Some in Hp.
Qed.
End later_heaps.

(** ** The forward call, then the backward call *)

Section paired.
Context {F : Type} `{Scalar F} {Red : Reduction F}.
Implicit Types (h : heap F) (t : tensor).

(** The forward call, then the backward call on its context. *)
Lemma paired_backward_GS c X C S h B N K D :
  input h X [B; N; D] → input h C [K; D] → input h S [K] →
  one_device [X; C; S] →
  ∃ c' SL h1,
    ScaledL2.forward c X C S h = (Ok (c', SL), h1) ∧
    (∀ b i k, b < B → i < N → k < K →
       getv h1 SL [b; i; k] = fmul (sqdist h X C D b i k) (getv h S [k])) ∧
    ∀ GSL, input h1 GSL [B; N; K] → is_cuda GSL = is_cuda X →
      ∃ GX GC GS h2,
        ScaledL2.backward c' GSL h1 = (Ok (GX, GC, GS), h2) ∧
        sizes GS = [K] ∧
        ∀ k, k < K →
          getv h2 GS [k]
          = reduce_over2 B N (λ b i,
              fmul (fdiv (getv h1 SL [b; i; k]) (getv h S [k])) (getv h1 GSL [b; i; k])).
Proof.
  intros HX HC HS Hdev.
  pose proof (forward_ok c X C S h B N K D HX HC HS Hdev) as Hfw.
  eexists _, _, _. split; [exact Hfw|].
  set (h1 := h ++ [sq_data h X C B N K D; SL_data h X C S B N K D]) in *.
  split.
  { intros b i k Hb Hi Hk. subst h1.
    erewrite (getv_fresh_app _ _ 1); cycle 1.
    - unfold SL_data. reflexivity.
    - apply elem_of_indices. repeat (constructor; try lia).
    - done. }
  intros GSL HG HdG.
  assert (input h1 (fresh (length h + 1) [B; N; K] (is_cuda X)) [B; N; K]) as HSL.
  { unfold h1. eapply (input_fresh_app _ _ 1).
    - unfold SL_data. reflexivity.
    - simpl. lia. }
  assert (one_device [X; C; S; fresh (length h + 1) [B; N; K] (is_cuda X); GSL]) as Hdev5.
  { apply one_device_3 in Hdev as [HdC HdS]. unfold one_device. simpl.
    rewrite HdC, HdS, HdG, !Bool.eqb_reflx. done. }
  destruct (backward_values
              (save_for_backward c [X; C; S; fresh (length h + 1) [B; N; K] (is_cuda X)])
              X C S (fresh (length h + 1) [B; N; K] (is_cuda X)) GSL h1 B N K D eq_refl
              (input_app _ _ _ _ HX) (input_app _ _ _ _ HC) (input_app _ _ _ _ HS)
              HSL HG Hdev5)
    as (GX & GC & GS & h2 & Hrun & _ & _ & HsS & _ & _ & HGS).
  exists GX, GC, GS, h2. split; [done|]. split; [done|].
  intros k Hk. rewrite HGS by done. unfold reduce_over2. f_equal.
  apply fmap_indices_ext2. intros b i Hb Hi. unfold Q_val. subst h1.
  by rewrite (getv_app_l h _ S) by exact (input_sid _ _ _ HS).
Qed.
End paired.

(** ** Zeros and NaN in binary64 *)

Lemma b64_mul_zero (x : binary64) s :
  fmul x (S754_zero s) = S754_nan ∨ ∃ s', fmul x (S754_zero s) = S754_zero s'.
Proof. destruct x; simpl; eauto. Qed.

Lemma b64_div_by_zero (x : binary64) s :
  x = S754_nan ∨ (∃ s', x = S754_zero s') → fdiv x (S754_zero s) = S754_nan.
Proof. intros [->|[s' ->]]; done. Qed.

Lemma b64_mul_nan_l (y : binary64) : fmul S754_nan y = S754_nan.
Proof. done. Qed.

Lemma b64_add_nan_l (y : binary64) : fadd S754_nan y = S754_nan.
Proof. done. Qed.

Lemma b64_add_nan_r (x : binary64) : fadd x S754_nan = S754_nan.
Proof. by destruct x. Qed.

(** A NaN among the elements makes every sum of them NaN, in whatever
    order and grouping. *)
Lemma b64_sums_to_nan (l : list binary64) v :
  sums_to l v → S754_nan ∈ l → v = S754_nan.
Proof.
  induction 1 as [|x|l1 l2 v1 v2 _ I1 _ I2|l l' v Hp _ I]; intros Hin.
  - by apply not_elem_of_nil in Hin.
  - by apply list_elem_of_singleton in Hin.
  - apply elem_of_app in Hin as [Hin|Hin].
    + rewrite (I1 Hin). apply b64_add_nan_l.
    + rewrite (I2 Hin). apply b64_add_nan_r.
  - apply I. by rewrite Hp.
Qed.

Lemma b64_reduce_nan {Red : Reduction binary64} (l : list binary64) :
  S754_nan ∈ l → reduce l = S754_nan.
Proof. apply b64_sums_to_nan, reduce_sums. Qed.

(** ** Sums, term by term *)

Section sums.
Context {F : Type} `{Scalar F} {Red : Reduction F}.

Lemma sum_over_ext n (f g : nat → F) :
  (∀ i, i < n → f i = g i) → sum_over n f = sum_over n g.
Proof. intros Hfg. unfold sum_over. f_equal. by apply fmap_seq_ext. Qed.

Lemma sum_over2_ext B N (f g : nat → nat → F) :
  (∀ b i, b < B → i < N → f b i = g b i) → sum_over2 B N f = sum_over2 B N g.
Proof.
  intros Hfg. unfold sum_over2. f_equal. apply fmap_indices_ext2. exact Hfg.
Qed.

Lemma reduce_over_ext n (f g : nat → F) :
  (∀ i, i < n → f i = g i) → reduce_over n f = reduce_over n g.
Proof. intros Hfg. unfold reduce_over. f_equal. by apply fmap_seq_ext. Qed.

Lemma reduce_over2_ext B N (f g : nat → nat → F) :
  (∀ b i, b < B → i < N → f b i = g b i) →
  reduce_over2 B N f = reduce_over2 B N g.
Proof.
  intros Hfg. unfold reduce_over2. f_equal. apply fmap_indices_ext2. exact Hfg.
Qed.
End sums.

(** ** More sums in exact arithmetic *)

Section exact_sums.
Context {F : Type} `{ExactArith F} {Red : Reduction F}.

Add Ring F_sums_ring : exact_ring.

Lemma fsum_opp {A} (f : A → F) l :
  fsum ((λ x, fneg (f x)) <$> l) = fneg (fsum (f <$> l)).
Proof.
  induction l as [|x l IH].
  - rewrite !fmap_nil, !fsum_nil. ring.
  - rewrite !fmap_cons, !fsum_cons, IH. ring.
Qed.

Lemma fsum_mul_l {A} (f : A → F) (c : F) l :
  fsum ((λ x, fmul c (f x)) <$> l) = fmul c (fsum (f <$> l)).
Proof.
  induction l as [|x l IH].
  - rewrite !fmap_nil, !fsum_nil. ring.
  - rewrite !fmap_cons, !fsum_cons, IH. ring.
Qed.

Lemma sum_over_add n (f g : nat → F) :
  sum_over n (λ i, fadd (f i) (g i)) = fadd (sum_over n f) (sum_over n g).
Proof. apply fsum_add. Qed.

Lemma sum_over_sub n (f g : nat → F) :
  sum_over n (λ i, fsub (f i) (g i)) = fsub (sum_over n f) (sum_over n g).
Proof.
  transitivity (sum_over n (λ i, fadd (f i) (fneg (g i)))).
  - apply sum_over_ext. intros. ring.
  - rewrite sum_over_add. unfold sum_over at 2. rewrite fsum_opp.
    unfold sum_over. ring.
Qed.

Lemma sum_over_mul_l n c (f : nat → F) :
  sum_over n (λ i, fmul c (f i)) = fmul c (sum_over n f).
Proof. apply fsum_mul_l. Qed.

Lemma sum_over_mul_r n c (f : nat → F) :
  sum_over n (λ i, fmul (f i) c) = fmul (sum_over n f) c.
Proof. apply fsum_mul_r. Qed.

Lemma sum_over_exchange n m (f : nat → nat → F) :
  sum_over n (λ i, sum_over m (λ j, f i j))
  = sum_over m (λ j, sum_over n (λ i, f i j)).
Proof. apply (fsum_exchange f). Qed.

Lemma sum_over2_exchange B N K (f : nat → nat → nat → F) :
  sum_over2 B N (λ b i, sum_over K (λ k, f b i k))
  = sum_over K (λ k, sum_over2 B N (λ b i, f b i k)).
Proof.
  unfold sum_over2.
  transitivity (fsum ((λ bi, fsum ((λ k, match bi with
                                         | [b; i] => f b i k
                                         | _ => fzero
                                         end) <$> seq 0 K))
                      <$> indices [B; N])).
  - f_equal. by apply fmap_indices_ext2.
  - by rewrite fsum_exchange.
Qed.

Lemma sum_over2_mul_l B N c (f : nat → nat → F) :
  sum_over2 B N (λ b i, fmul c (f b i)) = fmul c (sum_over2 B N f).
Proof.
  unfold sum_over2. rewrite <- fsum_mul_l. f_equal. by apply fmap_indices_ext2.
Qed.

Lemma sum_over2_mul_r B N c (f : nat → nat → F) :
  sum_over2 B N (λ b i, fmul (f b i) c) = fmul (sum_over2 B N f) c.
Proof.
  unfold sum_over2. rewrite <- fsum_mul_r. f_equal. by apply fmap_indices_ext2.
Qed.
Lemma sum_over2_add B N (f g : nat → nat → F) :
  sum_over2 B N (λ b i, fadd (f b i) (g b i))
  = fadd (sum_over2 B N f) (sum_over2 B N g).
Proof.
  unfold sum_over2. rewrite <- fsum_add. f_equal. by apply fmap_indices_ext2.
Qed.
End exact_sums.

(** Division in the rationals. *)
#[export] Instance Qc_field : ExactField Qc.
Proof.
  intros x y Hy. simpl. unfold Qcdiv.
  rewrite <- Qcmult_assoc, Qcmult_inv_r by exact Hy. apply Qcmult_1_r.
Qed.

(** ** Tensors that hold a sum or a difference of two others *)

Section perturb.
Context {F : Type} `{Scalar F} {Red : Reduction F}.
Implicit Types (h : heap F) (t : tensor).

Lemma fpow_2 (x : F) : fpow x 2 = fmul x x.
Proof. done. Qed.

Lemma fmap_eq_elem {A B} (f g : A → B) (l : list A) x :
  f <$> l = g <$> l → x ∈ l → f x = g x.
Proof.
  intros Hfg Hx. apply list_elem_of_lookup in Hx as [p Hp].
  apply (f_equal (λ l', l' !! p)) in Hfg.
  rewrite !list_lookup_fmap, Hp in Hfg. simpl in Hfg. congruence.
Qed.

Lemma zip_with_fmap_same {A B} (op : B → B → B) (f g : A → B) (l : list A) :
  zip_with op (f <$> l) (g <$> l) = (λ x, op (f x) (g x)) <$> l.
Proof. induction l as [|x l IH]; [done|]. rewrite !fmap_cons. simpl. by rewrite IH. Qed.

(** A tensor that holds [op] of two others, element by element. *)
Lemma to_list_zip_with op h t t1 t2 sz idx :
  sizes t = sz → sizes t1 = sz → sizes t2 = sz →
  to_list h t = zip_with op (to_list h t1) (to_list h t2) →
  idx ∈ indices sz → getv h t idx = op (getv h t1 idx) (getv h t2 idx).
Proof.
  unfold to_list. intros -> -> -> Hl Hidx. rewrite zip_with_fmap_same in Hl.
  exact (fmap_eq_elem _ _ _ _ Hl Hidx).
Qed.

Lemma one_device_3_intro t1 t2 t3 :
  is_cuda t2 = is_cuda t1 → is_cuda t3 = is_cuda t1 → one_device [t1; t2; t3].
Proof.
  intros H2 H3. unfold one_device. simpl. by rewrite H2, H3, !Bool.eqb_reflx.
Qed.

Lemma one_device_4 t1 t2 t3 t4 :
  one_device [t1; t2; t3; t4] →
  is_cuda t2 = is_cuda t1 ∧ is_cuda t3 = is_cuda t1 ∧ is_cuda t4 = is_cuda t1.
Proof.
  unfold one_device. simpl. rewrite !andb_true_iff.
  intros (H1 & H2 & H3 & _). repeat split; by apply Bool.eqb_prop.
Qed.

Lemma scaled_l2_values X C S h B N K D :
  input h X [B; N; D] → input h C [K; D] → input h S [K] →
  one_device [X; C; S] →
  ∃ SL h',
    scaled_l2 X C S h = (Ok SL, h') ∧ sizes SL = [B; N; K] ∧
    ∀ b i k, b < B → i < N → k < K →
      getv h' SL [b; i; k] = fmul (sqdist h X C D b i k) (getv h S [k]).
Proof.
  intros HX HC HS Hdev.
  pose proof (forward_ok (Ctx [] []) X C S h B N K D HX HC HS Hdev) as Hfw.
  eexists _, _. split; [exact (scaled_l2_ok _ _ _ _ _ _ _ Hfw)|]. split; [done|].
  intros b i k Hb Hi Hk.
  erewrite (getv_fresh_app _ _ 1); cycle 1.
  - unfold SL_data. reflexivity.
  - apply elem_of_indices. repeat (constructor; try lia).
  - done.
Qed.
End perturb.

(** ** Identities of exact arithmetic *)

Section identities.
Context {F : Type} `{ExactArith F} {Red : Reduction F}.

Add Ring F_identities_ring : exact_ring.

(** The difference of the scaled squares at [x + t] and at [x - t]. *)
Lemma central_difference_X (g x c t s : F) :
  fmul g (fsub (fmul (fmul (fsub (fadd x t) c) (fsub (fadd x t) c)) s)
               (fmul (fmul (fsub (fsub x t) c) (fsub (fsub x t) c)) s))
  = fmul (fmul (of_int 2) (fmul (fsub x c) (fmul (fmul g (of_int 2)) s))) t.
Proof. rewrite of_int_2. ring. Qed.

(** The same at [c + t] and at [c - t]. *)
Lemma central_difference_C (g x c t s : F) :
  fmul g (fsub (fmul (fmul (fsub x (fadd c t)) (fsub x (fadd c t))) s)
               (fmul (fmul (fsub x (fsub c t)) (fsub x (fsub c t))) s))
  = fmul (fmul (fneg (of_int 2)) (fmul (fsub x c) (fmul (fmul g (of_int 2)) s))) t.
Proof. rewrite of_int_2. ring. Qed.

(** The difference of the scaled distance at [s + t] and at [s - t]. *)
Lemma central_difference_S (g q s t : F) :
  fmul g (fsub (fmul q (fadd s t)) (fmul q (fsub s t)))
  = fmul (of_int 2) (fmul (fmul q g) t).
Proof. rewrite of_int_2. ring. Qed.

Lemma fmul_two_assoc (a t : F) :
  fmul (fmul (of_int 2) a) t = fmul (of_int 2) (fmul a t).
Proof. ring. Qed.

Lemma fmul_neg_two (a t : F) :
  fmul (fmul (fneg (of_int 2)) a) t
  = fmul (of_int 2) (fmul (fmul a (of_int (-1))) t).
Proof. rewrite of_int_m1. ring. Qed.

Lemma fmul_fadd_l (a b m : F) : fmul (fadd a b) m = fadd (fmul a m) (fmul b m).
Proof. ring. Qed.

Lemma fmul_fadd_r (q a b : F) : fmul q (fadd a b) = fadd (fmul q a) (fmul q b).
Proof. ring. Qed.

Lemma tmp_additive (r g1 g2 s : F) :
  fmul r (fmul (fmul (fadd g1 g2) (of_int 2)) s)
  = fadd (fmul r (fmul (fmul g1 (of_int 2)) s)) (fmul r (fmul (fmul g2 (of_int 2)) s)).
Proof. ring. Qed.
End identities.

(** ** Empty batches and wrong ranks *)

Section edges.
Context {F : Type} `{Scalar F} {Red : Reduction F}.
Implicit Types (h : heap F) (t : tensor).

Lemma indices_empty sz : numel sz = 0 → indices sz = [].
Proof. intros E. apply length_zero_iff_nil. by rewrite length_indices. Qed.

Lemma reduce_over2_empty B N (f : nat → nat → F) :
  B * N = 0 → reduce_over2 B N f = fzero.
Proof.
  intros E. unfold reduce_over2. rewrite indices_empty; [apply reduce_nil|]. simpl. lia.
Qed.

Lemma forward_rank_X c X C S h :
  dim X < 2 → ScaledL2.forward c X C S h = (Raise (IndexError OpUnsqueeze), h).
Proof.
  intros Hd. unfold ScaledL2.forward. erewrite bind_raise; [done|].
  unfold unsqueeze. rewrite decide_False by lia. done.
Qed.

Lemma forward_rank_C c X C S h :
  2 ≤ dim X → dim C < 2 → ScaledL2.forward c X C S h = (Raise (IndexError OpSize), h).
Proof.
  intros HdX HdC. unfold dim in *.
  destruct (sizes X) as [|b [|n szx]] eqn:EX; simpl in HdX; try lia.
  unfold ScaledL2.forward.
  erewrite bind_ok; [|by apply unsqueeze_run; unfold dim; rewrite EX; simpl; lia].
  erewrite bind_ok; [|by apply size_run; rewrite EX].
  erewrite bind_ok; [|by apply size_run; rewrite EX].
  destruct (sizes C) as [|k [|d szc]] eqn:EC; simpl in HdC; try lia.
  - erewrite bind_raise; [done|]. unfold size. by rewrite EC.
  - erewrite bind_ok; [|by apply size_run; rewrite EC].
    erewrite bind_raise; [done|]. unfold size. by rewrite EC.
Qed.
End edges.

Section rank.
Context {F : Type} `{Scalar F} {Red : Reduction F}.
Implicit Types (h : heap F) (t : tensor).
Import ScaledL2.

Lemma expand_rev_long ts target prev :
  length target < length ts → expand_rev ts target prev = None.
Proof.
  revert ts prev. induction target as [|n target IH]; intros ts prev Hlen.
  - destruct ts; [simpl in Hlen; lia|done].
  - destruct ts as [|[size stride] ts]; [simpl in Hlen; lia|].
    simpl in *. repeat case_decide; try done; rewrite IH by lia; done.
Qed.

Lemma forward_rank_X_high c X C S h :
  3 < dim X → length (strides X) = dim X → 2 ≤ dim C →
  ScaledL2.forward c X C S h = (Raise (ShapeError OpExpand), h).
Proof.
  intros HdX Hst HdC. unfold dim in *.
  destruct (sizes X) as [|b [|n szx]] eqn:EX; simpl in HdX; try lia.
  destruct (sizes C) as [|k [|d szc]] eqn:EC; simpl in HdC; try lia.
  unfold ScaledL2.forward.
  erewrite bind_ok; [|by apply unsqueeze_run; unfold dim; rewrite EX; simpl; lia].
  erewrite bind_ok; [|by apply size_run; rewrite EX].
  erewrite bind_ok; [|by apply size_run; rewrite EX].
  erewrite bind_ok; [|by apply size_run; rewrite EC].
  erewrite bind_ok; [|by apply size_run; rewrite EC].
  erewrite bind_raise; [done|].
  unfold expand. cbn [sizes strides]. rewrite expand_rev_long; [done|].
  rewrite !length_rev, length_zip_with. unfold insert_at.
  rewrite !length_app. cbn [length]. rewrite !length_take, !length_drop, EX, Hst.
  cbn [length]. lia.
Qed.
End rank.

(** ** A trailing dimension 1 of [X] *)

Section broadcast.
Context {F : Type} `{Scalar F} {Red : Reduction F}.
Implicit Types (h : heap F) (t : tensor).
Import ScaledL2.

Lemma getv_X2_bcast h n bs x0 x1 x2 dv sz B N K D e b i k d :
  k < K → d < D →
  getv h {| sid := n; base := bs; sizes := sz;
            strides := [kept B B (kept B B x0); kept N N (kept N N x1);
                        kept K K (kept 1 K e); kept D D (kept 1 D x2)];
            is_cuda := dv |} [b; i; k; d]
  = getv h {| sid := n; base := bs; sizes := [B; N; 1]; strides := [x0; x1; x2];
              is_cuda := dv |} [b; i; 0].
Proof.
  intros Hk Hd. unfold getv, addr. simpl. rewrite !kept_same, !kept_one by done.
  f_equal; lia.
Qed.

Lemma forward_bcast_run c X C S h B N K D :
  sizes X = [B; N; 1] → length (strides X) = 3 →
  sizes C = [K; D] → length (strides C) = 2 →
  sizes S = [K] → length (strides S) = 1 →
  is_cuda C = is_cuda X → is_cuda S = is_cuda X →
  sid X < length h → sid C < length h → sid S < length h →
  ∃ new,
    forward c X C S h =
      (Ok (save_for_backward c [X; C; S; fresh (length h + 1) [B; N; K] (is_cuda X)],
           fresh (length h + 1) [B; N; K] (is_cuda X)), h ++ new) ∧
    ∀ b i k, b < B → i < N → k < K →
      getv (h ++ new) (fresh (length h + 1) [B; N; K] (is_cuda X)) [b; i; k]
      = fmul (reduce_over D (λ d, fpow (fsub (getv h X [b; i; 0]) (getv h C [k; d])) 2))
             (getv h S [k]).
Proof.
  intros HX HXs HC HCs HS HSs HdC HdS HiX HiC HiS.
  destruct X as [nx bx szx stx dx], C as [nc bc szc stc dc], S as [ns bs szs sts ds].
  simpl in *. subst.
  destruct stx as [|x0 [|x1 [|x2 [|]]]]; try discriminate.
  destruct stc as [|c0 [|c1 [|]]]; try discriminate.
  destruct sts as [|s0 [|]]; try discriminate.
  destruct (view_run_1d (F:=F) (Tensor ns bs [K] [s0] dx) K s0 eq_refl eq_refl)
    as (q0 & q1 & q2 & Hview & Hq).
  unfold forward.
  erewrite bind_ok; [|by apply unsqueeze_run; unfold dim; simpl; lia].
  do 4 (erewrite bind_ok; [|by apply size_run]).
  cbn [sid base sizes strides is_cuda insert_at take drop app lookup list_lookup].
  erewrite bind_ok; [|by eapply expand_run4; eauto].
  erewrite bind_ok; [|by apply unsqueeze_run; unfold dim; simpl; lia].
  erewrite bind_ok; [|by apply unsqueeze_run; unfold dim; simpl; lia].
  cbn [sid base sizes strides is_cuda insert_at take drop app lookup list_lookup].
  unfold sub.
  erewrite bind_ok; cycle 1.
  { eapply binary_run; [done|done| |by eapply expand_run4; eauto|by eapply expand_run4; eauto].
    simpl. repeat (constructor; try lia). }
  cbn [sid base sizes strides is_cuda].
  unfold pow_.
  erewrite bind_ok; cycle 1.
  { apply unary__fresh. by rewrite storage_middle. }
  rewrite insert_middle.
  erewrite bind_ok; cycle 1.
  { eapply (sum_run _ [3] [B; N; K; D] [false; false; false; true]); try done.
    repeat constructor; simpl; lia. apply NoDup_singleton. }
  rewrite length_app, <- app_assoc.
  cbn [sid base sizes strides is_cuda length app pick Bool.eqb fresh].
  erewrite bind_ok; [|by apply size_run].
  erewrite bind_ok; [|by apply Hview].
  unfold mul_.
  erewrite bind_ok; cycle 1.
  { eapply (binary__fresh _ _ _ (length h + 1)).
    - rewrite (storage_app_r h _ 1). cbn [nth]. reflexivity.
    - done.
    - simpl. repeat (constructor; try lia).
    - by eapply expand_run3; eauto. }
  rewrite (insert_app_r h _ 1). cbn [insert list_insert].
  cbn [sid base sizes strides is_cuda length app].
  eexists. split; [reflexivity|].
  intros b i k Hb Hi Hk.
  erewrite (getv_fresh_app _ _ 1); cycle 1.
  - cbn [nth]. reflexivity.
  - apply elem_of_indices. repeat (constructor; try lia).
  - cbv beta. f_equal.
    + unfold reduce_over. apply (f_equal reduce). rewrite fmap_indices_1. cbn [weave].
      apply fmap_seq_ext. intros d Hd.
      rewrite (getv_fresh _ _ _ _ _ _ (storage_middle _ _ _)).
      * by rewrite getv_X2_bcast, getv_C2.
      * apply elem_of_indices. repeat (constructor; try lia).
    + rewrite getv_app_l by done. by apply getv_S1.
Qed.
End broadcast.

Section broadcast_backward.
Context {F : Type} `{Scalar F} {Red : Reduction F}.
Implicit Types (h : heap F) (t : tensor).
Import ScaledL2.

Lemma backward_bcast_run c X C S SL GSL h B N K D :
  saved_variables c = [X; C; S; SL] →
  sizes X = [B; N; 1] → length (strides X) = 3 →
  sizes C = [K; D] → length (strides C) = 2 →
  sizes S = [K] → length (strides S) = 1 →
  sizes SL = [B; N; K] → length (strides SL) = 3 →
  sizes GSL = [B; N; K] → length (strides GSL) = 3 →
  is_cuda C = is_cuda X → is_cuda S = is_cuda X →
  is_cuda SL = is_cuda X → is_cuda GSL = is_cuda X →
  sid X < length h → sid C < length h → sid S < length h →
  sid SL < length h → sid GSL < length h →
  ∃ new,
    backward c GSL h =
      (Ok (fresh (length h + 2) [B; N; D] (is_cuda X),
           fresh (length h + 3) [K; D] (is_cuda X),
           fresh (length h + 5) [K] (is_cuda X)), h ++ new) ∧
    ∀ b i d, b < B → i < N → d < D →
      getv (h ++ new) (fresh (length h + 2) [B; N; D] (is_cuda X)) [b; i; d]
      = reduce_over K (λ k,
          fmul (fsub (getv h X [b; i; 0]) (getv h C [k; d])) (G_val h S GSL b i k)).
Proof.
  intros Hc HX HXs HC HCs HS HSs HSL HSLs HG HGs HdC HdS HdSL HdG HiX HiC HiS HiSL HiG.
  destruct X as [nx bx szx stx dx], C as [nc bc szc stc dc], S as [ns bs szs sts ds],
    SL as [nl bl szl stl dl], GSL as [ng bg szg stg dg].
  simpl in *. subst.
  destruct stx as [|x0 [|x1 [|x2 [|]]]]; try discriminate.
  destruct stc as [|c0 [|c1 [|]]]; try discriminate.
  destruct sts as [|s0 [|]]; try discriminate.
  destruct stl as [|l0 [|l1 [|l2 [|]]]]; try discriminate.
  destruct stg as [|g0 [|g1 [|g2 [|]]]]; try discriminate.
  destruct (view_run_1d (F:=F) (Tensor ns bs [K] [s0] dx) K s0 eq_refl eq_refl)
    as (q0 & q1 & q2 & Hview & Hq).
  unfold backward. rewrite Hc.
  erewrite bind_ok; [|by apply unsqueeze_run; unfold dim; simpl; lia].
  do 4 (erewrite bind_ok; [|by apply size_run]).
  cbn [sid base sizes strides is_cuda insert_at take drop app lookup list_lookup].
  erewrite bind_ok; [|by eapply expand_run4; eauto].
  erewrite bind_ok; [|by apply unsqueeze_run; unfold dim; simpl; lia].
  erewrite bind_ok; [|by apply unsqueeze_run; unfold dim; simpl; lia].
  cbn [sid base sizes strides is_cuda insert_at take drop app lookup list_lookup].
  unfold sub.
  erewrite bind_ok; cycle 1.
  { eapply binary_run; [done|done| |by eapply expand_run4; eauto|by eapply expand_run4; eauto].
    simpl. repeat (constructor; try lia). }
  cbn [sid base sizes strides is_cuda].
  erewrite bind_ok; [|by apply rmul_run].
  rewrite length_app, <- app_assoc.
  cbn [sid base sizes strides is_cuda length app].
  erewrite bind_ok; [|by apply size_run].
  erewrite bind_ok; [|by apply Hview].
  unfold mul_ at 1.
  erewrite bind_ok; cycle 1.
  { eapply (binary__fresh _ _ _ (length h + 1)).
    - rewrite (storage_app_r h _ 1). cbn [nth]. reflexivity.
    - done.
    - simpl. repeat (constructor; try lia).
    - by eapply expand_run3; eauto. }
  rewrite (insert_app_r h _ 1). cbn [insert list_insert].
  cbn [sid base sizes strides is_cuda length app].
  erewrite bind_ok; [|by apply unsqueeze_run; unfold dim; simpl; lia].
  cbn [fresh sid base sizes strides is_cuda insert_at lookup list_lookup].
  destruct (contiguous_strides [B; N; K]) as [|e0 [|e1 [|e2 [|]]]] eqn:He;
    try discriminate.
  cbn [take drop app].
  unfold mul_ at 1.
  erewrite bind_ok; cycle 1.
  { eapply (binary__fresh _ _ _ (length h)).
    - by rewrite storage_middle.
    - done.
    - simpl. repeat (constructor; try lia).
    - by eapply expand_run4; eauto. }
  rewrite insert_middle.
  erewrite bind_ok; cycle 1.
  { eapply (sum_run _ [2] [B; N; K; D] [false; false; true; false]); try done.
    repeat constructor; simpl; lia. apply NoDup_singleton. }
  rewrite length_app, <- app_assoc.
  cbn [sid base sizes strides is_cuda length app pick Bool.eqb fresh].
  erewrite bind_ok; cycle 1.
  { eapply (sum_run _ [0; 1] [B; N; K; D] [true; true; false; false]); try done.
    repeat constructor; simpl; lia.
    apply NoDup_cons; split; [|apply NoDup_singleton].
    rewrite list_elem_of_singleton. done. }
  rewrite length_app, <- app_assoc.
  cbn [sid base sizes strides is_cuda length app pick Bool.eqb fresh].
  unfold mul_ at 1.
  erewrite bind_ok; cycle 1.
  { eapply (unary__fresh _ _ _ (length h + 3)).
    rewrite (storage_app_r h _ 3). cbn [nth]. reflexivity. }
  rewrite (insert_app_r h _ 3). cbn [insert list_insert].
  erewrite bind_ok; [|by apply size_run].
  erewrite bind_ok; [|by apply Hview].
  unfold div.
  erewrite bind_ok; cycle 1.
  { eapply binary_run; [done|done| |by eapply expand_run3; eauto|by eapply expand_run3; eauto].
    simpl. repeat (constructor; try lia). }
  rewrite length_app, <- app_assoc.
  cbn [sid base sizes strides is_cuda length app].
  unfold mul_ at 1.
  erewrite bind_ok; cycle 1.
  { eapply (binary__fresh _ _ _ (length h + 4)).
    - rewrite (storage_app_r h _ 4). cbn [nth]. reflexivity.
    - done.
    - simpl. repeat (constructor; try lia).
    - by eapply expand_run3; eauto. }
  rewrite (insert_app_r h _ 4). cbn [insert list_insert].
  erewrite bind_ok; cycle 1.
  { eapply (sum_run _ [0; 1] [B; N; K] [true; true; false]); try done.
    repeat constructor; simpl; lia.
    apply NoDup_cons; split; [|apply NoDup_singleton].
    rewrite list_elem_of_singleton. done. }
  rewrite length_app, <- app_assoc.
  cbn [sid base sizes strides is_cuda length app pick Bool.eqb fresh].
  eexists. split; [reflexivity|].
  intros b i d Hb Hi Hd.
  erewrite (getv_fresh_app _ _ 2); cycle 1.
  - cbn [nth]. reflexivity.
  - apply elem_of_indices. repeat (constructor; try lia).
  - cbv beta. unfold reduce_over. apply (f_equal reduce).
    rewrite fmap_indices_1. cbn [weave].
    apply fmap_seq_ext. intros k Hk.
    erewrite getv_fresh_app0; cycle 1.
    + cbn [nth]. reflexivity.
    + apply elem_of_indices. repeat (constructor; try lia).
    + cbv beta. rewrite getv_X2_bcast, getv_C2 by done. f_equal.
      rewrite (getv_unsq3 _ _ _ _ B N K D e0 e1 e2) by done.
      erewrite getv_fresh_app; cycle 1.
      * cbn [nth]. reflexivity.
      * apply elem_of_indices. repeat (constructor; try lia).
      * cbv beta. unfold G_val. rewrite !getv_app_l by done. f_equal.
        by apply getv_S1.
Qed.
End broadcast_backward.

(** ** Operands on different devices *)

Section device_errors.
Context {F : Type} `{Scalar F} {Red : Reduction F}.
Implicit Types (h : heap F) (t : tensor).
Import ScaledL2.

Lemma binary_device o op a b h :
  is_cuda a ≠ is_cuda b → binary o op a b h = (Raise (DeviceError o), h).
Proof. intros Hd. unfold binary, same_device. by rewrite decide_False. Qed.

Lemma binary__device o op a b h :
  is_cuda a ≠ is_cuda b → binary_ o op a b h = (Raise (DeviceError o), h).
Proof. intros Hd. unfold binary_, same_device. by rewrite decide_False. Qed.

Lemma forward_device_C c X C S h B N Dx K D :
  sizes X = [B; N; Dx] → length (strides X) = 3 →
  sizes C = [K; D] → length (strides C) = 2 →
  Dx = D ∨ Dx = 1 → is_cuda C ≠ is_cuda X →
  forward c X C S h = (Raise (DeviceError OpSub), h).
Proof.
  intros HX HXs HC HCs HD HdC.
  destruct X as [nx bx szx stx dx], C as [nc bc szc stc dc].
  simpl in *. subst.
  destruct stx as [|x0 [|x1 [|x2 [|]]]]; try discriminate.
  destruct stc as [|c0 [|c1 [|]]]; try discriminate.
  unfold forward.
  erewrite bind_ok; [|by apply unsqueeze_run; unfold dim; simpl; lia].
  do 4 (erewrite bind_ok; [|by apply size_run]).
  cbn [sid base sizes strides is_cuda insert_at take drop app lookup list_lookup].
  erewrite bind_ok; [|by eapply expand_run4; eauto].
  erewrite bind_ok; [|by apply unsqueeze_run; unfold dim; simpl; lia].
  erewrite bind_ok; [|by apply unsqueeze_run; unfold dim; simpl; lia].
  cbn [sid base sizes strides is_cuda insert_at take drop app lookup list_lookup].
  erewrite bind_raise; [done|]. unfold sub. apply binary_device. simpl. congruence.
Qed.

Lemma forward_device_S c X C S h B N Dx K D :
  sizes X = [B; N; Dx] → length (strides X) = 3 →
  sizes C = [K; D] → length (strides C) = 2 →
  sizes S = [K] → length (strides S) = 1 →
  Dx = D ∨ Dx = 1 → is_cuda C = is_cuda X → is_cuda S ≠ is_cuda X →
  ∃ new, length new = 2 ∧
    forward c X C S h = (Raise (DeviceError OpMul_), h ++ new).
Proof.
  intros HX HXs HC HCs HS HSs HD HdC HdS.
  destruct X as [nx bx szx stx dx], C as [nc bc szc stc dc], S as [ns bs szs sts ds].
  simpl in *. subst.
  destruct stx as [|x0 [|x1 [|x2 [|]]]]; try discriminate.
  destruct stc as [|c0 [|c1 [|]]]; try discriminate.
  destruct sts as [|s0 [|]]; try discriminate.
  destruct (view_run_1d (F:=F) (Tensor ns bs [K] [s0] ds) K s0 eq_refl eq_refl)
    as (q0 & q1 & q2 & Hview & Hq).
  unfold forward.
  erewrite bind_ok; [|by apply unsqueeze_run; unfold dim; simpl; lia].
  do 4 (erewrite bind_ok; [|by apply size_run]).
  cbn [sid base sizes strides is_cuda insert_at take drop app lookup list_lookup].
  erewrite bind_ok; [|by eapply expand_run4; eauto].
  erewrite bind_ok; [|by apply unsqueeze_run; unfold dim; simpl; lia].
  erewrite bind_ok; [|by apply unsqueeze_run; unfold dim; simpl; lia].
  cbn [sid base sizes strides is_cuda insert_at take drop app lookup list_lookup].
  unfold sub.
  erewrite bind_ok; cycle 1.
  { eapply binary_run; [done|done| |by eapply expand_run4; eauto|by eapply expand_run4; eauto].
    simpl. repeat (constructor; try lia). }
  cbn [sid base sizes strides is_cuda].
  unfold pow_.
  erewrite bind_ok; cycle 1.
  { apply unary__fresh. by rewrite storage_middle. }
  rewrite insert_middle.
  erewrite bind_ok; cycle 1.
  { eapply (sum_run _ [3] [B; N; K; D] [false; false; false; true]); try done.
    repeat constructor; simpl; lia. apply NoDup_singleton. }
  rewrite length_app, <- app_assoc.
  cbn [sid base sizes strides is_cuda length app pick Bool.eqb fresh].
  erewrite bind_ok; [|by apply size_run].
  erewrite bind_ok; [|by apply Hview].
  erewrite bind_raise; cycle 1.
  { unfold mul_. apply binary__device. simpl. congruence. }
  eexists. split; [|done]. done.
Qed.
End device_errors.

(** ** An output gradient of the wrong shape *)

Section gradient_shape.
Context {F : Type} `{Scalar F} {Red : Reduction F}.
Implicit Types (h : heap F) (t : tensor).
Import ScaledL2.

Lemma backward_K_mismatch c X C S SL GSL h B N K K' D :
  saved_variables c = [X; C; S; SL] →
  sizes X = [B; N; D] → length (strides X) = 3 →
  sizes C = [K; D] → length (strides C) = 2 →
  sizes S = [K] → length (strides S) = 1 →
  sizes GSL = [B; N; K'] →
  is_cuda C = is_cuda X → is_cuda S = is_cuda X → is_cuda GSL = is_cuda X →
  K' ≠ K →
  ∃ new, length new = 2 ∧
    backward c GSL h = (Raise (ShapeError OpMul_), h ++ new).
Proof.
  intros Hc HX HXs HC HCs HS HSs HG HdC HdS HdG HK.
  destruct X as [nx bx szx stx dx], C as [nc bc szc stc dc], S as [ns bs szs sts ds],
    GSL as [ng bg szg stg dg].
  simpl in *. subst.
  destruct stx as [|x0 [|x1 [|x2 [|]]]]; try discriminate.
  destruct stc as [|c0 [|c1 [|]]]; try discriminate.
  destruct sts as [|s0 [|]]; try discriminate.
  destruct (view_run_1d (F:=F) (Tensor ns bs [K] [s0] dx) K s0 eq_refl eq_refl)
    as (q0 & q1 & q2 & Hview & Hq).
  unfold backward. rewrite Hc.
  erewrite bind_ok; [|by apply unsqueeze_run; unfold dim; simpl; lia].
  do 4 (erewrite bind_ok; [|by apply size_run]).
  cbn [sid base sizes strides is_cuda insert_at take drop app lookup list_lookup].
  erewrite bind_ok; [|by eapply expand_run4; eauto].
  erewrite bind_ok; [|by apply unsqueeze_run; unfold dim; simpl; lia].
  erewrite bind_ok; [|by apply unsqueeze_run; unfold dim; simpl; lia].
  cbn [sid base sizes strides is_cuda insert_at take drop app lookup list_lookup].
  unfold sub.
  erewrite bind_ok; cycle 1.
  { eapply binary_run; [done|done| |by eapply expand_run4; eauto|by eapply expand_run4; eauto].
    simpl. repeat (constructor; try lia). }
  cbn [sid base sizes strides is_cuda].
  erewrite bind_ok; [|by apply rmul_run].
  rewrite length_app, <- app_assoc.
  cbn [sid base sizes strides is_cuda length app].
  erewrite bind_ok; [|by apply size_run].
  erewrite bind_ok; [|by apply Hview].
  cbn [sid base sizes strides is_cuda].
  destruct (decide (K = 1)) as [->|HK1].
  - (* the scale broadcasts; the residual then refuses the wider factor *)
    unfold mul_ at 1.
    erewrite bind_ok; cycle 1.
    { eapply (binary__fresh _ _ _ (length h + 1)).
      - rewrite (storage_app_r h _ 1). cbn [nth]. reflexivity.
      - done.
      - simpl. repeat (constructor; try lia).
      - by eapply expand_run3; eauto. }
    rewrite (insert_app_r h _ 1). cbn [insert list_insert].
    cbn [sid base sizes strides is_cuda length app].
    erewrite bind_ok; [|by apply unsqueeze_run; unfold dim; simpl; lia].
    cbn [fresh sid base sizes strides is_cuda insert_at lookup list_lookup].
    cbn [take drop app].
    erewrite bind_raise; cycle 1.
    { unfold mul_, binary_, same_device. cbn [is_cuda sizes].
      rewrite decide_True by done.
      erewrite bind_ok; [|reflexivity].
      erewrite bind_ok; cycle 1.
      { unfold infer_size.
        cbn [sizes fresh insert_at take drop rev app infer_size_rev].
        rewrite !(decide_True (P := _ ∨ _)) by auto.
        cbn [fmap option_fmap option_map].
        rewrite (decide_True (P := 1 = 1)) by done. reflexivity. }
      rewrite decide_False; [reflexivity|].
      cbn [sizes fresh rev app]. intros E. injection E as _ _ E _. done. }
    eexists. split; [|done]. done.
  - destruct (decide (K' = 1)) as [->|HK'1].
    + erewrite bind_raise; cycle 1.
      { unfold mul_, binary_, same_device. cbn [is_cuda sizes fresh].
        rewrite decide_True by done.
        erewrite bind_ok; [|reflexivity].
        erewrite bind_ok; cycle 1.
        { unfold infer_size.
          cbn [sizes fresh insert_at take drop rev app infer_size_rev].
          rewrite !(decide_True (P := _ ∨ _)) by auto.
          cbn [fmap option_fmap option_map].
          rewrite (decide_True (P := 1 = 1)) by done. reflexivity. }
        rewrite decide_False; [reflexivity|].
        cbn [sizes fresh rev app]. intros E. injection E as _ _ E. done. }
      eexists. split; [|done]. done.
    + erewrite bind_raise; cycle 1.
      { unfold mul_, binary_, same_device. cbn [is_cuda sizes fresh].
        rewrite decide_True by done.
        erewrite bind_ok; [|reflexivity].
        erewrite bind_raise; [reflexivity|].
        unfold infer_size.
        cbn [sizes fresh insert_at take drop rev app infer_size_rev].
        rewrite decide_False by lia. reflexivity. }
      eexists. split; [|done]. done.
Qed.
End gradient_shape.

(** ** What a call can do to the heap, whatever its arguments *)

Section frame_steps.
Context {F : Type} `{Scalar F} {Red : Reduction F}.
Implicit Types (h : heap F) (t : tensor).

Lemma size_keeps t d : keeps (F:=F) (size t d).
Proof.
  intros h. unfold size. destruct (sizes t !! d); [left; eauto|right].
  eexists. split; [done|]. done.
Qed.

Lemma unsqueeze_keeps t d : keeps (F:=F) (unsqueeze t d).
Proof.
  intros h. unfold unsqueeze. case_decide; [left; eauto|right].
  eexists. split; [done|]. done.
Qed.

Lemma expand_keeps t sz : keeps (F:=F) (expand t sz).
Proof.
  intros h. unfold expand. destruct (expand_rev _ _ _); [left; eauto|right].
  eexists. split; [done|]. done.
Qed.

Lemma view_keeps t sz : keeps (F:=F) (view t sz).
Proof.
  intros h. unfold view. case_decide.
  - destruct (compute_stride _ _ _); [left; eauto|right].
    eexists. split; [done|]. done.
  - right. eexists. split; [done|]. done.
Qed.

Lemma same_device_keeps o a b : keeps (F:=F) (same_device o a b).
Proof.
  intros h. unfold same_device. case_decide; [left; eauto|right].
  eexists. split; [done|]. done.
Qed.

Lemma infer_size_keeps o a b : keeps (F:=F) (infer_size o a b).
Proof.
  intros h. unfold infer_size. destruct (infer_size_rev _ _); [left; eauto|right].
  eexists. split; [done|]. done.
Qed.

(** An out-of-place operator fails before it allocates, or returns a
    tensor in a storage of its own. *)
Lemma binary_allocates o op a b h :
  (∃ sz d, binary o op a b h = (Ok (fresh (length h) sz (is_cuda a)), h ++ [d]))
  ∨ (∃ e, binary o op a b h = (Raise e, h) ∧ ∀ o', e ≠ OverlapError o').
Proof.
  unfold binary.
  destruct (same_device_keeps o a b h) as [[? E]|(e & E & He)];
    [rewrite (bind_ok _ _ _ _ _ E)|rewrite (bind_raise _ _ _ _ _ E); eauto].
  destruct (infer_size_keeps o (sizes a) (sizes b) h) as [[sz E1]|(e & E1 & He)];
    [rewrite (bind_ok _ _ _ _ _ E1)|rewrite (bind_raise _ _ _ _ _ E1); eauto].
  destruct (expand_keeps a sz h) as [[a' E2]|(e & E2 & He)];
    [rewrite (bind_ok _ _ _ _ _ E2)|rewrite (bind_raise _ _ _ _ _ E2); eauto].
  destruct (expand_keeps b sz h) as [[b' E3]|(e & E3 & He)];
    [rewrite (bind_ok _ _ _ _ _ E3)|rewrite (bind_raise _ _ _ _ _ E3); eauto].
  left. eexists _, _. reflexivity.
Qed.

Lemma sum_allocates t dims h :
  (∃ sz d, sum t dims h = (Ok (fresh (length h) sz (is_cuda t)), h ++ [d]))
  ∨ (∃ e, sum t dims h = (Raise e, h) ∧ ∀ o', e ≠ OverlapError o').
Proof.
  unfold sum. case_decide.
  - left. eexists _, _. reflexivity.
  - right. eexists. split; [done|]. done.
Qed.

(** An in-place operator on a tensor that owns its storage writes that
    storage and no other. *)
Lemma unary__writes o op n sz dev h :
  ∃ d, unary_ o op (fresh n sz dev) h = (Ok (fresh n sz dev), <[n := d]> h).
Proof.
  unfold unary_. rewrite has_internal_overlap_fresh. eexists. reflexivity.
Qed.

Lemma binary__writes o op n sz dev other h :
  (∃ d, binary_ o op (fresh n sz dev) other h = (Ok (fresh n sz dev), <[n := d]> h))
  ∨ (∃ e, binary_ o op (fresh n sz dev) other h = (Raise e, h)
          ∧ ∀ o', e ≠ OverlapError o').
Proof.
  unfold binary_.
  destruct (same_device_keeps o (fresh n sz dev) other h) as [[? E]|(e & E & He)];
    [rewrite (bind_ok _ _ _ _ _ E)|rewrite (bind_raise _ _ _ _ _ E); eauto].
  destruct (infer_size_keeps o (sizes (fresh n sz dev)) (sizes other) h)
    as [[sz' E1]|(e & E1 & He)];
    [rewrite (bind_ok _ _ _ _ _ E1)|rewrite (bind_raise _ _ _ _ _ E1); eauto].
  case_decide; [|right; eexists; split; [done|]; done].
  rewrite has_internal_overlap_fresh.
  destruct (expand_keeps other sz' h) as [[b' E3]|(e & E3 & He)];
    [rewrite (bind_ok _ _ _ _ _ E3)|rewrite (bind_raise _ _ _ _ _ E3); eauto].
  left. eexists. reflexivity.
Qed.

Lemma framed_raise {A} h0 n new e :
  length new ≤ n → (∀ o, e ≠ OverlapError o) →
  framed (A:=A) h0 n (Raise e, h0 ++ new).
Proof.
  intros Hn He. exists new. split; [done|]. split; [done|].
  intros o [= ->]. by eapply He.
Qed.

Lemma framed_raise0 {A} h0 n e :
  (∀ o, e ≠ OverlapError o) → framed (A:=A) h0 n (Raise e, h0).
Proof.
  intros He. exists []. rewrite app_nil_r. split; [done|]. split; [simpl; lia|].
  intros o [= ->]. by eapply He.
Qed.

Lemma framed_ok {A} h0 n new (a : A) :
  length new ≤ n → framed h0 n (Ok a, h0 ++ new).
Proof. intros Hn. exists new. split; [done|]. split; [done|]. done. Qed.
End frame_steps.

Ltac framed_fail He :=
  first [ by apply framed_raise0
        | by apply framed_raise; [simpl; lia | exact He] ].

Ltac framed_pure L :=
  let a := fresh "a" in let e := fresh "e" in
  let E := fresh "E" in let He := fresh "He" in
  destruct L as [[a E]|(e & E & He)];
  [ rewrite (bind_ok _ _ _ _ _ E)
  | rewrite (bind_raise _ _ _ _ _ E); framed_fail He ].

Ltac framed_alloc L :=
  let sz := fresh "sz" in let d := fresh "d" in let e := fresh "e" in
  let E := fresh "E" in let He := fresh "He" in
  destruct L as [(sz & d & E)|(e & E & He)];
  [ rewrite (bind_ok _ _ _ _ _ E)
  | rewrite (bind_raise _ _ _ _ _ E); framed_fail He ].

Ltac framed_write L :=
  let d := fresh "d" in let e := fresh "e" in
  let E := fresh "E" in let He := fresh "He" in
  destruct L as [(d & E)|(e & E & He)];
  [ rewrite (bind_ok _ _ _ _ _ E)
  | rewrite (bind_raise _ _ _ _ _ E); framed_fail He ].

Ltac framed_step :=
  lazymatch goal with
  | |- framed _ _ (bind (size ?t ?d) _ ?h) => framed_pure (size_keeps t d h)
  | |- framed _ _ (bind (unsqueeze ?t ?d) _ ?h) => framed_pure (unsqueeze_keeps t d h)
  | |- framed _ _ (bind (expand ?t ?sz) _ ?h) => framed_pure (expand_keeps t sz h)
  | |- framed _ _ (bind (view ?t ?sz) _ ?h) => framed_pure (view_keeps t sz h)
  | |- framed _ _ (bind (sub ?a ?b) _ ?h) =>
      unfold sub at 1; framed_alloc (binary_allocates OpSub fsub a b h)
  | |- framed _ _ (bind (div ?a ?b) _ ?h) =>
      unfold div at 1; framed_alloc (binary_allocates OpDiv fdiv a b h)
  | |- framed _ _ (bind (sum ?t ?dims) _ ?h) => framed_alloc (sum_allocates t dims h)
  | |- framed _ _ (bind (rmul ?z ?t) _ ?h) => rewrite (bind_ok _ _ _ _ _ (rmul_run z t h))
  | |- framed _ _ (bind (pow_ (fresh ?n ?sz ?dev) ?k) _ ?h) =>
      let d := fresh "d" in let E := fresh "E" in
      unfold pow_ at 1;
      destruct (unary__writes OpPow_ (λ x, fpow x k) n sz dev h) as [d E];
      rewrite (bind_ok _ _ _ _ _ E)
  | |- framed _ _ (bind (mul_ (fresh ?n ?sz ?dev) (Num ?z)) _ ?h) =>
      let d := fresh "d" in let E := fresh "E" in
      unfold mul_ at 1;
      destruct (unary__writes OpMul_ (λ x, fmul x (of_int z)) n sz dev h) as [d E];
      rewrite (bind_ok _ _ _ _ _ E)
  | |- framed _ _ (bind (mul_ (fresh ?n ?sz ?dev) (Tens ?o)) _ ?h) =>
      unfold mul_ at 1; framed_write (binary__writes OpMul_ fmul n sz dev o h)
  end.

Section frame_calls.
Context {F : Type} `{Scalar F} {Red : Reduction F}.
Implicit Types (h : heap F) (t : tensor).
Import ScaledL2.

Lemma forward_framed c X C S h : framed h 2 (forward c X C S h).
Proof.
  unfold forward.
  do 10 framed_step. rewrite insert_middle.
  framed_step. rewrite length_app, <- app_assoc. cbn [length app].
  do 3 framed_step.
  rewrite (insert_app_r h _ 1). cbn [insert list_insert].
  apply framed_ok. simpl. lia.
Qed.

Lemma backward_framed c GSL h : framed h 6 (backward c GSL h).
Proof.
  unfold backward.
  destruct (saved_variables c) as [|X [|C [|S [|SL [|]]]]];
    try (by apply framed_raise0).
  do 9 framed_step.
  framed_step. rewrite length_app, <- app_assoc. cbn [length app].
  do 3 framed_step. rewrite (insert_app_r h _ 1). cbn [insert list_insert].
  do 2 framed_step. rewrite insert_middle.
  framed_step. rewrite length_app, <- app_assoc. cbn [length app].
  framed_step. rewrite length_app, <- app_assoc. cbn [length app].
  framed_step. rewrite (insert_app_r h _ 3). cbn [insert list_insert].
  do 3 framed_step. rewrite length_app, <- app_assoc. cbn [length app].
  framed_step. rewrite (insert_app_r h _ 4). cbn [insert list_insert].
  framed_step. rewrite <- app_assoc. cbn [app].
  apply framed_ok. simpl. lia.
Qed.
End frame_calls.

(** ** NaN in the squared distance *)

Lemma b64_sub_nan_l (y : binary64) : fsub S754_nan y = S754_nan.
Proof. done. Qed.

Lemma b64_sub_nan_r (x : binary64) : fsub x S754_nan = S754_nan.
Proof. by destruct x. Qed.

Lemma b64_mul_nan_r (x : binary64) : fmul x S754_nan = S754_nan.
Proof. by destruct x. Qed.

Lemma b64_sqdist_nan {Red : Reduction binary64} (h : heap binary64) X C D b i k d :
  d < D →
  getv h X [b; i; d] = S754_nan ∨ getv h C [k; d] = S754_nan →
  sqdist h X C D b i k = S754_nan.
Proof.
  intros Hd Hnan. unfold sqdist. apply b64_reduce_nan.
  apply list_elem_of_fmap. exists d. split.
  - destruct Hnan as [-> | ->].
    + by rewrite b64_sub_nan_l.
    + by rewrite b64_sub_nan_r.
  - apply elem_of_seq. lia.
Qed.

(** * The specification, claim by claim *)

(** C1.  For every [X] of shape (B,N,D), [C] of shape (K,D) and [S] of
    shape (K), [scaled_l2(X, C, S)] returns a tensor [SL] of shape (B,N,K)
    with [SL[b,i,k] = S[k] * sum over d of (X[b,i,d] - C[k,d])^2] for every
    [b], [i], [k]: in every arithmetic whose multiplication commutes, with
    the sum as the library's reduction adds it up, in the order and
    grouping it chooses; in exact arithmetic, with the sum as such; and in
    binary64, on [X = [[[2.0]]]], [C = [[0.0]]], [S = [2.0]], the result is
    [[[[8.0]]]] whatever the reduction. *)
Theorem scaled_l2_forward_value :
  (∀ (F : Type) `(MulComm F) (Red : Reduction F)
     (h : heap F) (X C S : tensor) (B N K D : nat),
      input h X [B; N; D] → input h C [K; D] → input h S [K] →
      one_device [X; C; S] →
      ∃ SL h',
        scaled_l2 X C S h = (Ok SL, h') ∧ sizes SL = [B; N; K] ∧
        ∀ b i k, b < B → i < N → k < K →
          getv h' SL [b; i; k]
          = fmul (getv h S [k])
              (reduce_over D
                 (λ d, fpow (fsub (getv h X [b; i; d]) (getv h C [k; d])) 2)))
  ∧ (∀ (F : Type) `(ExactArith F) (Red : Reduction F)
       (h : heap F) (X C S : tensor) (B N K D : nat),
      input h X [B; N; D] → input h C [K; D] → input h S [K] →
      one_device [X; C; S] →
      ∃ SL h',
        scaled_l2 X C S h = (Ok SL, h') ∧ sizes SL = [B; N; K] ∧
        ∀ b i k, b < B → i < N → k < K →
          getv h' SL [b; i; k]
          = fmul (getv h S [k])
              (sum_over D (λ d, fpow (fsub (getv h X [b; i; d]) (getv h C [k; d])) 2)))
  ∧ (∀ Red : Reduction binary64,
      ∃ SL h',
        scaled_l2 (fresh 0 [1; 1; 1] false) (fresh 1 [1; 1] false) (fresh 2 [1] false)
          [[f2_0]; [f0_0]; [f2_0]] = (Ok SL, h')
        ∧ sizes SL = [1; 1; 1] ∧ to_list h' SL = [f8_0]).
Proof.
  split; [|split].
  - intros F HF HM Red h X C S B N K D HX HC HS Hdev.
    destruct (scaled_l2_values X C S h B N K D HX HC HS Hdev)
      as (SL & h' & Hrun & Hsz & Hv).
    exists SL, h'. split; [done|]. split; [done|].
    intros b i k Hb Hi Hk. rewrite Hv by done. apply fmul_comm.
  - intros F HF HE Red h X C S B N K D HX HC HS Hdev.
    destruct (scaled_l2_values X C S h B N K D HX HC HS Hdev)
      as (SL & h' & Hrun & Hsz & Hv).
    exists SL, h'. split; [done|]. split; [done|].
    intros b i k Hb Hi Hk. rewrite Hv by done. unfold sqdist. rewrite reduce_fsum.
    apply fmul_comm.
  - intros Red.
    pose proof (forward_ok (Ctx [] []) (fresh 0 [1; 1; 1] false) (fresh 1 [1; 1] false)
                  (fresh 2 [1] false) [[f2_0]; [f0_0]; [f2_0]] 1 1 1 1
                  (conj eq_refl eq_refl) (conj eq_refl eq_refl) (conj eq_refl eq_refl)
                  eq_refl) as Hfw.
    eexists _, _. split; [exact (scaled_l2_ok _ _ _ _ _ _ _ Hfw)|].
    split; [reflexivity|].
    erewrite (to_list_fresh_app _ _ 1); [|unfold SL_data; reflexivity].
    change (indices [1; 1; 1]) with [[0; 0; 0]]. cbn [fmap list_fmap].
    unfold sqdist. cbn [seq fmap list_fmap].
    rewrite reduce_one; [vm_compute; reflexivity|reflexivity|].
    split; vm_compute; reflexivity.
Qed.

(** C1 at [X] of shape (1,2,3), [C] of shape (2,3), [S] of shape (2), over
    the rationals. *)
Lemma scaled_l2_forward_value_witness :
  ∃ SL h',
    scaled_l2 Xq Cq Sq hq = (Ok SL, h') ∧ sizes SL = [1; 2; 2] ∧
    ∀ b i k, b < 1 → i < 2 → k < 2 →
      getv h' SL [b; i; k]
      = fmul (getv hq Sq [k])
          (sum_over 3 (λ d, fpow (fsub (getv hq Xq [b; i; d]) (getv hq Cq [k; d])) 2)).
Proof.
  apply (proj1 (proj2 scaled_l2_forward_value) Qc _ _ _ hq Xq Cq Sq 1 2 2 3);
    [split; reflexivity | split; reflexivity | split; reflexivity | reflexivity].
Defined.

(** C2.  For valid [X] (B,N,D), [C] (K,D), [S] (K) retained in the context
    and an output gradient [GSL] (B,N,K), [ScaledL2.backward] returns [GX] of
    shape (B,N,D) with
    [GX[b,i,d] = sum over k of 2 * GSL[b,i,k] * S[k] * (X[b,i,d] - C[k,d])]
    and [GC] of shape (K,D) with
    [GC[k,d] = - sum over b, i of 2 * GSL[b,i,k] * S[k] * (X[b,i,d] - C[k,d])]:
    in every arithmetic whose multiplication commutes and in which
    multiplying by [-1] negates, with the sums as the library's reduction
    adds them up, in the order and grouping it chooses; and in exact
    arithmetic, with the sums as such. *)
Theorem scaled_l2_backward_GX_GC :
  (∀ (F : Type) `(MulComm F) (HN : MulNegOne F) (Red : Reduction F)
     (h : heap F) (c : ctx) (X C S SL GSL : tensor) (B N K D : nat),
      saved_variables c = [X; C; S; SL] →
      input h X [B; N; D] → input h C [K; D] → input h S [K] →
      input h SL [B; N; K] → input h GSL [B; N; K] →
      one_device [X; C; S; SL; GSL] →
      ∃ GX GC GS h',
        ScaledL2.backward c GSL h = (Ok (GX, GC, GS), h') ∧
        sizes GX = [B; N; D] ∧ sizes GC = [K; D] ∧
        (∀ b i d, b < B → i < N → d < D →
           getv h' GX [b; i; d]
           = reduce_over K (λ k,
               fmul (fmul (fmul (of_int 2) (getv h GSL [b; i; k])) (getv h S [k]))
                    (fsub (getv h X [b; i; d]) (getv h C [k; d])))) ∧
        (∀ k d, k < K → d < D →
           getv h' GC [k; d]
           = fneg (reduce_over2 B N (λ b i,
               fmul (fmul (fmul (of_int 2) (getv h GSL [b; i; k])) (getv h S [k]))
                    (fsub (getv h X [b; i; d]) (getv h C [k; d]))))))
  ∧ (∀ (F : Type) `(ExactArith F) (Red : Reduction F)
       (h : heap F) (c : ctx) (X C S SL GSL : tensor) (B N K D : nat),
      saved_variables c = [X; C; S; SL] →
      input h X [B; N; D] → input h C [K; D] → input h S [K] →
      input h SL [B; N; K] → input h GSL [B; N; K] →
      one_device [X; C; S; SL; GSL] →
      ∃ GX GC GS h',
        ScaledL2.backward c GSL h = (Ok (GX, GC, GS), h') ∧
        sizes GX = [B; N; D] ∧ sizes GC = [K; D] ∧
        (∀ b i d, b < B → i < N → d < D →
           getv h' GX [b; i; d]
           = sum_over K (λ k,
               fmul (fmul (fmul (of_int 2) (getv h GSL [b; i; k])) (getv h S [k]))
                    (fsub (getv h X [b; i; d]) (getv h C [k; d])))) ∧
        (∀ k d, k < K → d < D →
           getv h' GC [k; d]
           = fneg (sum_over2 B N (λ b i,
               fmul (fmul (fmul (of_int 2) (getv h GSL [b; i; k])) (getv h S [k]))
                    (fsub (getv h X [b; i; d]) (getv h C [k; d])))))).
Proof.
  assert (∀ (F : Type) `(MulComm F) (HN : MulNegOne F) (Red : Reduction F)
            (h : heap F) (c : ctx) (X C S SL GSL : tensor) (B N K D : nat),
      saved_variables c = [X; C; S; SL] →
      input h X [B; N; D] → input h C [K; D] → input h S [K] →
      input h SL [B; N; K] → input h GSL [B; N; K] →
      one_device [X; C; S; SL; GSL] →
      ∃ GX GC GS h',
        ScaledL2.backward c GSL h = (Ok (GX, GC, GS), h') ∧
        sizes GX = [B; N; D] ∧ sizes GC = [K; D] ∧
        (∀ b i d, b < B → i < N → d < D →
           getv h' GX [b; i; d]
           = reduce_over K (λ k,
               fmul (fmul (fmul (of_int 2) (getv h GSL [b; i; k])) (getv h S [k]))
                    (fsub (getv h X [b; i; d]) (getv h C [k; d])))) ∧
        (∀ k d, k < K → d < D →
           getv h' GC [k; d]
           = fneg (reduce_over2 B N (λ b i,
               fmul (fmul (fmul (of_int 2) (getv h GSL [b; i; k])) (getv h S [k]))
                    (fsub (getv h X [b; i; d]) (getv h C [k; d])))))) as Hgen.
  { intros F HF HM HN Red h c X C S SL GSL B N K D Hc HX HC HS HSL HG Hdev.
    destruct (backward_values c X C S SL GSL h B N K D Hc HX HC HS HSL HG Hdev)
      as (GX & GC & GS & h' & Hrun & HsX & HsC & _ & HGX & HGC & _).
    exists GX, GC, GS, h'. split; [done|]. split; [done|]. split; [done|]. split.
    - intros b i d Hb Hi Hd. rewrite HGX by done. apply reduce_over_ext.
      intros k _. unfold tmp_val, G_val.
      rewrite (fmul_comm (getv h GSL [b; i; k])). apply fmul_comm.
    - intros k d Hk Hd. rewrite HGC by done. rewrite fmul_neg_one. f_equal.
      apply reduce_over2_ext. intros b i _ _. unfold tmp_val, G_val.
      rewrite (fmul_comm (getv h GSL [b; i; k])). apply fmul_comm. }
  split; [exact Hgen|].
  intros F HF HE Red h c X C S SL GSL B N K D Hc HX HC HS HSL HG Hdev.
  destruct (Hgen F HF _ _ Red h c X C S SL GSL B N K D Hc HX HC HS HSL HG Hdev)
    as (GX & GC & GS & h' & Hrun & HsX & HsC & HGX & HGC).
  exists GX, GC, GS, h'. repeat (split; [done|]). split.
  - intros b i d Hb Hi Hd. by rewrite HGX, reduce_over_exact.
  - intros k d Hk Hd. by rewrite HGC, reduce_over2_exact.
Qed.

(** C2 on the heap left by [scaled_l2] over the rationals. *)
Lemma scaled_l2_backward_GX_GC_witness :
  ∃ GX GC GS h',
    ScaledL2.backward cq GSLq hq1 = (Ok (GX, GC, GS), h') ∧
    sizes GX = [1; 2; 3] ∧ sizes GC = [2; 3] ∧
    (∀ b i d, b < 1 → i < 2 → d < 3 →
       getv h' GX [b; i; d]
       = sum_over 2 (λ k,
           fmul (fmul (fmul (of_int 2) (getv hq1 GSLq [b; i; k])) (getv hq1 Sq [k]))
                (fsub (getv hq1 Xq [b; i; d]) (getv hq1 Cq [k; d])))) ∧
    (∀ k d, k < 2 → d < 3 →
       getv h' GC [k; d]
       = fneg (sum_over2 1 2 (λ b i,
           fmul (fmul (fmul (of_int 2) (getv hq1 GSLq [b; i; k])) (getv hq1 Sq [k]))
                (fsub (getv hq1 Xq [b; i; d]) (getv hq1 Cq [k; d]))))).
Proof.
  apply (proj2 scaled_l2_backward_GX_GC Qc _ _ _ hq1 cq Xq Cq Sq SLq GSLq 1 2 2 3);
    [reflexivity | split; reflexivity | split; reflexivity | split; reflexivity
    | split; reflexivity | split; reflexivity | reflexivity].
Defined.

(** C3.  For valid [X], [C], [S], the forward call returns, and for every
    output gradient [GSL] of shape (B,N,K) the backward call on the context
    of that forward call returns [GS] of shape (K) with
    [GS[k] = sum over b, i of (SL[b,i,k] / S[k]) * GSL[b,i,k]], where [SL] is
    the output the forward call retained: in every arithmetic, with the sum
    as the library's reduction adds it up, in the order and grouping it
    chooses; and in exact arithmetic, with the sum as such.  Nothing is
    assumed of the values of [S]: the division is performed whatever [S[k]]
    is. *)
Theorem scaled_l2_backward_GS :
  (∀ (F : Type) `(Reduction F)
     (h : heap F) (c : ctx) (X C S : tensor) (B N K D : nat),
      input h X [B; N; D] → input h C [K; D] → input h S [K] →
      one_device [X; C; S] →
      ∃ c' SL h1,
        ScaledL2.forward c X C S h = (Ok (c', SL), h1) ∧
        ∀ GSL, input h1 GSL [B; N; K] → is_cuda GSL = is_cuda X →
          ∃ GX GC GS h2,
            ScaledL2.backward c' GSL h1 = (Ok (GX, GC, GS), h2) ∧
            sizes GS = [K] ∧
            ∀ k, k < K →
              getv h2 GS [k]
              = reduce_over2 B N (λ b i,
                  fmul (fdiv (getv h1 SL [b; i; k]) (getv h S [k]))
                       (getv h1 GSL [b; i; k])))
  ∧ (∀ (F : Type) `(ExactArith F) (Red : Reduction F)
       (h : heap F) (c : ctx) (X C S : tensor) (B N K D : nat),
      input h X [B; N; D] → input h C [K; D] → input h S [K] →
      one_device [X; C; S] →
      ∃ c' SL h1,
        ScaledL2.forward c X C S h = (Ok (c', SL), h1) ∧
        ∀ GSL, input h1 GSL [B; N; K] → is_cuda GSL = is_cuda X →
          ∃ GX GC GS h2,
            ScaledL2.backward c' GSL h1 = (Ok (GX, GC, GS), h2) ∧
            sizes GS = [K] ∧
            ∀ k, k < K →
              getv h2 GS [k]
              = sum_over2 B N (λ b i,
                  fmul (fdiv (getv h1 SL [b; i; k]) (getv h S [k]))
                       (getv h1 GSL [b; i; k]))).
Proof.
  split.
  - intros F HF Red h c X C S B N K D HX HC HS Hdev.
    destruct (paired_backward_GS c X C S h B N K D HX HC HS Hdev)
      as (c' & SL & h1 & Hfw & _ & Hbw).
    by exists c', SL, h1.
  - intros F HF HE Red h c X C S B N K D HX HC HS Hdev.
    destruct (paired_backward_GS c X C S h B N K D HX HC HS Hdev)
      as (c' & SL & h1 & Hfw & _ & Hbw).
    exists c', SL, h1. split; [done|]. intros GSL HG HdG.
    destruct (Hbw GSL HG HdG) as (GX & GC & GS & h2 & Hrun & Hsz & HGS).
    exists GX, GC, GS, h2. split; [done|]. split; [done|].
    intros k Hk. by rewrite HGS, reduce_over2_exact.
Qed.

(** C3 over the rationals: the forward call on [hq], then the backward call
    with the gradient [GSLq]. *)
Lemma scaled_l2_backward_GS_witness :
  ∃ GX GC GS h2,
    ScaledL2.backward cq GSLq hq1 = (Ok (GX, GC, GS), h2) ∧ sizes GS = [2] ∧
    ∀ k, k < 2 →
      getv h2 GS [k]
      = sum_over2 1 2 (λ b i,
          fmul (fdiv (getv hq1 SLq [b; i; k]) (getv hq Sq [k])) (getv hq1 GSLq [b; i; k])).
Proof.
  destruct (proj2 scaled_l2_backward_GS Qc _ _ _ hq (Ctx [] []) Xq Cq Sq 1 2 2 3)
    as (c' & SL & h1 & Hfw & Hbw);
    [split; reflexivity | split; reflexivity | split; reflexivity | reflexivity |].
  vm_compute in Hfw. injection Hfw as <- <- <-.
  apply (Hbw GSLq); [split; reflexivity | reflexivity].
Defined.

(** C4.  With the kernels of the spec, for every [A] of shape (B,N,K), [X]
    of shape (B,N,D) and [C] of shape (K,D), [aggregate(A, X, C)] returns a
    tensor [E] of shape (B,K,D) with
    [E[b,k,d] = sum over i of A[b,i,k] * (X[b,i,d] - C[k,d])]; and in
    binary64, on [A = [[0.5],[0.5]]], [X = [[1.0],[3.0]]], [C = [[0.0]]], the
    result is [[[[2.0]]]]. *)
Theorem aggregate_forward_value :
  (∀ (F : Type) `(Scalar F) (h : heap F) (A X C : tensor) (B N K D : nat),
      input h A [B; N; K] → input h X [B; N; D] → input h C [K; D] →
      ∃ E h',
        aggregate spec_lib A X C h = (Ok E, h') ∧ sizes E = [B; K; D] ∧
        ∀ b k d, b < B → k < K → d < D →
          getv h' E [b; k; d]
          = sum_over N (λ i, fmul (getv h A [b; i; k])
                                  (fsub (getv h X [b; i; d]) (getv h C [k; d]))))
  ∧ (∃ E h',
        aggregate spec_lib (fresh 0 [1; 2; 1] false) (fresh 1 [1; 2; 1] false)
          (fresh 2 [1; 1] false) [[f0_5; f0_5]; [f1_0; f3_0]; [f0_0]] = (Ok E, h')
        ∧ sizes E = [1; 1; 1] ∧ to_list h' E = [f2_0]).
Proof.
  split.
  - intros F HF h A X C B N K D HA HX HC.
    assert (aggregate_forward (selected spec_lib A) = spec_aggregate_forward) as Hsel.
    { unfold selected. by destruct (is_cuda A). }
    unfold aggregate.
    erewrite bind_ok; cycle 1.
    { rewrite aggregate_forward_selected, Hsel.
      erewrite bind_ok; [reflexivity|].
      apply spec_aggregate_forward_run; eauto using input_sizes. }
    eexists _, _. split; [reflexivity|]. split; [reflexivity|].
    intros b k d Hb Hk Hd. cbn [snd].
    erewrite getv_fresh_app0; cycle 1.
    + unfold E_data. reflexivity.
    + apply elem_of_indices. repeat (constructor; try lia).
    + done.
  - eexists _, _. split; [vm_compute; reflexivity|]. split; reflexivity.
Qed.

(** C4 over the rationals, at the weights [A] of shape (1,2,2) in storage 3
    of [hq], [X] of shape (1,2,3) and [C] of shape (2,3). *)
Lemma aggregate_forward_value_witness :
  ∃ E h',
    aggregate spec_lib GSLq Xq Cq hq = (Ok E, h') ∧ sizes E = [1; 2; 3] ∧
    ∀ b k d, b < 1 → k < 2 → d < 3 →
      getv h' E [b; k; d]
      = sum_over 2 (λ i, fmul (getv hq GSLq [b; i; k])
                              (fsub (getv hq Xq [b; i; d]) (getv hq Cq [k; d]))).
Proof.
  apply (proj1 aggregate_forward_value Qc _ hq GSLq Xq Cq 1 2 2 3); split; reflexivity.
Defined.

(** C5.  In binary64, whatever the order in which the library adds up, on
    every valid input with at least one sample in which some [S[k]] is zero
    (of either sign), the forward and the backward call of [ScaledL2] both
    return, no exception is raised, and [GS[k]] is NaN, hence not a finite
    number: [SL[b,i,k]] is zero or NaN, and [SL[b,i,k] / S[k]] is NaN.  In
    particular there is such an input. *)
Theorem scaled_l2_zero_scale_not_finite {Red : Reduction binary64}
    (h : heap binary64) (X C S GSL : tensor) (B N K D k : nat) (s : bool) :
  input h X [B; N; D] → input h C [K; D] → input h S [K] → input h GSL [B; N; K] →
  one_device [X; C; S; GSL] →
  0 < B → 0 < N → k < K →
  getv h S [k] = S754_zero s →
  ∃ c SL h1 GX GC GS h2,
    ScaledL2.forward (Ctx [] []) X C S h = (Ok (c, SL), h1) ∧
    ScaledL2.backward c GSL h1 = (Ok (GX, GC, GS), h2) ∧
    getv h2 GS [k] = S754_nan ∧ is_finite (getv h2 GS [k]) = false.
Proof.
  intros HX HC HS HG Hdev HB HN Hk Hzero.
  assert (one_device [X; C; S] ∧ is_cuda GSL = is_cuda X) as [Hdev3 HdG].
  { unfold one_device in *. simpl in *. rewrite !andb_true_iff in *.
    destruct Hdev as (H1 & H2 & H3 & _). repeat split; try done.
    by apply Bool.eqb_prop. }
  destruct (paired_backward_GS (Ctx [] []) X C S h B N K D HX HC HS Hdev3)
    as (c & SL & h1 & Hfw & HSL & Hbw).
  assert (∃ new, h1 = h ++ new) as [new ->].
  { rewrite (forward_ok _ _ _ _ _ B N K D HX HC HS Hdev3) in Hfw.
    injection Hfw as _ _ <-. eauto. }
  destruct (Hbw GSL (input_app _ _ _ _ HG) HdG)
    as (GX & GC & GS & h2 & Hrun & _ & HGS).
  exists c, SL, (h ++ new), GX, GC, GS, h2. split; [done|]. split; [done|].
  assert (getv h2 GS [k] = S754_nan) as ->; [|done].
  rewrite HGS by done. unfold reduce_over2. apply b64_reduce_nan.
  apply list_elem_of_fmap. exists [0; 0]. split.
  - rewrite HSL, Hzero by done.
    rewrite b64_div_by_zero; [done|].
    destruct (b64_mul_zero (sqdist h X C D 0 0 k) s) as [E|[s' E]];
      [left | right; exists s']; exact E.
  - apply elem_of_indices. repeat (constructor; try lia).
Qed.

(** C5 at [X = [[[2.0]]]], [C = [[0.0]]], [S = [0.0]] and the gradient
    [[[[1.0]]]], adding up from left to right. *)
Lemma scaled_l2_zero_scale_not_finite_witness :
  ∃ c SL h1 GX GC GS h2,
    ScaledL2.forward (Red:=left_to_right) (Ctx [] []) (fresh 0 [1; 1; 1] false)
      (fresh 1 [1; 1] false) (fresh 2 [1] false) [[f2_0]; [f0_0]; [f0_0]; [f1_0]]
    = (Ok (c, SL), h1) ∧
    ScaledL2.backward (Red:=left_to_right) c (fresh 3 [1; 1; 1] false) h1
    = (Ok (GX, GC, GS), h2) ∧
    getv h2 GS [0] = S754_nan ∧ is_finite (getv h2 GS [0]) = false.
Proof.
  apply (scaled_l2_zero_scale_not_finite (Red:=left_to_right)
           [[f2_0]; [f0_0]; [f0_0]; [f1_0]]
           (fresh 0 [1; 1; 1] false) (fresh 1 [1; 1] false) (fresh 2 [1] false)
           (fresh 3 [1; 1; 1] false) 1 1 1 1 0 false);
    [split; reflexivity | split; reflexivity | split; reflexivity | split; reflexivity
    | reflexivity | lia | lia | lia | reflexivity].
Defined.

(** C6, as stated, fails: [X] of shape (1,1,1) and [C] of shape (1,2)
    disagree on the feature dimension, and [scaled_l2] returns a result,
    the same whatever the order in which the library adds the two squares
    up. *)
Lemma scaled_l2_accepts_mismatched_features :
  sizes (fresh 0 [1; 1; 1] false) = [1; 1; 1] ∧ sizes (fresh 1 [1; 2] false) = [1; 2] ∧
  sizes (fresh 2 [1] false) = [1] ∧
  ∀ Red : Reduction binary64,
    scaled_l2 (fresh 0 [1; 1; 1] false) (fresh 1 [1; 2] false) (fresh 2 [1] false)
      [[f2_0]; [f0_0; f1_0]; [f2_0]]
    = (Ok (fresh 4 [1; 1; 1] false),
       [[f2_0]; [f0_0; f1_0]; [f2_0]; [b64 4 0; f1_0]; [b64 10 0]]).
Proof.
  split; [reflexivity|]. split; [reflexivity|]. split; [reflexivity|].
  intros [red Hnil Hsums]. vm_compute. settle_sums red Hsums.
  vm_compute. reflexivity.
Qed.

(** C6, amended.  [aggregate] checks no shape itself: its outcome is the
    outcome of the kernel of the selected backend (with the kernels of the
    spec, a shape error before any storage is written).  [scaled_l2] fails
    with a shape error and an unchanged heap when the trailing dimension of
    [X] is neither that of [C] nor 1; when [S] does not hold one scale per
    codeword it fails with a shape error at [S.view], after two storages
    (the squared residuals and their sums) have been written; and a trailing
    dimension 1 of [X] is broadcast against the features of [C] without any
    error. *)
Theorem shape_mismatch_behaviour (F : Type) `(Reduction F) :
  (∀ (lib : library F) A X C (h : heap F),
      aggregate lib A X C h
      = aggregate_forward (if is_cuda A then gpu lib else cpu lib) A X C h)
  ∧ (∀ (h : heap F) A X C B N K B' N' D K' D',
      sizes A = [B; N; K] → sizes X = [B'; N'; D] → sizes C = [K'; D'] →
      ¬ (B = B' ∧ N = N' ∧ K = K' ∧ D = D') →
      aggregate spec_lib A X C h = (Raise (ShapeError OpAggregate), h))
  ∧ (∀ (h : heap F) X C S B N Dx K D,
      input h X [B; N; Dx] → sizes C = [K; D] → Dx ≠ D → Dx ≠ 1 →
      scaled_l2 X C S h = (Raise (ShapeError OpExpand), h))
  ∧ (∀ (h : heap F) X C S B N Dx K D,
      input h X [B; N; Dx] → input h C [K; D] → one_device [X; C] →
      Dx = D ∨ Dx = 1 → numel (sizes S) ≠ K →
      ∃ new, length new = 2 ∧
        scaled_l2 X C S h = (Raise (ShapeError OpView), h ++ new))
  ∧ (∀ (h : heap F) X C S B N Dx K D,
      input h X [B; N; Dx] → input h C [K; D] → input h S [K] →
      one_device [X; C; S] → Dx = D ∨ Dx = 1 →
      ∃ SL new, scaled_l2 X C S h = (Ok SL, h ++ new) ∧ sizes SL = [B; N; K]).
Proof.
  split; [|split; [|split; [|split]]].
  - intros lib A X C h. apply aggregate_is_kernel.
  - intros h A X C B N K B' N' D K' D' HA HX HC Hne.
    rewrite aggregate_is_kernel.
    exact (spec_aggregate_forward_mismatch A X C h _ _ _ _ _ _ _ _ HA HX HC Hne).
  - intros h X C S B N Dx K D HX HC Hne H1.
    apply scaled_l2_raise.
    by eapply forward_expand_mismatch;
      [exact (input_sizes _ _ _ HX) | exact (input_strides _ _ _ HX) | ..].
  - intros h X C S B N Dx K D HX HC Hdev HD HS.
    unfold one_device in Hdev. simpl in Hdev.
    rewrite andb_true_r in Hdev. apply Bool.eqb_prop in Hdev.
    destruct (forward_view_mismatch (Ctx [] []) X C S h B N Dx K D
                (input_sizes _ _ _ HX) (input_strides _ _ _ HX)
                (input_sizes _ _ _ HC) (input_strides _ _ _ HC) HD Hdev HS)
      as (new & Hlen & Hrun).
    exists new. split; [done|]. by apply scaled_l2_raise.
  - intros h X C S B N Dx K D HX HC HS Hdev HD.
    apply one_device_3 in Hdev as [HdC HdS].
    destruct (forward_broadcast_ok (Ctx [] []) X C S h B N Dx K D
                (input_sizes _ _ _ HX) (input_strides _ _ _ HX)
                (input_sizes _ _ _ HC) (input_strides _ _ _ HC)
                (input_sizes _ _ _ HS) (input_strides _ _ _ HS) HD HdC HdS)
      as (new & Hrun).
    eexists _, new. split; [by eapply scaled_l2_ok|done].
Qed.

(** C6, amended, over the rationals: [C] of shape (3,2) against [A] of
    shape (1,2,2) and [X] of shape (1,2,3); [S] of shape (1) against [C] of
    shape (2,3); [X] of shape (1,2,1) against [C] of shape (2,3). *)
Lemma shape_mismatch_behaviour_witness :
  aggregate spec_lib GSLq Xq (fresh 1 [3; 2] false) hq
  = (Raise (ShapeError OpAggregate), hq)
  ∧ scaled_l2 Xq (fresh 1 [3; 2] false) Sq hq = (Raise (ShapeError OpExpand), hq)
  ∧ (∃ new, length new = 2 ∧
       scaled_l2 Xq Cq (fresh 2 [1] false) hq
       = (Raise (ShapeError OpView), hq ++ new))
  ∧ (∃ SL new,
       scaled_l2 (fresh 0 [1; 2; 1] false) Cq Sq hq = (Ok SL, hq ++ new) ∧
       sizes SL = [1; 2; 2]).
Proof.
  destruct (shape_mismatch_behaviour Qc _) as (_ & Hagg & Hexp & Hview & Hok).
  split; [|split; [|split]].
  - apply (Hagg hq GSLq Xq (fresh 1 [3; 2] false) 1 2 2 1 2 3 3 2);
      [reflexivity | reflexivity | reflexivity | lia].
  - apply (Hexp hq Xq (fresh 1 [3; 2] false) Sq 1 2 3 3 2);
      [split; reflexivity | reflexivity | lia | lia].
  - apply (Hview hq Xq Cq (fresh 2 [1] false) 1 2 3 2 3);
      [split; reflexivity | split; reflexivity | reflexivity | lia | simpl; lia].
  - apply (Hok hq (fresh 0 [1; 2; 1] false) Cq Sq 1 2 1 2 3);
      [split; reflexivity | split; reflexivity | split; reflexivity | reflexivity | lia].
Defined.

(** C7.  [_aggregate.forward] hands back a context that retains exactly
    [A], [X], [C]; [ScaledL2.forward] hands back a context that retains
    exactly [X], [C], [S] and the output [SL].  [_aggregate.backward] depends
    on its context through the retained tensors only, and calls the kernel
    on the gradient and the three retained tensors.  [ScaledL2.backward]
    depends on its context through the retained tensors only, and on the
    heap through the storages of the retained tensors and of the gradient
    only: two heaps of the same length that agree on these give the same
    tensors and write the same new storages. *)
Theorem retained_tensors (F : Type) `(Reduction F) :
  (∀ (lib : library F) c A X C (h : heap F),
      ∃ c', saved_tensors c' = [A; X; C] ∧
        _aggregate.forward lib c A X C h
        = bind (aggregate_forward (selected lib A) A X C) (λ E, ret (c', E)) h)
  ∧ (∀ (h : heap F) c X C S B N K D,
      input h X [B; N; D] → input h C [K; D] → input h S [K] →
      one_device [X; C; S] →
      ∃ c' SL h',
        ScaledL2.forward c X C S h = (Ok (c', SL), h') ∧
        saved_tensors c' = [X; C; S; SL])
  ∧ (∀ (lib : library F) c1 c2 gradE (h : heap F),
      saved_tensors c1 = saved_tensors c2 →
      _aggregate.backward lib c1 gradE h = _aggregate.backward lib c2 gradE h)
  ∧ (∀ (lib : library F) c A X C gradE (h : heap F),
      saved_tensors c = [A; X; C] →
      _aggregate.backward lib c gradE h
      = aggregate_backward (selected lib A) gradE A X C h)
  ∧ (∀ (h1 h2 : heap F) c1 c2 X C S SL GSL B N K D,
      saved_tensors c1 = [X; C; S; SL] → saved_tensors c2 = [X; C; S; SL] →
      input h1 X [B; N; D] → input h1 C [K; D] → input h1 S [K] →
      input h1 SL [B; N; K] → input h1 GSL [B; N; K] →
      input h2 X [B; N; D] → input h2 C [K; D] → input h2 S [K] →
      input h2 SL [B; N; K] → input h2 GSL [B; N; K] →
      one_device [X; C; S; SL; GSL] →
      length h2 = length h1 →
      storage h2 (sid X) = storage h1 (sid X) →
      storage h2 (sid C) = storage h1 (sid C) →
      storage h2 (sid S) = storage h1 (sid S) →
      storage h2 (sid SL) = storage h1 (sid SL) →
      storage h2 (sid GSL) = storage h1 (sid GSL) →
      ∃ r new,
        ScaledL2.backward c1 GSL h1 = (Ok r, h1 ++ new) ∧
        ScaledL2.backward c2 GSL h2 = (Ok r, h2 ++ new)).
Proof.
  split; [|split; [|split; [|split]]].
  - intros lib c A X C h. eexists. split; [|apply aggregate_forward_selected]. done.
  - intros h c X C S B N K D HX HC HS Hdev.
    eexists _, _, _. split; [by apply forward_ok|done].
  - intros lib c1 c2 gradE h Hc. unfold _aggregate.backward, saved_variables.
    by rewrite Hc.
  - intros lib c A X C gradE h Hc. by apply aggregate_backward_selected.
  - intros h1 h2 c1 c2 X C S SL GSL B N K D Hc1 Hc2
      HX1 HC1 HS1 HSL1 HG1 HX2 HC2 HS2 HSL2 HG2 Hdev Hlen EX EC ES ESL EG.
    eexists _, _.
    split; [by eapply backward_ok|].
    erewrite backward_ok by done. rewrite Hlen. f_equal. f_equal.
    assert (∀ t idx, storage h2 (sid t) = storage h1 (sid t) →
                     getv h2 t idx = getv h1 t idx) as Hg.
    { intros t idx E. by apply getv_storage. }
    f_equal; [|f_equal; [|f_equal; [|f_equal; [|f_equal; [|f_equal]]]]].
    + apply tmp_data_ext; intros; by apply Hg.
    + apply G_data_ext; intros; by apply Hg.
    + apply GX_data_ext; intros; by apply Hg.
    + apply GC_data_ext; intros; by apply Hg.
    + apply Q_data_ext; intros; by apply Hg.
    + apply GS_data_ext; intros; by apply Hg.
Qed.

(** C7 over the rationals; the second heap [hq3] differs from [hq1] in a
    storage that no retained tensor views. *)
Lemma retained_tensors_witness :
  (∃ c' SL h',
      ScaledL2.forward (Ctx [] []) Xq Cq Sq hq = (Ok (c', SL), h') ∧
      saved_tensors c' = [Xq; Cq; Sq; SL])
  ∧ _aggregate.backward spec_lib (Ctx [GSLq; Xq; Cq] [true]) Xq hq
    = _aggregate.backward spec_lib (Ctx [GSLq; Xq; Cq] []) Xq hq
  ∧ _aggregate.backward spec_lib (Ctx [GSLq; Xq; Cq] []) Xq hq
    = aggregate_backward (selected spec_lib GSLq) Xq GSLq Xq Cq hq
  ∧ (∃ r new,
      ScaledL2.backward cq GSLq hq1 = (Ok r, hq1 ++ new) ∧
      ScaledL2.backward (Ctx [Xq; Cq; Sq; SLq] [true]) GSLq hq3 = (Ok r, hq3 ++ new)).
Proof.
  destruct (retained_tensors Qc _) as (_ & Hfw & Hab & Hak & Hbw).
  split; [|split; [|split]].
  - apply (Hfw hq (Ctx [] []) Xq Cq Sq 1 2 2 3);
      [split; reflexivity | split; reflexivity | split; reflexivity | reflexivity].
  - apply (Hab spec_lib); reflexivity.
  - apply (Hak spec_lib); reflexivity.
  - apply (Hbw hq1 hq3 cq (Ctx [Xq; Cq; Sq; SLq] [true]) Xq Cq Sq SLq GSLq 1 2 2 3);
      [reflexivity | reflexivity
      | split; reflexivity | split; reflexivity | split; reflexivity
      | split; reflexivity | split; reflexivity
      | split; reflexivity | split; reflexivity | split; reflexivity
      | split; reflexivity | split; reflexivity
      | reflexivity | reflexivity
      | reflexivity | reflexivity | reflexivity | reflexivity | reflexivity].
Defined.

(** C8.  In [_aggregate.forward] and in [_aggregate.backward] (on the
    context the forward call made), the kernel called is the one of
    [lib.gpu] when [A.is_cuda] holds and the one of [lib.cpu] otherwise,
    whatever the library, the context, the other tensors and the heap. *)
Theorem aggregate_dispatch (F : Type) `(Scalar F) (lib : library F)
    (c : ctx) (A X C gradE : tensor) (h : heap F) :
  _aggregate.forward lib c A X C h
  = bind (aggregate_forward (if is_cuda A then gpu lib else cpu lib) A X C)
      (λ E, ret (save_for_backward c [A; X; C], E)) h
  ∧ _aggregate.backward lib (save_for_backward c [A; X; C]) gradE h
    = aggregate_backward (if is_cuda A then gpu lib else cpu lib) gradE A X C h.
Proof.
  split.
  - apply aggregate_forward_selected.
  - by apply aggregate_backward_selected.
Qed.

(** C9.  The forward and the backward call of [ScaledL2] leave every
    storage that existed before the call as it was (the heap after the call
    is the heap before it followed by new storages), so neither the inputs
    [X], [C], [S], nor the gradient, nor the retained tensors are written:
    [pow_] and [mul_] only write storages the call allocated.  And the
    values returned are a function of the values of the inputs: two calls on
    inputs that hold the same values, in whatever heaps, return tensors that
    hold the same values. *)
Theorem scaled_l2_pure (F : Type) `(Reduction F) :
  (∀ (h : heap F) c X C S B N K D,
      input h X [B; N; D] → input h C [K; D] → input h S [K] →
      one_device [X; C; S] →
      ∃ r new, ScaledL2.forward c X C S h = (Ok r, h ++ new))
  ∧ (∀ (h : heap F) c X C S SL GSL B N K D,
      saved_variables c = [X; C; S; SL] →
      input h X [B; N; D] → input h C [K; D] → input h S [K] →
      input h SL [B; N; K] → input h GSL [B; N; K] →
      one_device [X; C; S; SL; GSL] →
      ∃ r new, ScaledL2.backward c GSL h = (Ok r, h ++ new))
  ∧ (∀ (h1 h2 : heap F) c1 c2 X1 C1 S1 X2 C2 S2 B N K D,
      input h1 X1 [B; N; D] → input h1 C1 [K; D] → input h1 S1 [K] →
      one_device [X1; C1; S1] →
      input h2 X2 [B; N; D] → input h2 C2 [K; D] → input h2 S2 [K] →
      one_device [X2; C2; S2] →
      to_list h1 X1 = to_list h2 X2 → to_list h1 C1 = to_list h2 C2 →
      to_list h1 S1 = to_list h2 S2 →
      ∃ r1 r2 h1' h2',
        ScaledL2.forward c1 X1 C1 S1 h1 = (Ok r1, h1') ∧
        ScaledL2.forward c2 X2 C2 S2 h2 = (Ok r2, h2') ∧
        to_list h1' r1.2 = to_list h2' r2.2)
  ∧ (∀ (h1 h2 : heap F) c1 c2 X1 C1 S1 SL1 G1 X2 C2 S2 SL2 G2 B N K D,
      saved_variables c1 = [X1; C1; S1; SL1] →
      input h1 X1 [B; N; D] → input h1 C1 [K; D] → input h1 S1 [K] →
      input h1 SL1 [B; N; K] → input h1 G1 [B; N; K] →
      one_device [X1; C1; S1; SL1; G1] →
      saved_variables c2 = [X2; C2; S2; SL2] →
      input h2 X2 [B; N; D] → input h2 C2 [K; D] → input h2 S2 [K] →
      input h2 SL2 [B; N; K] → input h2 G2 [B; N; K] →
      one_device [X2; C2; S2; SL2; G2] →
      to_list h1 X1 = to_list h2 X2 → to_list h1 C1 = to_list h2 C2 →
      to_list h1 S1 = to_list h2 S2 → to_list h1 SL1 = to_list h2 SL2 →
      to_list h1 G1 = to_list h2 G2 →
      ∃ GX1 GC1 GS1 GX2 GC2 GS2 h1' h2',
        ScaledL2.backward c1 G1 h1 = (Ok (GX1, GC1, GS1), h1') ∧
        ScaledL2.backward c2 G2 h2 = (Ok (GX2, GC2, GS2), h2') ∧
        to_list h1' GX1 = to_list h2' GX2 ∧ to_list h1' GC1 = to_list h2' GC2 ∧
        to_list h1' GS1 = to_list h2' GS2).
Proof.
  split; [|split; [|split]].
  - intros h c X C S B N K D HX HC HS Hdev.
    eexists _, _. by apply forward_ok.
  - intros h c X C S SL GSL B N K D Hc HX HC HS HSL HG Hdev.
    eexists _, _. by eapply backward_ok.
  - intros h1 h2 c1 c2 X1 C1 S1 X2 C2 S2 B N K D
      HX1 HC1 HS1 Hd1 HX2 HC2 HS2 Hd2 EX EC ES.
    eexists _, _, _, _.
    split; [by apply forward_ok|]. split; [by apply forward_ok|].
    cbn [snd]. erewrite !(to_list_fresh_app _ _ 1) by (unfold SL_data; reflexivity).
    apply SL_data_ext.
    + eapply same_values3; eauto using input_sizes.
    + eapply same_values2; eauto using input_sizes.
    + eapply same_values1; eauto using input_sizes.
  - intros h1 h2 c1 c2 X1 C1 S1 SL1 G1 X2 C2 S2 SL2 G2 B N K D
      Hc1 HX1 HC1 HS1 HSL1 HG1 Hd1 Hc2 HX2 HC2 HS2 HSL2 HG2 Hd2 EX EC ES ESL EG.
    eexists _, _, _, _, _, _, _, _.
    split; [by eapply backward_ok|]. split; [by eapply backward_ok|].
    pose proof (same_values3 _ _ _ _ _ _ _ (input_sizes _ _ _ HX1) (input_sizes _ _ _ HX2) EX).
    pose proof (same_values2 _ _ _ _ _ _ (input_sizes _ _ _ HC1) (input_sizes _ _ _ HC2) EC).
    pose proof (same_values1 _ _ _ _ _ (input_sizes _ _ _ HS1) (input_sizes _ _ _ HS2) ES).
    pose proof (same_values3 _ _ _ _ _ _ _ (input_sizes _ _ _ HSL1) (input_sizes _ _ _ HSL2) ESL).
    pose proof (same_values3 _ _ _ _ _ _ _ (input_sizes _ _ _ HG1) (input_sizes _ _ _ HG2) EG).
    split; [|split].
    + erewrite !(to_list_fresh_app _ _ 2) by (unfold GX_data; reflexivity).
      by apply GX_data_ext.
    + erewrite !(to_list_fresh_app _ _ 3) by (unfold GC_data; reflexivity).
      by apply GC_data_ext.
    + erewrite !(to_list_fresh_app _ _ 5) by (unfold GS_data; reflexivity).
      by apply GS_data_ext.
Qed.

(** C9 over the rationals; [hq2] holds the tensors of [hq1] in other
    storages. *)
Lemma scaled_l2_pure_witness :
  (∃ r new, ScaledL2.forward (Ctx [] []) Xq Cq Sq hq = (Ok r, hq ++ new))
  ∧ (∃ r new, ScaledL2.backward cq GSLq hq1 = (Ok r, hq1 ++ new))
  ∧ (∃ r1 r2 h1' h2',
        ScaledL2.forward (Ctx [] []) Xq Cq Sq hq1 = (Ok r1, h1') ∧
        ScaledL2.forward (Ctx [] [true]) Xq2 Cq2 Sq2 hq2 = (Ok r2, h2') ∧
        to_list h1' r1.2 = to_list h2' r2.2)
  ∧ (∃ GX1 GC1 GS1 GX2 GC2 GS2 h1' h2',
        ScaledL2.backward cq GSLq hq1 = (Ok (GX1, GC1, GS1), h1') ∧
        ScaledL2.backward cq2 GSLq2 hq2 = (Ok (GX2, GC2, GS2), h2') ∧
        to_list h1' GX1 = to_list h2' GX2 ∧ to_list h1' GC1 = to_list h2' GC2 ∧
        to_list h1' GS1 = to_list h2' GS2).
Proof.
  destruct (scaled_l2_pure Qc _) as (Hfw & Hbw & Hfd & Hbd).
  split; [|split; [|split]].
  - apply (Hfw hq (Ctx [] []) Xq Cq Sq 1 2 2 3);
      [split; reflexivity | split; reflexivity | split; reflexivity | reflexivity].
  - apply (Hbw hq1 cq Xq Cq Sq SLq GSLq 1 2 2 3);
      [reflexivity | split; reflexivity | split; reflexivity | split; reflexivity
      | split; reflexivity | split; reflexivity | reflexivity].
  - apply (Hfd hq1 hq2 (Ctx [] []) (Ctx [] [true]) Xq Cq Sq Xq2 Cq2 Sq2 1 2 2 3);
      [split; reflexivity | split; reflexivity | split; reflexivity | reflexivity
      | split; reflexivity | split; reflexivity | split; reflexivity | reflexivity
      | reflexivity | reflexivity | reflexivity].
  - apply (Hbd hq1 hq2 cq cq2 Xq Cq Sq SLq GSLq Xq2 Cq2 Sq2 SLq2 GSLq2 1 2 2 3);
      [reflexivity | split; reflexivity | split; reflexivity | split; reflexivity
      | split; reflexivity | split; reflexivity | reflexivity
      | reflexivity | split; reflexivity | split; reflexivity | split; reflexivity
      | split; reflexivity | split; reflexivity | reflexivity
      | reflexivity | reflexivity | reflexivity | reflexivity | reflexivity].
Defined.

(** C10, as stated, fails in binary64: on [X = [[1],[1]]], [C = [[0],[0]]],
    [S = [1,1]] and the gradient [[2^59, 0.5], [-2^59, 0.5]], the sum of [GX]
    is [0] and the sum of [GC] is [-2], whatever the order in which the
    library adds up: no sum of the call has more than two terms. *)
Lemma scaled_l2_backward_sums_round :
  input hf Xf [1; 2; 1] ∧ input hf Cf [2; 1] ∧ input hf Sf [2] ∧
  input hf1 GSLf [1; 2; 2] ∧
  ∀ Red : Reduction binary64,
    ScaledL2.forward (Ctx [] []) Xf Cf Sf hf = (Ok (cf, SLf), hf1) ∧
    ∃ GX GC GS h2,
      ScaledL2.backward cf GSLf hf1 = (Ok (GX, GC, GS), h2) ∧
      fadd (sum_over2 1 2 (λ b i, getv h2 GX [b; i; 0]))
           (sum_over 2 (λ k, getv h2 GC [k; 0])) = b64 (-2) 0 ∧
      b64 (-2) 0 ≠ fzero.
Proof.
  do 4 (split; [split; reflexivity|]).
  intros Red. split.
  - rewrite (forward_ok _ Xf Cf Sf hf 1 2 2 1) by (split; reflexivity).
    unfold hf1. f_equal. f_equal.
    unfold sq_data, SL_data, sqdist. spell_out. settle_reductions.
    vm_compute. reflexivity.
  - destruct (backward_values cf Xf Cf Sf SLf GSLf hf1 1 2 2 1 eq_refl)
      as (GX & GC & GS & h2 & Hrun & _ & _ & _ & HGX & HGC & _);
      try (split; reflexivity).
    exists GX, GC, GS, h2. split; [done|]. split; [|discriminate].
    unfold sum_over2, sum_over. spell_out. cbn [fsum foldl].
    rewrite !HGX, !HGC by lia.
    unfold reduce_over, reduce_over2. spell_out. settle_reductions.
    vm_compute. reflexivity.
Qed.

(** C10, amended.  In exact arithmetic (the scalars form a commutative
    ring), for valid [X], [C], [S] and gradient [GSL] the gradients that
    [ScaledL2.backward] returns satisfy, for every feature index [d],
    [(sum over b, i of GX[b,i,d]) + (sum over k of GC[k,d]) = 0]. *)
Theorem scaled_l2_backward_GX_GC_cancel
    (F : Type) `(ExactArith F) {Red : Reduction F}
    (h : heap F) (c : ctx) (X C S SL GSL : tensor)
    (B N K D : nat) :
  saved_variables c = [X; C; S; SL] →
  input h X [B; N; D] → input h C [K; D] → input h S [K] →
  input h SL [B; N; K] → input h GSL [B; N; K] →
  one_device [X; C; S; SL; GSL] →
  ∃ GX GC GS h',
    ScaledL2.backward c GSL h = (Ok (GX, GC, GS), h') ∧
    ∀ d, d < D →
      fadd (sum_over2 B N (λ b i, getv h' GX [b; i; d]))
           (sum_over K (λ k, getv h' GC [k; d])) = fzero.
Proof.
  intros Hc HX HC HS HSL HG Hdev.
  destruct (backward_values_exact c X C S SL GSL h B N K D Hc HX HC HS HSL HG Hdev)
    as (GX & GC & GS & h' & Hrun & _ & _ & _ & HGX & HGC & _).
  exists GX, GC, GS, h'. split; [done|]. intros d Hd.
  set (t := λ (bi : list nat) (k : nat),
              match bi with
              | [b; i] => tmp_val h X C S GSL b i k d
              | _ => fzero
              end).
  assert (sum_over2 B N (λ b i, getv h' GX [b; i; d])
          = fsum ((λ bi, fsum ((λ k, t bi k) <$> seq 0 K)) <$> indices [B; N])) as ->.
  { unfold sum_over2. f_equal. apply fmap_indices_ext2. intros b i Hb Hi.
    by rewrite HGX. }
  assert (sum_over K (λ k, getv h' GC [k; d])
          = fsum ((λ k, fmul (fsum ((λ bi, t bi k) <$> indices [B; N])) (of_int (-1)))
                  <$> seq 0 K)) as ->.
  { unfold sum_over. f_equal. apply fmap_seq_ext. intros k Hk. by rewrite HGC. }
  rewrite fsum_exchange, fsum_mul_r, fmul_neg1.
  apply (Ropp_def exact_ring).
Qed.

(** C10, amended, on the heap left by [scaled_l2] over the rationals. *)
Lemma scaled_l2_backward_GX_GC_cancel_witness :
  ∃ GX GC GS h',
    ScaledL2.backward cq GSLq hq1 = (Ok (GX, GC, GS), h') ∧
    ∀ d, d < 3 →
      fadd (sum_over2 1 2 (λ b i, getv h' GX [b; i; d]))
           (sum_over 2 (λ k, getv h' GC [k; d])) = (fzero : Qc).
Proof.
  apply (scaled_l2_backward_GX_GC_cancel Qc _ hq1 cq Xq Cq Sq SLq GSLq 1 2 2 3);
    [reflexivity | split; reflexivity | split; reflexivity | split; reflexivity
    | split; reflexivity | split; reflexivity | reflexivity].
Defined.

(** * Further properties of [ScaledL2]

    Properties of the code beyond the specification: the gradient check
    that the module runs as a script, in exact arithmetic; what the calls
    do on broadcast, degenerate and wrong inputs; what they never do to
    the heap; and how a NaN spreads in binary64. *)

(** X1.  In exact arithmetic the gradient [GX] of [ScaledL2.backward]
    passes the central-difference check of [torch.autograd.gradcheck]
    exactly: for every perturbation [T] of [X], the difference between
    [scaled_l2(X + T, C, S)] and [scaled_l2(X - T, C, S)], weighted by the
    output gradient [GSL] and summed over all entries, is twice the sum of
    [GX[b,i,d] * T[b,i,d]]. *)
Theorem scaled_l2_gradcheck_X (F : Type) `(ExactArith F) {Red : Reduction F}
    (h : heap F) (c : ctx) (X C S SL GSL T Xp Xm : tensor) (B N K D : nat) :
  saved_variables c = [X; C; S; SL] →
  input h X [B; N; D] → input h C [K; D] → input h S [K] →
  input h SL [B; N; K] → input h GSL [B; N; K] →
  one_device [X; C; S; SL; GSL] →
  input h T [B; N; D] → input h Xp [B; N; D] → input h Xm [B; N; D] →
  is_cuda Xp = is_cuda X → is_cuda Xm = is_cuda X →
  to_list h Xp = zip_with fadd (to_list h X) (to_list h T) →
  to_list h Xm = zip_with fsub (to_list h X) (to_list h T) →
  ∃ SLp hp SLm hm GX GC GS h',
    scaled_l2 Xp C S h = (Ok SLp, hp) ∧
    scaled_l2 Xm C S h = (Ok SLm, hm) ∧
    ScaledL2.backward c GSL h = (Ok (GX, GC, GS), h') ∧
    sum_over2 B N (λ b i, sum_over K (λ k,
      fmul (getv h GSL [b; i; k])
           (fsub (getv hp SLp [b; i; k]) (getv hm SLm [b; i; k]))))
    = fmul (of_int 2)
        (sum_over2 B N (λ b i, sum_over D (λ d,
           fmul (getv h' GX [b; i; d]) (getv h T [b; i; d])))).
Proof.
  intros Hc HX HC HS HSL HG Hdev HT HXp HXm HdP HdM HP HM.
  pose proof Hdev as Hdev'. apply one_device_5 in Hdev' as (HdC & HdS & _ & _).
  assert (one_device [Xp; C; S]) as HdevP.
  { apply one_device_3_intro; congruence. }
  assert (one_device [Xm; C; S]) as HdevM.
  { apply one_device_3_intro; congruence. }
  destruct (scaled_l2_values Xp C S h B N K D HXp HC HS HdevP)
    as (SLp & hp & HrunP & _ & HvP).
  destruct (scaled_l2_values Xm C S h B N K D HXm HC HS HdevM)
    as (SLm & hm & HrunM & _ & HvM).
  destruct (backward_values_exact c X C S SL GSL h B N K D Hc HX HC HS HSL HG Hdev)
    as (GX & GC & GS & h' & Hrun & _ & _ & _ & HGX & _ & _).
  exists SLp, hp, SLm, hm, GX, GC, GS, h'. repeat (split; [done|]).
  rewrite <- sum_over2_mul_l. apply sum_over2_ext. intros b i Hb Hi.
  transitivity (sum_over K (λ k, sum_over D (λ d,
    fmul (fmul (of_int 2) (tmp_val h X C S GSL b i k d)) (getv h T [b; i; d])))).
  - apply sum_over_ext. intros k Hk. rewrite HvP, HvM by done.
    unfold sqdist. rewrite !reduce_fsum.
    change (fsum (?f <$> seq 0 D)) with (sum_over D f).
    rewrite <- !sum_over_mul_r, <- sum_over_sub, <- sum_over_mul_l.
    apply sum_over_ext. intros d Hd. rewrite !fpow_2.
    rewrite (to_list_zip_with fadd h Xp X T [B; N; D] [b; i; d]
               (input_sizes _ _ _ HXp) (input_sizes _ _ _ HX) (input_sizes _ _ _ HT) HP)
      by (apply elem_of_indices; repeat (constructor; try lia)).
    rewrite (to_list_zip_with fsub h Xm X T [B; N; D] [b; i; d]
               (input_sizes _ _ _ HXm) (input_sizes _ _ _ HX) (input_sizes _ _ _ HT) HM)
      by (apply elem_of_indices; repeat (constructor; try lia)).
    unfold tmp_val, G_val. apply central_difference_X.
  - rewrite sum_over_exchange, <- sum_over_mul_l. apply sum_over_ext. intros d Hd.
    rewrite HGX by done. rewrite sum_over_mul_r, sum_over_mul_l.
    apply fmul_two_assoc.
Qed.

(** X1 over the rationals: [X] moved by [T = [[[1,0,2],[0,1,1]]]]. *)
Lemma scaled_l2_gradcheck_X_witness :
  ∃ SLp hp SLm hm GX GC GS h',
    scaled_l2 Xpq Cq Sq hq4 = (Ok SLp, hp) ∧
    scaled_l2 Xmq Cq Sq hq4 = (Ok SLm, hm) ∧
    ScaledL2.backward cq GSLq hq4 = (Ok (GX, GC, GS), h') ∧
    sum_over2 1 2 (λ b i, sum_over 2 (λ k,
      fmul (getv hq4 GSLq [b; i; k])
           (fsub (getv hp SLp [b; i; k]) (getv hm SLm [b; i; k]))))
    = fmul (of_int 2)
        (sum_over2 1 2 (λ b i, sum_over 3 (λ d,
           fmul (getv h' GX [b; i; d]) (getv hq4 TXq [b; i; d])))).
Proof.
  apply (scaled_l2_gradcheck_X Qc _ hq4 cq Xq Cq Sq SLq GSLq TXq Xpq Xmq 1 2 2 3);
    [reflexivity | split; reflexivity | split; reflexivity | split; reflexivity
    | split; reflexivity | split; reflexivity | reflexivity
    | split; reflexivity | split; reflexivity | split; reflexivity
    | reflexivity | reflexivity | reflexivity | reflexivity].
Defined.

(** X2.  In exact arithmetic the gradient [GC] of [ScaledL2.backward]
    passes the central-difference check exactly: for every perturbation [T]
    of [C], the difference between [scaled_l2(X, C + T, S)] and
    [scaled_l2(X, C - T, S)], weighted by [GSL] and summed over all
    entries, is twice the sum of [GC[k,d] * T[k,d]]. *)
Theorem scaled_l2_gradcheck_C (F : Type) `(ExactArith F) {Red : Reduction F}
    (h : heap F) (c : ctx) (X C S SL GSL T Cp Cm : tensor) (B N K D : nat) :
  saved_variables c = [X; C; S; SL] →
  input h X [B; N; D] → input h C [K; D] → input h S [K] →
  input h SL [B; N; K] → input h GSL [B; N; K] →
  one_device [X; C; S; SL; GSL] →
  input h T [K; D] → input h Cp [K; D] → input h Cm [K; D] →
  is_cuda Cp = is_cuda X → is_cuda Cm = is_cuda X →
  to_list h Cp = zip_with fadd (to_list h C) (to_list h T) →
  to_list h Cm = zip_with fsub (to_list h C) (to_list h T) →
  ∃ SLp hp SLm hm GX GC GS h',
    scaled_l2 X Cp S h = (Ok SLp, hp) ∧
    scaled_l2 X Cm S h = (Ok SLm, hm) ∧
    ScaledL2.backward c GSL h = (Ok (GX, GC, GS), h') ∧
    sum_over2 B N (λ b i, sum_over K (λ k,
      fmul (getv h GSL [b; i; k])
           (fsub (getv hp SLp [b; i; k]) (getv hm SLm [b; i; k]))))
    = fmul (of_int 2)
        (sum_over K (λ k, sum_over D (λ d,
           fmul (getv h' GC [k; d]) (getv h T [k; d])))).
Proof.
  intros Hc HX HC HS HSL HG Hdev HT HCp HCm HdP HdM HP HM.
  pose proof Hdev as Hdev'. apply one_device_5 in Hdev' as (HdC & HdS & _ & _).
  assert (one_device [X; Cp; S]) as HdevP.
  { apply one_device_3_intro; congruence. }
  assert (one_device [X; Cm; S]) as HdevM.
  { apply one_device_3_intro; congruence. }
  destruct (scaled_l2_values X Cp S h B N K D HX HCp HS HdevP)
    as (SLp & hp & HrunP & _ & HvP).
  destruct (scaled_l2_values X Cm S h B N K D HX HCm HS HdevM)
    as (SLm & hm & HrunM & _ & HvM).
  destruct (backward_values_exact c X C S SL GSL h B N K D Hc HX HC HS HSL HG Hdev)
    as (GX & GC & GS & h' & Hrun & _ & _ & _ & _ & HGC & _).
  exists SLp, hp, SLm, hm, GX, GC, GS, h'. repeat (split; [done|]).
  rewrite sum_over2_exchange, <- sum_over_mul_l. apply sum_over_ext. intros k Hk.
  transitivity (sum_over2 B N (λ b i, sum_over D (λ d,
    fmul (fmul (fneg (of_int 2)) (tmp_val h X C S GSL b i k d)) (getv h T [k; d])))).
  - apply sum_over2_ext. intros b i Hb Hi. rewrite HvP, HvM by done.
    unfold sqdist. rewrite !reduce_fsum.
    change (fsum (?f <$> seq 0 D)) with (sum_over D f).
    rewrite <- !sum_over_mul_r, <- sum_over_sub, <- sum_over_mul_l.
    apply sum_over_ext. intros d Hd. rewrite !fpow_2.
    rewrite (to_list_zip_with fadd h Cp C T [K; D] [k; d]
               (input_sizes _ _ _ HCp) (input_sizes _ _ _ HC) (input_sizes _ _ _ HT) HP)
      by (apply elem_of_indices; repeat (constructor; try lia)).
    rewrite (to_list_zip_with fsub h Cm C T [K; D] [k; d]
               (input_sizes _ _ _ HCm) (input_sizes _ _ _ HC) (input_sizes _ _ _ HT) HM)
      by (apply elem_of_indices; repeat (constructor; try lia)).
    unfold tmp_val, G_val. apply central_difference_C.
  - rewrite sum_over2_exchange, <- sum_over_mul_l. apply sum_over_ext. intros d Hd.
    rewrite HGC by done. rewrite sum_over2_mul_r, sum_over2_mul_l.
    apply fmul_neg_two.
Qed.

(** X2 over the rationals: [C] moved by [T = [[1,1,0],[0,2,1]]]. *)
Lemma scaled_l2_gradcheck_C_witness :
  ∃ SLp hp SLm hm GX GC GS h',
    scaled_l2 Xq Cpq Sq hq4 = (Ok SLp, hp) ∧
    scaled_l2 Xq Cmq Sq hq4 = (Ok SLm, hm) ∧
    ScaledL2.backward cq GSLq hq4 = (Ok (GX, GC, GS), h') ∧
    sum_over2 1 2 (λ b i, sum_over 2 (λ k,
      fmul (getv hq4 GSLq [b; i; k])
           (fsub (getv hp SLp [b; i; k]) (getv hm SLm [b; i; k]))))
    = fmul (of_int 2)
        (sum_over 2 (λ k, sum_over 3 (λ d,
           fmul (getv h' GC [k; d]) (getv hq4 TCq [k; d])))).
Proof.
  apply (scaled_l2_gradcheck_C Qc _ hq4 cq Xq Cq Sq SLq GSLq TCq Cpq Cmq 1 2 2 3);
    [reflexivity | split; reflexivity | split; reflexivity | split; reflexivity
    | split; reflexivity | split; reflexivity | reflexivity
    | split; reflexivity | split; reflexivity | split; reflexivity
    | reflexivity | reflexivity | reflexivity | reflexivity].
Defined.

(** X3.  In exact arithmetic with division, when no scale [S[k]] is zero,
    the gradient [GS] that [ScaledL2.backward] computes from the retained
    output of the forward call passes the central-difference check
    exactly: for every perturbation [T] of [S], the difference between
    [scaled_l2(X, C, S + T)] and [scaled_l2(X, C, S - T)], weighted by
    [GSL] and summed over all entries, is twice the sum of
    [GS[k] * T[k]]. *)
Theorem scaled_l2_gradcheck_S (F : Type) `(ExactArith F) `{!ExactField F}
    {Red : Reduction F}
    (h : heap F) (c : ctx) (X C S T Sp Sm : tensor) (B N K D : nat) :
  input h X [B; N; D] → input h C [K; D] → input h S [K] →
  one_device [X; C; S] →
  input h T [K] → input h Sp [K] → input h Sm [K] →
  is_cuda Sp = is_cuda X → is_cuda Sm = is_cuda X →
  to_list h Sp = zip_with fadd (to_list h S) (to_list h T) →
  to_list h Sm = zip_with fsub (to_list h S) (to_list h T) →
  Forall (λ s, s ≠ fzero) (to_list h S) →
  ∃ SLp hp SLm hm c' SL h1,
    scaled_l2 X C Sp h = (Ok SLp, hp) ∧
    scaled_l2 X C Sm h = (Ok SLm, hm) ∧
    ScaledL2.forward c X C S h = (Ok (c', SL), h1) ∧
    ∀ GSL, input h1 GSL [B; N; K] → is_cuda GSL = is_cuda X →
      ∃ GX GC GS h2,
        ScaledL2.backward c' GSL h1 = (Ok (GX, GC, GS), h2) ∧
        sum_over2 B N (λ b i, sum_over K (λ k,
          fmul (getv h1 GSL [b; i; k])
               (fsub (getv hp SLp [b; i; k]) (getv hm SLm [b; i; k]))))
        = fmul (of_int 2)
            (sum_over K (λ k, fmul (getv h2 GS [k]) (getv h T [k]))).
Proof.
  intros HX HC HS Hdev HT HSp HSm HdP HdM HP HM Hnz.
  pose proof Hdev as Hdev'. apply one_device_3 in Hdev' as (HdC & HdS).
  assert (one_device [X; C; Sp]) as HdevP.
  { apply one_device_3_intro; congruence. }
  assert (one_device [X; C; Sm]) as HdevM.
  { apply one_device_3_intro; congruence. }
  destruct (scaled_l2_values X C Sp h B N K D HX HC HSp HdevP)
    as (SLp & hp & HrunP & _ & HvP).
  destruct (scaled_l2_values X C Sm h B N K D HX HC HSm HdevM)
    as (SLm & hm & HrunM & _ & HvM).
  destruct (paired_backward_GS c X C S h B N K D HX HC HS Hdev)
    as (c' & SL & h1 & Hfw & HvSL & Hbw).
  exists SLp, hp, SLm, hm, c', SL, h1. repeat (split; [done|]).
  intros GSL HG HdG.
  destruct (Hbw GSL HG HdG) as (GX & GC & GS & h2 & Hrun & _ & HGS).
  exists GX, GC, GS, h2. split; [done|].
  rewrite sum_over2_exchange, <- sum_over_mul_l. apply sum_over_ext. intros k Hk.
  rewrite HGS by done. rewrite reduce_over2_exact.
  rewrite <- sum_over2_mul_r, <- sum_over2_mul_l.
  apply sum_over2_ext. intros b i Hb Hi. rewrite HvP, HvM, HvSL by done.
  rewrite (to_list_zip_with fadd h Sp S T [K] [k]
             (input_sizes _ _ _ HSp) (input_sizes _ _ _ HS) (input_sizes _ _ _ HT) HP)
    by (apply elem_of_indices; repeat (constructor; try lia)).
  rewrite (to_list_zip_with fsub h Sm S T [K] [k]
             (input_sizes _ _ _ HSm) (input_sizes _ _ _ HS) (input_sizes _ _ _ HT) HM)
    by (apply elem_of_indices; repeat (constructor; try lia)).
  rewrite fdiv_fmul.
  - apply central_difference_S.
  - rewrite Forall_forall in Hnz. apply Hnz. unfold to_list.
    rewrite (input_sizes _ _ _ HS). apply list_elem_of_fmap. exists [k]. split; [done|].
    apply elem_of_indices. repeat (constructor; try lia).
Qed.

(** X3 over the rationals: [S = [2,3]] moved by [T = [1,2]]. *)
Lemma scaled_l2_gradcheck_S_witness :
  ∃ SLp hp SLm hm c' SL h1,
    scaled_l2 Xq Cq Spq hq4 = (Ok SLp, hp) ∧
    scaled_l2 Xq Cq Smq hq4 = (Ok SLm, hm) ∧
    ScaledL2.forward (Ctx [] []) Xq Cq Sq hq4 = (Ok (c', SL), h1) ∧
    ∀ GSL, input h1 GSL [1; 2; 2] → is_cuda GSL = is_cuda Xq →
      ∃ GX GC GS h2,
        ScaledL2.backward c' GSL h1 = (Ok (GX, GC, GS), h2) ∧
        sum_over2 1 2 (λ b i, sum_over 2 (λ k,
          fmul (getv h1 GSL [b; i; k])
               (fsub (getv hp SLp [b; i; k]) (getv hm SLm [b; i; k]))))
        = fmul (of_int 2)
            (sum_over 2 (λ k, fmul (getv h2 GS [k]) (getv hq4 TSq [k]))).
Proof.
  apply (scaled_l2_gradcheck_S Qc _ hq4 (Ctx [] []) Xq Cq Sq TSq Spq Smq 1 2 2 3);
    [split; reflexivity | split; reflexivity | split; reflexivity | reflexivity
    | split; reflexivity | split; reflexivity | split; reflexivity
    | reflexivity | reflexivity | reflexivity | reflexivity
    | repeat constructor; discriminate].
Defined.

(** X4.  In exact arithmetic [ScaledL2.backward] is additive in the output
    gradient: on the gradient [G1 + G2] each of [GX], [GC], [GS] is, entry
    by entry, the sum of what the call returns on [G1] and on [G2]. *)
Theorem scaled_l2_backward_additive (F : Type) `(ExactArith F) {Red : Reduction F}
    (h : heap F) (c : ctx) (X C S SL G1 G2 G3 : tensor) (B N K D : nat) :
  saved_variables c = [X; C; S; SL] →
  input h X [B; N; D] → input h C [K; D] → input h S [K] →
  input h SL [B; N; K] →
  input h G1 [B; N; K] → input h G2 [B; N; K] → input h G3 [B; N; K] →
  one_device [X; C; S; SL; G1] → is_cuda G2 = is_cuda X → is_cuda G3 = is_cuda X →
  to_list h G3 = zip_with fadd (to_list h G1) (to_list h G2) →
  ∃ GX1 GC1 GS1 h1 GX2 GC2 GS2 h2 GX3 GC3 GS3 h3,
    ScaledL2.backward c G1 h = (Ok (GX1, GC1, GS1), h1) ∧
    ScaledL2.backward c G2 h = (Ok (GX2, GC2, GS2), h2) ∧
    ScaledL2.backward c G3 h = (Ok (GX3, GC3, GS3), h3) ∧
    (∀ b i d, b < B → i < N → d < D →
       getv h3 GX3 [b; i; d] = fadd (getv h1 GX1 [b; i; d]) (getv h2 GX2 [b; i; d])) ∧
    (∀ k d, k < K → d < D →
       getv h3 GC3 [k; d] = fadd (getv h1 GC1 [k; d]) (getv h2 GC2 [k; d])) ∧
    (∀ k, k < K → getv h3 GS3 [k] = fadd (getv h1 GS1 [k]) (getv h2 GS2 [k])).
Proof.
  intros Hc HX HC HS HSL HG1 HG2 HG3 Hdev Hd2 Hd3 Hsum.
  pose proof Hdev as Hdev'.
  apply one_device_5 in Hdev' as (HdC & HdS & HdSL & HdG1).
  assert (∀ G, is_cuda G = is_cuda X → one_device [X; C; S; SL; G]) as Hdev5.
  { intros G HdG. unfold one_device. simpl.
    by rewrite HdC, HdS, HdSL, HdG, !Bool.eqb_reflx. }
  destruct (backward_values_exact c X C S SL G1 h B N K D Hc HX HC HS HSL HG1 Hdev)
    as (GX1 & GC1 & GS1 & h1 & Hrun1 & _ & _ & _ & HGX1 & HGC1 & HGS1).
  destruct (backward_values_exact c X C S SL G2 h B N K D Hc HX HC HS HSL HG2 (Hdev5 _ Hd2))
    as (GX2 & GC2 & GS2 & h2 & Hrun2 & _ & _ & _ & HGX2 & HGC2 & HGS2).
  destruct (backward_values_exact c X C S SL G3 h B N K D Hc HX HC HS HSL HG3 (Hdev5 _ Hd3))
    as (GX3 & GC3 & GS3 & h3 & Hrun3 & _ & _ & _ & HGX3 & HGC3 & HGS3).
  exists GX1, GC1, GS1, h1, GX2, GC2, GS2, h2, GX3, GC3, GS3, h3.
  repeat (split; [done|]).
  assert (∀ b i k, b < B → i < N → k < K →
            getv h G3 [b; i; k] = fadd (getv h G1 [b; i; k]) (getv h G2 [b; i; k])) as HG.
  { intros b i k Hb Hi Hk.
    apply (to_list_zip_with fadd h G3 G1 G2 [B; N; K] [b; i; k]
             (input_sizes _ _ _ HG3) (input_sizes _ _ _ HG1) (input_sizes _ _ _ HG2) Hsum).
    apply elem_of_indices. repeat (constructor; try lia). }
  split; [|split].
  - intros b i d Hb Hi Hd. rewrite HGX1, HGX2, HGX3, <- sum_over_add by done.
    apply sum_over_ext. intros k Hk. unfold tmp_val, G_val. rewrite HG by done.
    apply tmp_additive.
  - intros k d Hk Hd. rewrite HGC1, HGC2, HGC3 by done.
    rewrite <- fmul_fadd_l. f_equal.
    rewrite <- sum_over2_add. apply sum_over2_ext. intros b i Hb Hi.
    unfold tmp_val, G_val. rewrite HG by done. apply tmp_additive.
  - intros k Hk. rewrite HGS1, HGS2, HGS3, <- sum_over2_add by done.
    apply sum_over2_ext. intros b i Hb Hi. unfold Q_val. rewrite HG by done.
    apply fmul_fadd_r.
Qed.

(** X4 over the rationals: the output gradients [[[1,1],[1,2]]] and
    [[[0,1],[2,1]]] and their sum. *)
Lemma scaled_l2_backward_additive_witness :
  ∃ GX1 GC1 GS1 h1 GX2 GC2 GS2 h2 GX3 GC3 GS3 h3,
    ScaledL2.backward cq GSLq hq4 = (Ok (GX1, GC1, GS1), h1) ∧
    ScaledL2.backward cq G2q hq4 = (Ok (GX2, GC2, GS2), h2) ∧
    ScaledL2.backward cq G3q hq4 = (Ok (GX3, GC3, GS3), h3) ∧
    (∀ b i d, b < 1 → i < 2 → d < 3 →
       getv h3 GX3 [b; i; d] = fadd (getv h1 GX1 [b; i; d]) (getv h2 GX2 [b; i; d])) ∧
    (∀ k d, k < 2 → d < 3 →
       getv h3 GC3 [k; d] = fadd (getv h1 GC1 [k; d]) (getv h2 GC2 [k; d])) ∧
    (∀ k, k < 2 → getv h3 GS3 [k] = fadd (getv h1 GS1 [k]) (getv h2 GS2 [k])).
Proof.
  apply (scaled_l2_backward_additive Qc _ hq4 cq Xq Cq Sq SLq GSLq G2q G3q 1 2 2 3);
    [reflexivity | split; reflexivity | split; reflexivity | split; reflexivity
    | split; reflexivity | split; reflexivity | split; reflexivity
    | split; reflexivity | reflexivity | reflexivity | reflexivity | reflexivity].
Defined.

(** X5.  When [X] has shape (B,N,1) and [C] has shape (K,D), [scaled_l2]
    repeats the one feature of every sample along the [D] features of the
    codewords: it returns [SL] of shape (B,N,K) with
    [SL[b,i,k] = (sum over d of (X[b,i,0] - C[k,d])^2) * S[k]], the sum
    being the library's reduction of the [D] squares, in whatever order
    it adds them up. *)
Theorem scaled_l2_broadcast_value (F : Type) `(Reduction F)
    (h : heap F) (X C S : tensor) (B N K D : nat) :
  input h X [B; N; 1] → input h C [K; D] → input h S [K] →
  one_device [X; C; S] →
  ∃ SL h',
    scaled_l2 X C S h = (Ok SL, h') ∧ sizes SL = [B; N; K] ∧
    ∀ b i k, b < B → i < N → k < K →
      getv h' SL [b; i; k]
      = fmul (reduce_over D
                (λ d, fpow (fsub (getv h X [b; i; 0]) (getv h C [k; d])) 2))
             (getv h S [k]).
Proof.
  intros HX HC HS Hdev. apply one_device_3 in Hdev as [HdC HdS].
  destruct (forward_bcast_run (Ctx [] []) X C S h B N K D
              (input_sizes _ _ _ HX) (input_strides _ _ _ HX)
              (input_sizes _ _ _ HC) (input_strides _ _ _ HC)
              (input_sizes _ _ _ HS) (input_strides _ _ _ HS) HdC HdS
              (input_sid _ _ _ HX) (input_sid _ _ _ HC) (input_sid _ _ _ HS))
    as (new & Hrun & Hv).
  eexists _, _. split; [exact (scaled_l2_ok _ _ _ _ _ _ _ Hrun)|]. split; [done|].
  exact Hv.
Qed.

(** X5 over the rationals: [X = [[[1],[2]]]] against [C] of shape (2,3). *)
Lemma scaled_l2_broadcast_value_witness :
  ∃ SL h',
    scaled_l2 Xbq Cq Sq hq = (Ok SL, h') ∧ sizes SL = [1; 2; 2] ∧
    ∀ b i k, b < 1 → i < 2 → k < 2 →
      getv h' SL [b; i; k]
      = fmul (reduce_over 3
                (λ d, fpow (fsub (getv hq Xbq [b; i; 0]) (getv hq Cq [k; d])) 2))
             (getv hq Sq [k]).
Proof.
  apply (scaled_l2_broadcast_value Qc _ hq Xbq Cq Sq 1 2 2 3);
    [split; reflexivity | split; reflexivity | split; reflexivity | reflexivity].
Defined.

(** X6.  When the retained [X] has shape (B,N,1) and [C] has shape (K,D),
    [ScaledL2.backward] returns a [GX] of shape (B,N,D), which is not the
    shape of [X] unless [D = 1]: the residual is broadcast to (B,N,K,D) and
    only the codeword dimension is summed, so
    [GX[b,i,d] = sum over k of (X[b,i,0] - C[k,d]) * (GSL[b,i,k] * 2 * S[k])],
    the sum being the library's reduction of the [K] products, in whatever
    order it adds them up. *)
Theorem scaled_l2_backward_after_broadcast (F : Type) `(Reduction F)
    (h : heap F) (c : ctx) (X C S SL GSL : tensor) (B N K D : nat) :
  saved_variables c = [X; C; S; SL] →
  input h X [B; N; 1] → input h C [K; D] → input h S [K] →
  input h SL [B; N; K] → input h GSL [B; N; K] →
  one_device [X; C; S; SL; GSL] →
  ∃ GX GC GS h',
    ScaledL2.backward c GSL h = (Ok (GX, GC, GS), h') ∧
    sizes X = [B; N; 1] ∧ sizes GX = [B; N; D] ∧
    ∀ b i d, b < B → i < N → d < D →
      getv h' GX [b; i; d]
      = reduce_over K (λ k,
          fmul (fsub (getv h X [b; i; 0]) (getv h C [k; d]))
               (fmul (fmul (getv h GSL [b; i; k]) (of_int 2)) (getv h S [k]))).
Proof.
  intros Hc HX HC HS HSL HG Hdev.
  apply one_device_5 in Hdev as (HdC & HdS & HdSL & HdG).
  destruct (backward_bcast_run c X C S SL GSL h B N K D Hc
              (input_sizes _ _ _ HX) (input_strides _ _ _ HX)
              (input_sizes _ _ _ HC) (input_strides _ _ _ HC)
              (input_sizes _ _ _ HS) (input_strides _ _ _ HS)
              (input_sizes _ _ _ HSL) (input_strides _ _ _ HSL)
              (input_sizes _ _ _ HG) (input_strides _ _ _ HG)
              HdC HdS HdSL HdG
              (input_sid _ _ _ HX) (input_sid _ _ _ HC) (input_sid _ _ _ HS)
              (input_sid _ _ _ HSL) (input_sid _ _ _ HG))
    as (new & Hrun & Hv).
  eexists _, _, _, _. split; [exact Hrun|].
  split; [exact (input_sizes _ _ _ HX)|]. split; [done|]. exact Hv.
Qed.

(** X6 over the rationals: [X] of shape (1,2,1) retained, [C] of shape
    (2,3); the gradient [GX] has shape (1,2,3). *)
Lemma scaled_l2_backward_after_broadcast_witness :
  ∃ GX GC GS h',
    ScaledL2.backward cbq GSLq hq1 = (Ok (GX, GC, GS), h') ∧
    sizes Xbq = [1; 2; 1] ∧ sizes GX = [1; 2; 3] ∧
    ∀ b i d, b < 1 → i < 2 → d < 3 →
      getv h' GX [b; i; d]
      = reduce_over 2 (λ k,
          fmul (fsub (getv hq1 Xbq [b; i; 0]) (getv hq1 Cq [k; d]))
               (fmul (fmul (getv hq1 GSLq [b; i; k]) (of_int 2)) (getv hq1 Sq [k]))).
Proof.
  apply (scaled_l2_backward_after_broadcast Qc _ hq1 cbq Xbq Cq Sq SLq GSLq 1 2 2 3);
    [reflexivity | split; reflexivity | split; reflexivity | split; reflexivity
    | split; reflexivity | split; reflexivity | reflexivity].
Defined.

(** X7.  [scaled_l2] on operands of different devices fails with a device
    error: at the subtraction, with the heap unchanged, when [C] is not on
    the device of [X]; at the multiplication by the scales, after two
    storages (the squared residuals and their sums) have been written,
    when only [S] is on another device. *)
Theorem scaled_l2_device_mismatch (F : Type) `(Reduction F) :
  (∀ (h : heap F) X C S B N K D,
      input h X [B; N; D] → input h C [K; D] → is_cuda C ≠ is_cuda X →
      scaled_l2 X C S h = (Raise (DeviceError OpSub), h))
  ∧ (∀ (h : heap F) X C S B N K D,
      input h X [B; N; D] → input h C [K; D] → input h S [K] →
      is_cuda C = is_cuda X → is_cuda S ≠ is_cuda X →
      ∃ new, length new = 2 ∧
        scaled_l2 X C S h = (Raise (DeviceError OpMul_), h ++ new)).
Proof.
  split.
  - intros h X C S B N K D HX HC HdC. apply scaled_l2_raise.
    eapply forward_device_C;
      [exact (input_sizes _ _ _ HX) | exact (input_strides _ _ _ HX)
      |exact (input_sizes _ _ _ HC) | exact (input_strides _ _ _ HC)
      |by left | done].
  - intros h X C S B N K D HX HC HS HdC HdS.
    destruct (forward_device_S (Ctx [] []) X C S h B N D K D
                (input_sizes _ _ _ HX) (input_strides _ _ _ HX)
                (input_sizes _ _ _ HC) (input_strides _ _ _ HC)
                (input_sizes _ _ _ HS) (input_strides _ _ _ HS)
                (or_introl eq_refl) HdC HdS)
      as (new & Hlen & Hrun).
    exists new. split; [done|]. by apply scaled_l2_raise.
Qed.

(** X7 over the rationals: [C], then [S], on the other device. *)
Lemma scaled_l2_device_mismatch_witness :
  scaled_l2 Xq (fresh 1 [2; 3] true) Sq hq = (Raise (DeviceError OpSub), hq)
  ∧ ∃ new, length new = 2 ∧
      scaled_l2 Xq Cq (fresh 2 [2] true) hq = (Raise (DeviceError OpMul_), hq ++ new).
Proof.
  destruct (scaled_l2_device_mismatch Qc _) as [HC HS]. split.
  - apply (HC hq Xq (fresh 1 [2; 3] true) Sq 1 2 2 3);
      [split; reflexivity | split; reflexivity | discriminate].
  - apply (HS hq Xq Cq (fresh 2 [2] true) 1 2 2 3);
      [split; reflexivity | split; reflexivity | split; reflexivity
      | reflexivity | discriminate].
Defined.

(** X8.  [scaled_l2] on tensors of the wrong rank fails before anything is
    computed: with an index error at [X.unsqueeze(2)] when [X] has fewer
    than two dimensions, with an index error at [C.size] when [C] has fewer
    than two, and with a shape error at [expand] when [X] has more than
    three. *)
Theorem scaled_l2_rank_errors (F : Type) `(Reduction F) :
  (∀ (h : heap F) X C S,
      dim X < 2 → scaled_l2 X C S h = (Raise (IndexError OpUnsqueeze), h))
  ∧ (∀ (h : heap F) X C S,
      2 ≤ dim X → dim C < 2 → scaled_l2 X C S h = (Raise (IndexError OpSize), h))
  ∧ (∀ (h : heap F) X C S,
      3 < dim X → length (strides X) = dim X → 2 ≤ dim C →
      scaled_l2 X C S h = (Raise (ShapeError OpExpand), h)).
Proof.
  split; [|split].
  - intros h X C S HX. apply scaled_l2_raise. by apply forward_rank_X.
  - intros h X C S HX HC. apply scaled_l2_raise. by apply forward_rank_C.
  - intros h X C S HX Hst HC. apply scaled_l2_raise. by apply forward_rank_X_high.
Qed.

(** X8 over the rationals: [X] of shape (6), [C] of shape (6), [X] of
    shape (1,1,2,3). *)
Lemma scaled_l2_rank_errors_witness :
  scaled_l2 (fresh 0 [6] false) Cq Sq hq = (Raise (IndexError OpUnsqueeze), hq)
  ∧ scaled_l2 Xq (fresh 1 [6] false) Sq hq = (Raise (IndexError OpSize), hq)
  ∧ scaled_l2 (fresh 0 [1; 1; 2; 3] false) Cq Sq hq = (Raise (ShapeError OpExpand), hq).
Proof.
  destruct (scaled_l2_rank_errors Qc _) as (Hlow & HC & Hhigh).
  split; [|split].
  - apply (Hlow hq (fresh 0 [6] false) Cq Sq). unfold dim. simpl. lia.
  - apply (HC hq Xq (fresh 1 [6] false) Sq); unfold dim; simpl; lia.
  - apply (Hhigh hq (fresh 0 [1; 1; 2; 3] false) Cq Sq);
      [unfold dim; simpl; lia | reflexivity | unfold dim; simpl; lia].
Defined.

(** X9.  [ScaledL2.backward] never returns on an output gradient of shape
    (B,N,K') with [K'] other than the number [K] of codewords: one of the
    in-place multiplications fails with a shape error, after two storages
    (the residuals and [2 * GSL]) have been written. *)
Theorem scaled_l2_backward_rejects_gradient (F : Type) `(Reduction F)
    (h : heap F) (c : ctx) (X C S SL GSL : tensor) (B N K K' D : nat) :
  saved_variables c = [X; C; S; SL] →
  input h X [B; N; D] → input h C [K; D] → input h S [K] →
  sizes GSL = [B; N; K'] → one_device [X; C; S; GSL] →
  K' ≠ K →
  ∃ new, length new = 2 ∧
    ScaledL2.backward c GSL h = (Raise (ShapeError OpMul_), h ++ new).
Proof.
  intros Hc HX HC HS HG Hdev HK.
  apply one_device_4 in Hdev as (HdC & HdS & HdG).
  exact (backward_K_mismatch c X C S SL GSL h B N K K' D Hc
           (input_sizes _ _ _ HX) (input_strides _ _ _ HX)
           (input_sizes _ _ _ HC) (input_strides _ _ _ HC)
           (input_sizes _ _ _ HS) (input_strides _ _ _ HS)
           HG HdC HdS HdG HK).
Qed.

(** X9 over the rationals: a gradient of shape (1,2,1) against two
    codewords. *)
Lemma scaled_l2_backward_rejects_gradient_witness :
  ∃ new, length new = 2 ∧
    ScaledL2.backward cq (fresh 3 [1; 2; 1] false) hq1
    = (Raise (ShapeError OpMul_), hq1 ++ new).
Proof.
  apply (scaled_l2_backward_rejects_gradient Qc _ hq1 cq Xq Cq Sq SLq
           (fresh 3 [1; 2; 1] false) 1 2 2 1 3);
    [reflexivity | split; reflexivity | split; reflexivity | split; reflexivity
    | reflexivity | reflexivity | lia].
Defined.

(** X10.  On an empty batch ([B * N = 0]) [ScaledL2.backward] returns: [GX]
    has no entries, every entry of [GS] is the empty sum [0], and every
    entry of [GC] is the empty sum multiplied by [-1]. *)
Theorem scaled_l2_backward_empty_batch (F : Type) `(Reduction F)
    (h : heap F) (c : ctx) (X C S SL GSL : tensor) (B N K D : nat) :
  saved_variables c = [X; C; S; SL] →
  input h X [B; N; D] → input h C [K; D] → input h S [K] →
  input h SL [B; N; K] → input h GSL [B; N; K] →
  one_device [X; C; S; SL; GSL] →
  B * N = 0 →
  ∃ GX GC GS h',
    ScaledL2.backward c GSL h = (Ok (GX, GC, GS), h') ∧
    to_list h' GX = [] ∧
    (∀ k d, k < K → d < D → getv h' GC [k; d] = fmul fzero (of_int (-1))) ∧
    (∀ k, k < K → getv h' GS [k] = fzero).
Proof.
  intros Hc HX HC HS HSL HG Hdev HBN.
  destruct (backward_values c X C S SL GSL h B N K D Hc HX HC HS HSL HG Hdev)
    as (GX & GC & GS & h' & Hrun & HsX & _ & _ & _ & HGC & HGS).
  exists GX, GC, GS, h'. split; [done|]. split; [|split].
  - unfold to_list. rewrite HsX, indices_empty; [done|]. simpl. nia.
  - intros k d Hk Hd. by rewrite HGC, reduce_over2_empty.
  - intros k Hk. by rewrite HGS, reduce_over2_empty.
Qed.

(** X10 over the rationals: [X] of shape (0,2,3). *)
Lemma scaled_l2_backward_empty_batch_witness :
  ∃ GX GC GS h',
    ScaledL2.backward c0q GSL0q hq1 = (Ok (GX, GC, GS), h') ∧
    to_list h' GX = [] ∧
    (∀ k d, k < 2 → d < 3 → getv h' GC [k; d] = fmul fzero (of_int (-1))) ∧
    (∀ k, k < 2 → getv h' GS [k] = fzero).
Proof.
  apply (scaled_l2_backward_empty_batch Qc _ hq1 c0q X0q Cq Sq SL0q GSL0q 0 2 2 3);
    [reflexivity | split; reflexivity | split; reflexivity | split; reflexivity
    | split; reflexivity | split; reflexivity | reflexivity | lia].
Defined.

(** X11.  The tensor that [scaled_l2] returns shares no storage with any
    tensor that existed before the call: it is the contiguous tensor, on
    the device of [X], that views the whole of the second of the two
    storages the call allocates, and it is a valid input of later calls. *)
Theorem scaled_l2_output_fresh (F : Type) `(Reduction F)
    (h : heap F) (X C S : tensor) (B N K D : nat) :
  input h X [B; N; D] → input h C [K; D] → input h S [K] →
  one_device [X; C; S] →
  ∃ SL new,
    scaled_l2 X C S h = (Ok SL, h ++ new) ∧ length new = 2 ∧
    length h ≤ sid SL ∧ base SL = 0 ∧ strides SL = contiguous_strides [B; N; K] ∧
    is_cuda SL = is_cuda X ∧ input (h ++ new) SL [B; N; K].
Proof.
  intros HX HC HS Hdev.
  pose proof (forward_ok (Ctx [] []) X C S h B N K D HX HC HS Hdev) as Hfw.
  eexists _, _. split; [exact (scaled_l2_ok _ _ _ _ _ _ _ Hfw)|].
  split; [done|]. split; [simpl; lia|]. split; [done|]. split; [done|].
  split; [done|].
  eapply (input_fresh_app _ _ 1); [unfold SL_data; reflexivity|simpl; lia].
Qed.

(** X11 over the rationals. *)
Lemma scaled_l2_output_fresh_witness :
  ∃ SL new,
    scaled_l2 Xq Cq Sq hq = (Ok SL, hq ++ new) ∧ length new = 2 ∧
    length hq ≤ sid SL ∧ base SL = 0 ∧ strides SL = contiguous_strides [1; 2; 2] ∧
    is_cuda SL = is_cuda Xq ∧ input (hq ++ new) SL [1; 2; 2].
Proof.
  apply (scaled_l2_output_fresh Qc _ hq Xq Cq Sq 1 2 2 3);
    [split; reflexivity | split; reflexivity | split; reflexivity | reflexivity].
Defined.

(** X12.  The three gradients that [ScaledL2.backward] returns are
    contiguous tensors on the device of [X], each viewing the whole of a
    storage of its own among the six the call allocates: they share no
    storage with one another nor with any tensor that existed before the
    call, and they are valid inputs of later calls. *)
Theorem scaled_l2_gradients_fresh (F : Type) `(Reduction F)
    (h : heap F) (c : ctx) (X C S SL GSL : tensor) (B N K D : nat) :
  saved_variables c = [X; C; S; SL] →
  input h X [B; N; D] → input h C [K; D] → input h S [K] →
  input h SL [B; N; K] → input h GSL [B; N; K] →
  one_device [X; C; S; SL; GSL] →
  ∃ GX GC GS new,
    ScaledL2.backward c GSL h = (Ok (GX, GC, GS), h ++ new) ∧ length new = 6 ∧
    Forall (λ t, length h ≤ sid t ∧ base t = 0 ∧
                 strides t = contiguous_strides (sizes t) ∧
                 is_cuda t = is_cuda X) [GX; GC; GS] ∧
    NoDup [sid GX; sid GC; sid GS] ∧
    input (h ++ new) GX [B; N; D] ∧ input (h ++ new) GC [K; D] ∧
    input (h ++ new) GS [K].
Proof.
  intros Hc HX HC HS HSL HG Hdev.
  pose proof (backward_ok c X C S SL GSL h B N K D Hc HX HC HS HSL HG Hdev) as Hbw.
  eexists _, _, _, _. split; [exact Hbw|]. split; [done|]. split; [|split; [|split; [|split]]].
  - repeat constructor; simpl; lia.
  - simpl.
    repeat (apply NoDup_cons_2;
            [rewrite ?not_elem_of_cons; repeat split; try lia; apply not_elem_of_nil|]).
    apply NoDup_nil_2.
  - eapply (input_fresh_app _ _ 2); [unfold GX_data; reflexivity|simpl; lia].
  - eapply (input_fresh_app _ _ 3); [unfold GC_data; reflexivity|simpl; lia].
  - eapply (input_fresh_app _ _ 5); [unfold GS_data; reflexivity|simpl; lia].
Qed.

(** X12 over the rationals. *)
Lemma scaled_l2_gradients_fresh_witness :
  ∃ GX GC GS new,
    ScaledL2.backward cq GSLq hq1 = (Ok (GX, GC, GS), hq1 ++ new) ∧ length new = 6 ∧
    Forall (λ t, length hq1 ≤ sid t ∧ base t = 0 ∧
                 strides t = contiguous_strides (sizes t) ∧
                 is_cuda t = is_cuda Xq) [GX; GC; GS] ∧
    NoDup [sid GX; sid GC; sid GS] ∧
    input (hq1 ++ new) GX [1; 2; 3] ∧ input (hq1 ++ new) GC [2; 3] ∧
    input (hq1 ++ new) GS [2].
Proof.
  apply (scaled_l2_gradients_fresh Qc _ hq1 cq Xq Cq Sq SLq GSLq 1 2 2 3);
    [reflexivity | split; reflexivity | split; reflexivity | split; reflexivity
    | split; reflexivity | split; reflexivity | reflexivity].
Defined.

(** X13.  Whatever the context, the tensors and the heap -- valid or not,
    of fitting shapes or not, whether the call returns or fails --
    [ScaledL2.forward] leaves every storage that existed before the call
    as it was, allocates at most two storages, and never fails on an
    in-place write to an overlapping view: [pow_] and [mul_] only ever
    write a storage the call itself allocated. *)
Theorem scaled_l2_forward_frame (F : Type) `(Reduction F)
    (h : heap F) (c : ctx) (X C S : tensor) :
  ∃ r new,
    ScaledL2.forward c X C S h = (r, h ++ new) ∧ length new ≤ 2 ∧
    ∀ o, r ≠ Raise (OverlapError o).
Proof.
  destruct (forward_framed c X C S h) as (new & Hh & Hlen & Ho).
  destruct (ScaledL2.forward c X C S h) as [r h']. simpl in *. subst h'.
  by exists r, new.
Qed.

(** X14.  Whatever the context, the output gradient and the heap -- valid
    or not, whether the call returns or fails -- [ScaledL2.backward] leaves
    every storage that existed before the call as it was, allocates at most
    six storages, and never fails on an in-place write to an overlapping
    view: the four [mul_] only ever write a storage the call itself
    allocated. *)
Theorem scaled_l2_backward_frame (F : Type) `(Reduction F)
    (h : heap F) (c : ctx) (GSL : tensor) :
  ∃ r new,
    ScaledL2.backward c GSL h = (r, h ++ new) ∧ length new ≤ 6 ∧
    ∀ o, r ≠ Raise (OverlapError o).
Proof.
  destruct (backward_framed c GSL h) as (new & Hh & Hlen & Ho).
  destruct (ScaledL2.backward c GSL h) as [r h']. simpl in *. subst h'.
  by exists r, new.
Qed.

(** X15.  In binary64 a NaN poisons the output of [scaled_l2]: on valid
    inputs [SL[b,i,k]] is NaN whenever some feature [X[b,i,d]] of the
    sample, some coordinate [C[k,d]] of the codeword, or the scale [S[k]]
    is NaN, whatever the order in which the library adds the squares
    up. *)
Theorem scaled_l2_nan_propagates {Red : Reduction binary64}
    (h : heap binary64) (X C S : tensor) (B N K D : nat) :
  input h X [B; N; D] → input h C [K; D] → input h S [K] →
  one_device [X; C; S] →
  ∃ SL h',
    scaled_l2 X C S h = (Ok SL, h') ∧
    ∀ b i k d, b < B → i < N → k < K → d < D →
      getv h X [b; i; d] = S754_nan ∨ getv h C [k; d] = S754_nan
      ∨ getv h S [k] = S754_nan →
      getv h' SL [b; i; k] = S754_nan.
Proof.
  intros HX HC HS Hdev.
  destruct (scaled_l2_values X C S h B N K D HX HC HS Hdev) as (SL & h' & Hrun & _ & Hv).
  exists SL, h'. split; [done|].
  intros b i k d Hb Hi Hk Hd Hnan. rewrite Hv by done.
  destruct Hnan as [Hn|[Hn|Hn]].
  - rewrite (b64_sqdist_nan h X C D b i k d) by auto. apply b64_mul_nan_l.
  - rewrite (b64_sqdist_nan h X C D b i k d) by auto. apply b64_mul_nan_l.
  - rewrite Hn. apply b64_mul_nan_r.
Qed.

(** X15 at [X = [[[NaN, 1.0]]]], [C = [[0.0, 0.0]]], [S = [1.0]], the
    squares added from left to right. *)
Lemma scaled_l2_nan_propagates_witness :
  ∃ SL h',
    scaled_l2 (Red:=left_to_right) Xfn Cfn Sfn hfn = (Ok SL, h') ∧
    ∀ b i k d, b < 1 → i < 1 → k < 1 → d < 2 →
      getv hfn Xfn [b; i; d] = S754_nan ∨ getv hfn Cfn [k; d] = S754_nan
      ∨ getv hfn Sfn [k] = S754_nan →
      getv h' SL [b; i; k] = S754_nan.
Proof.
  apply (scaled_l2_nan_propagates (Red:=left_to_right) hfn Xfn Cfn Sfn 1 1 1 2);
    [split; reflexivity | split; reflexivity | split; reflexivity | reflexivity].
Defined.
